(** * wicked: the Wick-contraction engine, embedded and verified

    A shallow embedding of the contraction engine of wicked
    (elementary-contraction enumeration, backtracking generation of
    composite contractions, canonicalization, evaluation, combinatorial
    factor) and of the operator sum of the older diagram code.

    Conventions of the embedding.
    - C++ [int] values are integers of [Z]; positions inside vectors and
      orbital-space ids are [nat].  Signed overflow is undefined in C++, so
      the embedding describes the runs in which no [int] overflows.
    - [scalar_t] is an exact, normalized rational: [Qc].
    - [std::vector] is [list]; [std::map] is [gmap]; [std::bitset] is the
      integer whose binary digits are the bits.
    - [std::sort] is a sort by the strict order [operator<] of the element
      type; on the totally ordered, pairwise distinct elements the code
      sorts, the result does not depend on the sorting algorithm. *)

From Stdlib Require Import QArith Qcanon.
From stdpp Require Import base tactics option list numbers strings pretty
  lexico sorting orders gmap fin_maps.

(** ** Scalars *)

Abbreviation scalar_t := Qc (only parsing).

(** ** Orbital spaces *)

Inductive SpaceType := Occupied | Unoccupied | General.

Global Instance SpaceType_eq_dec : EqDecision SpaceType.
Proof. solve_decision. Defined.

(** The process-wide registry [osi], read-only after initialization: the
    kind of every registered space, by space id. *)
Record OrbitalSpaceInfo := { space_types : list SpaceType }.

Definition num_spaces (osi : OrbitalSpaceInfo) : nat :=
  length (space_types osi).

Definition space_type (osi : OrbitalSpaceInfo) (s : nat) : option SpaceType :=
  space_types osi !! s.

(** ** Diagram vertices (diag_vertex.h) *)

(** [static constexpr int max_spaces_ = 8] *)
Definition max_spaces_ : nat := 8.

(** [vertex_t = std::array<std::pair<int,int>, max_spaces_>]: per space, the
    number of creation and of annihilation operators. *)
Abbreviation DiagVertex := (list (Z * Z)) (only parsing).

Module Vertex.

(** [DiagVertex()]: the value-initialized array. *)
Definition zero : DiagVertex := replicate max_spaces_ (0, 0)%Z.

(** [vertex(space)] *)
Definition vertex (v : DiagVertex) (s : nat) : Z * Z :=
  default (0, 0)%Z (v !! s).

Definition cre (v : DiagVertex) (s : nat) : Z := (vertex v s).1.
Definition ann (v : DiagVertex) (s : nat) : Z := (vertex v s).2.

Definition set_cre (s : nat) (value : Z) (v : DiagVertex) : DiagVertex :=
  <[s := (value, ann v s)]> v.
Definition set_ann (s : nat) (value : Z) (v : DiagVertex) : DiagVertex :=
  <[s := (cre v s, value)]> v.

(** The legs of a vertex in one space. *)
Definition legs (v : DiagVertex) (s : nat) : Z := (cre v s + ann v s)%Z.

(** Modelled from the spec: the body of [DiagVertex::rank] is not in the
    sources; [rank(v) = Σ_s (cre_s + ann_s)] over the array. *)
Definition rank (v : DiagVertex) : Z :=
  foldr (λ s acc, cre v s + ann v s + acc)%Z 0%Z (seq 0 max_spaces_).

(** The array is combined entry by entry. *)
Definition zip_with (f : Z → Z → Z) (v w : DiagVertex) : DiagVertex :=
  (λ s, (f (cre v s) (cre w s), f (ann v s) (ann w s))) <$> seq 0 max_spaces_.

(** Modelled from the spec: the bodies of [operator+=] and [operator-=]
    are not in the sources; they add and subtract the operator counts
    componentwise, without saturation. *)
Definition add (v w : DiagVertex) : DiagVertex := zip_with Z.add v w.
Definition sub (v w : DiagVertex) : DiagVertex := zip_with Z.sub v w.

(** Modelled from the spec: the body of [DiagVertex::operator<] is not in
    the sources; vertices are compared lexicographically over the spaces,
    creation before annihilation (the order of the underlying array of
    pairs).  This is [lexico] on [list (Z * Z)]. *)
Definition lt (v w : DiagVertex) : Prop := lexico v w.

End Vertex.

(** Helper functions of diag_vertex.h on vectors of vertices. *)

(** [vertices_rank] / [sum_num_ops]: the particle rank of a vector. *)
Definition vertices_rank (vs : list DiagVertex) : Z :=
  foldr (λ v acc, Vertex.rank v + acc)%Z 0%Z vs.

(** ** Operators *)

Record DiagOperator := {
  label : string;
  factor : scalar_t;
  vertex : DiagVertex;
}.

Definition op_cre (op : DiagOperator) (s : nat) : Z := Vertex.cre (vertex op) s.
Definition op_ann (op : DiagOperator) (s : nat) : Z := Vertex.ann (vertex op) s.
(** [DiagOperator::rank] / [num_ops] *)
Definition num_ops (op : DiagOperator) : Z := Vertex.rank (vertex op).

Definition operators_rank (ops : list DiagOperator) : Z :=
  vertices_rank (vertex <$> ops).

(** ** Operator sums of the older diagram code (wdiag_operator_sum.cc) *)

Module WDiag.

(** [WDiagVertex]: [std::vector<std::pair<int,int>>]. *)
Abbreviation WDiagVertex := (list (Z * Z)) (only parsing).

(** [WDiagOperator]: a label and a vertex; the map key is a vector of
    them. *)
Abbreviation WDiagOperator := (string * list (Z * Z))%type (only parsing).

(** [dop_sum_t = std::map<std::vector<WDiagOperator>, scalar_t>] *)
Abbreviation dop_sum_t := (gmap (list (string * list (Z * Z))) Qc) (only parsing).

(** [WDiagOperatorSum::add] *)
Definition add (vec_dop : list WDiagOperator) (factor : scalar_t)
    (sum_ : dop_sum_t) : dop_sum_t :=
  match sum_ !! vec_dop with
  | Some coefficient =>
      (* Found, then just add the factor to the existing term *)
      let coefficient' := (coefficient + factor)%Qc in
      if decide (coefficient' = 0%Qc) then delete vec_dop sum_
      else <[vec_dop := coefficient']> sum_
  | None => <[vec_dop := factor]> sum_
  end.

End WDiag.

(** ** Outcomes of fallible code *)

(** A call returns, aborts ([throw], [exit(1)]) or runs into undefined
    behaviour (an access past the end of a vector). *)
Inductive outcome (A : Type) : Type :=
  | Returns (a : A)
  | Aborts (msg : string)
  | Undefined.
Global Arguments Returns {A} a.
Global Arguments Aborts {A} msg.
Global Arguments Undefined {A}.

Global Instance outcome_ret : MRet outcome := λ A a, Returns a.
Global Instance outcome_bind : MBind outcome := λ A B k m,
  match m with
  | Returns a => k a
  | Aborts msg => Aborts msg
  | Undefined => Undefined
  end.

(** [v[0]] on a vector. *)
Definition front {A} (v : list A) : outcome A :=
  match v with x :: _ => Returns x | [] => Undefined end.

(** ** Algorithms of the C++ standard library *)

(** [std::string] is compared as the sequence of its character codes. *)
Definition string_codes (s : string) : list N :=
  Ascii.N_of_ascii <$> String.list_ascii_of_string s.

Global Instance string_lexico : Lexico string :=
  λ s1 s2, lexico (string_codes s1) (string_codes s2).

Global Instance string_codes_inj : Inj (=) (=) string_codes.
Proof.
  intros s1 s2 Heq. unfold string_codes in Heq.
  rewrite <-(String.string_of_list_ascii_of_string s1),
    <-(String.string_of_list_ascii_of_string s2).
  f_equal. revert Heq.
  assert (Inj (=) (=) Ascii.N_of_ascii) as Hinj.
  { intros a b Hab.
    by rewrite <-(Ascii.ascii_N_embedding a), <-(Ascii.ascii_N_embedding b), Hab. }
  apply (inj (fmap Ascii.N_of_ascii)).
Qed.

Global Instance string_lexico_po : StrictOrder (@lexico string _).
Proof.
  unfold lexico, string_lexico. split.
  - intros s Hs. by apply (irreflexivity lexico (string_codes s)).
  - intros s1 s2 s3 H12 H23. by trans (string_codes s2).
Qed.

Global Instance string_lexico_trichotomy : TrichotomyT (@lexico string _).
Proof.
  red; refine (λ s1 s2,
    match trichotomyT lexico (string_codes s1) (string_codes s2) with
    | inleft (left Hlt) => inleft (left Hlt)
    | inleft (right Heq) => inleft (right (string_codes_inj _ _ Heq))
    | inright Hgt => inright Hgt
    end).
Defined.

Section std_sort.
Context `{Lexico A, !StrictOrder (@lexico A _), !TrichotomyT (@lexico A _)}.

(** [!(y < x)], the order [std::sort] leaves adjacent elements in. *)
Definition not_after (x y : A) : Prop := ¬ lexico y x.

Global Instance not_after_dec : RelDecision not_after.
Proof. intros x y. unfold not_after. apply _. Defined.

(** [std::sort(first, last)] with the default comparison. *)
Definition std_sort (l : list A) : list A := merge_sort not_after l.
End std_sort.

Section next_permutation.
Context {A : Type} `{EqDecision A}.

(** The ways of choosing the first element of a rearrangement of [l]:
    every element whose value does not occur earlier in [l], with the
    elements that stay, in their order. *)
Fixpoint selections (earlier l : list A) : list (A * list A) :=
  match l with
  | [] => []
  | x :: l' =>
      (if decide (x ∈ earlier) then [] else [(x, earlier ++ l')])
      ++ selections (earlier ++ [x]) l'
  end.

Fixpoint rearrangements (n : nat) (l : list A) : list (list A) :=
  match n with
  | 0 => [[]]
  | S n' => '(x, rest) ← selections [] l; (x ::.) <$> rearrangements n' rest
  end.

(** [do { body } while (std::next_permutation(first, last))], entered
    with a sorted range: by the contract of [std::next_permutation], the
    body sees every distinct permutation of the range exactly once, in
    lexicographic order, starting with the sorted range itself.  The list
    below is the sequence of ranges the body sees. *)
Definition next_permutation_loop (l : list A) : list (list A) :=
  rearrangements (length l) l.
End next_permutation.

(** [std::iota(first, last, 0)] on a vector of size [n]. *)
Definition iota (n : nat) : list nat := seq 0 n.

(** ** Symbolic terms (external collaborators, by their interface) *)

(** [Index]: a space and the number drawn from the per-space counter. *)
Abbreviation Index := (nat * nat)%type (only parsing).

Inductive SQOperatorType := Creation | Annihilation.

Global Instance SQOperatorType_eq_dec : EqDecision SQOperatorType.
Proof. solve_decision. Defined.

Record SQOperator := {
  sq_type : SQOperatorType;
  sq_index : Index;
}.

Inductive SymmetryType := Symmetric | Antisymmetric | Nonsymmetric.

Record Tensor := {
  tensor_label : string;
  tensor_lower : list Index;
  tensor_upper : list Index;
  tensor_symmetry : SymmetryType;
}.

(** [index_map_t] *)
Abbreviation index_map_t := (gmap (nat * nat) (nat * nat)) (only parsing).

(** A [SymbolicTerm] as the evaluator builds it: the tensors and the
    operators added to it, in order, and the map passed to [reindex]. *)
Record SymbolicTerm := {
  term_tensors : list Tensor;
  term_sqops : list SQOperator;
  term_reindex : index_map_t;
}.

(** Modelled from the spec: [binomial] is declared in combinatorics.h and its
    body is not in the sources; the binomial coefficient, by Pascal's rule. *)
Fixpoint choose (n k : nat) : nat :=
  match n, k with
  | _, 0 => 1
  | 0, S _ => 0
  | S n', S k' => choose n' k' + choose n' k
  end.

Definition binomial (n k : Z) : Z :=
  if decide (n < 0 ∨ k < 0)%Z then 0%Z
  else Z.of_nat (choose (Z.to_nat n) (Z.to_nat k)).

(** Modelled from the spec: [permutation_sign] is declared in combinatorics.h
    and its body is not in the sources; the sign of the permutation a vector
    encodes, [+1] for an even and [-1] for an odd number of inversions. *)
Fixpoint inversions (vec : list Z) : nat :=
  match vec with
  | [] => 0
  | x :: rest => length (filter (λ y, (y < x)%Z) rest) + inversions rest
  end.

Definition permutation_sign (vec : list Z) : Z :=
  if Nat.even (inversions vec) then 1%Z else (-1)%Z.

(** ** The Wick-theorem engine (wick_theorem.cc,
       wick_theorem_process_contractions.cc) *)

Global Instance DiagOperator_inhabited : Inhabited DiagOperator :=
  populate {| label := ""; factor := 0%Qc; vertex := Vertex.zero |}.

(** The line feed of the C++ string literals. *)
Definition nl : string := String (Ascii.ascii_of_nat 10) "".

Section wick_theorem.
(** The global registry [osi]. *)
Context (osi : OrbitalSpaceInfo).

(** *** Signatures *)

(** Modelled from the spec: [signature(const DiagVertex &)] is declared in
    diag_vertex.h and its body is not in the sources; the signature of a
    vertex is the sequence of its per-space (cre, ann) counts. *)
Definition signature (v : DiagVertex) : string :=
  foldr (λ s acc, pretty (Vertex.cre v s) +:+ pretty (Vertex.ann v s) +:+ acc)
    "" (seq 0 (num_spaces osi)).

(** [contraction_signature] *)
Definition contraction_signature (ops : list DiagOperator)
    (contractions : list (list DiagVertex))
    (ops_perm contr_perm : list nat) : string :=
  let nops := length ops in
  let s :=
    foldl (λ s i,
             (s +:+ label (ops !!! (ops_perm !!! i)))
               +:+ signature (vertex (ops !!! (ops_perm !!! i))))
      "" (seq 0 nops) in
  (* 2. Compare contractions *)
  let ncontr := length contractions in
  foldl (λ s i,
           foldl (λ s j,
                    s +:+ signature
                            ((contractions !!! (contr_perm !!! i))
                               !!! (ops_perm !!! j)))
             s (seq 0 nops))
    s (seq 0 ncontr).

(** *** Canonicalization *)

Definition odd_operator_msg : string :=
  nl +:+ nl +:+
  "  WickTheorem::canonicalize_contraction cannot yet handle " +:+
  "operators with an even number of sqops." +:+ nl.

(** [int_matrix conn_mat(nops, nops)]: a matrix of zeros, overwritten
    entry by entry; [conn_at m i j] is [conn_mat(i, j)]. *)
Definition conn_at (conn_mat : gmap (nat * nat) Z) (i j : nat) : Z :=
  default 0%Z (conn_mat !! (i, j)).

(** The operators an elementary contraction has legs on. *)
Definition connections (contraction : list DiagVertex) (nops : nat)
    : list nat :=
  filter (λ i, (Vertex.rank (contraction !!! i) > 0)%Z) (seq 0 nops).

Definition connect (connections : list nat)
    (conn_mat : gmap (nat * nat) Z) : gmap (nat * nat) Z :=
  let nconn := length connections in
  foldl (λ m i,
           foldl (λ m j,
                    <[(connections !!! j, connections !!! i) := 1%Z]>
                      (<[(connections !!! i, connections !!! j) := 1%Z]> m))
             m (seq (S i) (nconn - S i)))
    conn_mat (seq 0 nconn).

(** [conn_mat(i, j) = 1] if operators [i] and [j] are contracted. *)
Definition connectivity (elementary_contractions_ : list (list DiagVertex))
    (contraction_vec : list nat) (nops : nat) : gmap (nat * nat) Z :=
  foldl (λ m c, connect (connections (elementary_contractions_ !!! c) nops) m)
    ∅ contraction_vec.

(** [const int maxops = 64]: the width of the bitsets. *)
Definition maxops : nat := 64.

(** [left_masks[i][j] = true] for [j < i] with [conn_mat(j, i) != 0]. *)
Definition make_left_masks (conn_mat : gmap (nat * nat) Z) (nops : nat)
    : list Z :=
  (λ i, foldl (λ mask j,
                 if decide (conn_at conn_mat j i ≠ 0%Z)
                 then Z.setbit mask (Z.of_nat j) else mask)
          0%Z (seq 0 i)) <$> seq 0 nops.

Definition mask_at (left_masks : list Z) (i : nat) : Z :=
  default 0%Z (left_masks !! i).

(** The test on an operator permutation inside the [do] loop. *)
Definition allowed (left_masks : list Z) (ops_perm : list nat) (nops : nat)
    : bool :=
  foldl (λ allowed i,
           let i_perm := ops_perm !!! i in
           (* create a mask of operators to the left of i *)
           let i_mask :=
             foldl (λ mask j, Z.setbit mask (Z.of_nat (ops_perm !!! j)))
               0%Z (seq 0 i) in
           if decide (Z.land i_mask (mask_at left_masks i_perm)
                      ≠ mask_at left_masks i_perm)
           then false else allowed)
    true (seq 0 nops).

(** The contraction permutation found "directly" for an operator
    permutation: sort the pairs (permuted contraction, position). *)
Definition permuted_contr (contraction : list DiagVertex)
    (ops_perm : list nat) (nops : nat) : list DiagVertex :=
  (λ j, contraction !!! (ops_perm !!! j)) <$> seq 0 nops.

Definition sorted_contr_perm (contractions : list (list DiagVertex))
    (ops_perm : list nat) (nops : nat) : list nat :=
  let sorted_contractions :=
    std_sort (imap (λ i contraction,
                      (permuted_contr contraction ops_perm nops, i))
                contractions) in
  snd <$> sorted_contractions.

(** The vector [scores] when the [do] loop is left. *)
Definition canonical_scores (ops : list DiagOperator)
    (contractions : list (list DiagVertex)) (left_masks : list Z)
    : list (string * (list nat * list nat)) :=
  let nops := length ops in
  ops_perm ← next_permutation_loop (iota nops);
  if allowed left_masks ops_perm nops then
    let contr_perm := sorted_contr_perm contractions ops_perm nops in
    let signature := contraction_signature ops contractions ops_perm contr_perm in
    [(signature, (ops_perm, contr_perm))]
  else [].

(** [WickTheorem::canonicalize_contraction] *)
Definition canonicalize_contraction
    (elementary_contractions_ : list (list DiagVertex))
    (ops : list DiagOperator) (contraction_vec : list nat)
    : outcome (list DiagOperator * list (list DiagVertex)) :=
  (* create a vector of elementary contractions to apply *)
  let contractions := (λ c, elementary_contractions_ !!! c) <$> contraction_vec in
  if decide (Exists (λ op, Z.rem (num_ops op) 2 ≠ 0%Z) ops)
  then Aborts odd_operator_msg
  else
    let nops := length ops in
    (* the masks are bitsets of [maxops] bits, and the loop sets the bit
       of every operator *)
    if decide (maxops < nops) then Undefined else
    let conn_mat := connectivity elementary_contractions_ contraction_vec nops in
    let left_masks := make_left_masks conn_mat nops in
    let scores := std_sort (canonical_scores ops contractions left_masks) in
    match scores with
    | [] => Undefined
    | (_, (best_ops_perm, best_contr_perm)) :: _ =>
        let best_ops := (λ o, ops !!! o) <$> best_ops_perm in
        let best_contractions := (λ c, contractions !!! c) <$> best_contr_perm in
        Returns (best_ops, best_contractions)
    end.

(** *** Step 1: elementary contractions *)

(** [v[i]] on a vector of [int]. *)
Definition int_at (v : list Z) (i : nat) : Z := default 0%Z (v !! i).

(** Modelled from the spec: [integer_partitions(n, maxlen)] is declared in
    combinatorics.h and its body is not in the sources; it lists the
    partitions of [n] into at most [maxlen] positive parts, each partition
    once, as a non-increasing sequence of its parts. *)
Fixpoint partitions_bounded (maxlen largest n : nat) : list (list nat) :=
  match n, maxlen with
  | 0, _ => [[]]
  | S _, 0 => []
  | S _, S maxlen' =>
      part ← reverse (seq 1 (largest `min` n));
      (part ::.) <$> partitions_bounded maxlen' part (n - part)
  end.

Definition integer_partitions (n : Z) (maxlen : nat) : list (list Z) :=
  (λ part : list nat, Z.of_nat <$> part)
    <$> partitions_bounded maxlen (Z.to_nat n) (Z.to_nat n).

(** The elementary contraction with one creation leg on operator [c] and
    one annihilation leg on operator [a], in space [s]. *)
Definition pair_contraction (nops s c a : nat) : list DiagVertex :=
  let new_contr := replicate nops Vertex.zero in
  let new_contr := alter (Vertex.set_cre s 1) c new_contr in
  alter (Vertex.set_ann s 1) a new_contr.

(** 1. Pairwise contractions creation-annihilation, occupied space. *)
Definition occupied_contractions (ops : list DiagOperator) (s : nat)
    : list (list DiagVertex) :=
  let nops := length ops in
  c ← seq 0 nops;                       (* loop over creation (left) *)
  a ← seq (S c) (nops - S c);           (* loop over annihilation (right) *)
  if decide (op_cre (ops !!! c) s * op_ann (ops !!! a) s > 0)%Z
  then [pair_contraction nops s c a] else [].

(** 2. Pairwise contractions annihilation-creation, unoccupied space. *)
Definition unoccupied_contractions (ops : list DiagOperator) (s : nat)
    : list (list DiagVertex) :=
  let nops := length ops in
  a ← seq 0 nops;                       (* loop over annihilation (left) *)
  c ← seq (S a) (nops - S a);           (* loop over creation (right) *)
  if decide (op_cre (ops !!! c) s * op_ann (ops !!! a) s > 0)%Z
  then [pair_contraction nops s c a] else [].

(** The leg distributions tried for one partition: the zero-padded,
    sorted partition and its further permutations. *)
Definition padded_permutations (part : list Z) (nops : nat)
    : list (list Z) :=
  let perm := part ++ replicate (nops - length part) 0%Z in
  next_permutation_loop (std_sort perm).

Definition cre_compatible (ops : list DiagOperator) (s : nat)
    (perm : list Z) : bool :=
  forallb (λ A, bool_decide (¬ (op_cre (ops !!! A) s < int_at perm A)%Z))
    (seq 0 (length ops)).
Definition ann_compatible (ops : list DiagOperator) (s : nat)
    (perm : list Z) : bool :=
  forallb (λ A, bool_decide (¬ (op_ann (ops !!! A) s < int_at perm A)%Z))
    (seq 0 (length ops)).

Definition cre_legs_vec (ops : list DiagOperator) (s : nat) (half_legs : Z)
    : list (list Z) :=
  part ← integer_partitions half_legs (length ops);
  filter (λ perm, cre_compatible ops s perm = true)
    (padded_permutations part (length ops)).
Definition ann_legs_vec (ops : list DiagOperator) (s : nat) (half_legs : Z)
    : list (list Z) :=
  part ← integer_partitions half_legs (length ops);
  filter (λ perm, ann_compatible ops s perm = true)
    (padded_permutations part (length ops)).

Definition nops_contracted (nops : nat) (cre_legs ann_legs : list Z) : nat :=
  length (filter (λ A, (int_at cre_legs A + int_at ann_legs A > 0)%Z)
            (seq 0 nops)).

Definition general_contraction (nops s : nat) (cre_legs ann_legs : list Z)
    : list DiagVertex :=
  (λ A, Vertex.set_ann s (int_at ann_legs A)
          (Vertex.set_cre s (int_at cre_legs A) Vertex.zero))
    <$> seq 0 nops.

Definition max_half_legs (ops : list DiagOperator) (s : nat)
    (maxcumulant_ : Z) : Z :=
  let sumcre := foldl (λ acc op, acc + op_cre op s)%Z 0%Z ops in
  let sumann := foldl (λ acc op, acc + op_ann op s)%Z 0%Z ops in
  Z.min (Z.min sumcre sumann) maxcumulant_.

(** The 2k-legged contractions with [k = half_legs]. *)
Definition general_contractions_of (ops : list DiagOperator) (s : nat)
    (half_legs : Z) : list (list DiagVertex) :=
  let nops := length ops in
  cre_legs ← cre_legs_vec ops s half_legs;
  ann_legs ← ann_legs_vec ops s half_legs;
  (* exclude operators that have legs only on one operator *)
  if decide (nops_contracted nops cre_legs ann_legs < 2) then []
  else [general_contraction nops s cre_legs ann_legs].

(** 3. 2k-legged contractions (k >= 1), general space. *)
Definition general_contractions (maxcumulant_ : Z)
    (ops : list DiagOperator) (s : nat) : list (list DiagVertex) :=
  half_legs ← seqZ 1 (max_half_legs ops s maxcumulant_);
  general_contractions_of ops s half_legs.

(** The body of the loop over orbital spaces. *)
Definition space_contractions (maxcumulant_ : Z) (ops : list DiagOperator)
    (s : nat) : list (list DiagVertex) :=
  match space_type osi s with
  | Some Occupied => occupied_contractions ops s
  | Some Unoccupied => unoccupied_contractions ops s
  | Some General => general_contractions maxcumulant_ ops s
  | None => []
  end.

(** [WickTheorem::generate_elementary_contractions] *)
Definition generate_elementary_contractions (maxcumulant_ : Z)
    (ops : list DiagOperator) : list (list DiagVertex) :=
  s ← seq 0 (num_spaces osi); space_contractions maxcumulant_ ops s.

(** *** Step 2: composite contractions by backtracking *)

(** The scratch vector [a] and the depth [k] are represented by the filled
    part [a[0..k)] of the vector; the state is the vector of free vertices
    and the member [contractions_]. *)

(** [WickTheorem::process_contraction] *)
Definition free_rank (free_vertex_vec : list DiagVertex) : Z :=
  foldl (λ rank free_vertex, rank + Vertex.rank free_vertex)%Z 0%Z
    free_vertex_vec.

Definition process_contraction (a : list nat)
    (free_vertex_vec : list DiagVertex) (minrank maxrank : Z)
    (contractions_ : list (list nat)) : list (list nat) :=
  let rank := free_rank free_vertex_vec in
  if decide (rank >= minrank ∧ rank <= maxrank)%Z
  then contractions_ ++ [a] else contractions_.

(** The test of [construct_candidates] on one elementary contraction. *)
Definition compatible (free_vertex_vec el_contr : list DiagVertex) : bool :=
  forallb (λ A,
    forallb (λ s,
      bool_decide
        (¬ (Vertex.cre (free_vertex_vec !!! A) s < Vertex.cre (el_contr !!! A) s)%Z)
      && bool_decide
        (¬ (Vertex.ann (free_vertex_vec !!! A) s < Vertex.ann (el_contr !!! A) s)%Z))
      (seq 0 (num_spaces osi)))
    (seq 0 (length free_vertex_vec)).

(** [WickTheorem::construct_candidates], called with the stack [a[0..k-1)]
    of the contractions chosen so far. *)
Definition construct_candidates (a : list nat)
    (el_contr_vec : list (list DiagVertex))
    (free_vertex_vec : list DiagVertex) : list nat :=
  (* determine the last elementary contraction used *)
  let minc := default 0 (last a) in
  let maxc := length el_contr_vec in
  filter (λ c, compatible free_vertex_vec (el_contr_vec !!! c) = true)
    (seq minc (maxc - minc)).

(** [WickTheorem::make_move] and [WickTheorem::unmake_move] for the
    contraction [c = a[k-1]]. *)
Definition make_move (c : nat) (el_contr_vec : list (list DiagVertex))
    (free_vertex_vec : list DiagVertex) : list DiagVertex :=
  let el_contr := el_contr_vec !!! c in
  imap (λ A free_vertex, Vertex.sub free_vertex (el_contr !!! A))
    free_vertex_vec.

Definition unmake_move (c : nat) (el_contr_vec : list (list DiagVertex))
    (free_vertex_vec : list DiagVertex) : list DiagVertex :=
  let el_contr := el_contr_vec !!! c in
  imap (λ A free_vertex, Vertex.add free_vertex (el_contr !!! A))
    free_vertex_vec.

(** [WickTheorem::generate_contractions_backtrack]; [None] when the
    recursion is deeper than [fuel]. *)
Fixpoint generate_contractions_backtrack (fuel : nat) (a : list nat)
    (el_contr_vec : list (list DiagVertex))
    (free_vertex_vec : list DiagVertex) (contractions_ : list (list nat))
    (minrank maxrank : Z) : option (list DiagVertex * list (list nat)) :=
  match fuel with
  | 0 => None
  | S fuel' =>
      let contractions_ :=
        process_contraction a free_vertex_vec minrank maxrank contractions_ in
      let candidates := construct_candidates a el_contr_vec free_vertex_vec in
      foldl (λ state c,
               '(free_vertex_vec, contractions_) ← state;
               let free_vertex_vec := make_move c el_contr_vec free_vertex_vec in
               '(free_vertex_vec, contractions_) ←
                 generate_contractions_backtrack fuel' (a ++ [c]) el_contr_vec
                   free_vertex_vec contractions_ minrank maxrank;
               Some (unmake_move c el_contr_vec free_vertex_vec, contractions_))
        (Some (free_vertex_vec, contractions_)) candidates
  end.

(** [WickTheorem::generate_composite_contractions]: the member
    [contractions_] after the call.  Every descent removes legs from the
    free vertices, so the recursion is no deeper than the rank of the
    operators. *)
Definition generate_composite_contractions
    (elementary_contractions_ : list (list DiagVertex))
    (ops : list DiagOperator) (minrank maxrank : Z)
    : option (list (list nat)) :=
  let free_vertex_vec := vertex <$> ops in
  snd <$> generate_contractions_backtrack
            (S (Z.to_nat (operators_rank ops))) [] elementary_contractions_
            free_vertex_vec [] minrank maxrank.

(** *** Step 3: evaluation of a contraction *)

(** Modelled from the spec: [index_counter] is not in the sources; a
    per-space monotone counter, reset at the start of each evaluation. *)
Definition next_index (ic : list nat) (s : nat) : nat * list nat :=
  (ic !!! s, alter S s ic).

(** The state of [contraction_tensors_sqops] while the operators are laid
    out: the index counter, the vector of second-quantized operators, the
    map from (operator, space, creation?, slot) to positions, and the
    position [n] of the next operator. *)
Record layout := {
  lay_ic : list nat;
  lay_sqops : list SQOperator;
  lay_op_map : gmap (nat * nat * bool * Z) nat;
  lay_n : nat;
}.

(** One iteration of the innermost loops: lay out the operator of slot
    [slot] and record its index in [indices]. *)
Definition lay_out (type : SQOperatorType) (o s : nat) (slot : Z)
    (st : layout * list Index) : layout * list Index :=
  let '(lay, indices) := st in
  let '(i, ic) := next_index (lay_ic lay) s in
  let idx := (s, i) in
  ({| lay_ic := ic;
      lay_sqops := lay_sqops lay ++ [{| sq_type := type; sq_index := idx |}];
      lay_op_map :=
        <[(o, s, bool_decide (type = Creation), slot) := lay_n lay]>
          (lay_op_map lay);
      lay_n := lay_n lay + 1 |},
   indices ++ [idx]).

Definition lay_out_operator (o : nat) (op : DiagOperator)
    (st : layout * list Tensor) : layout * list Tensor :=
  let '(lay, tensors) := st in
  (* Loop over creation operators (lower indices) *)
  let '(lay, lower) :=
    foldl (λ st s,
             foldl (λ st c, lay_out Creation o s c st) st
               (seqZ 0 (op_cre op s)))
      (lay, []) (seq 0 (num_spaces osi)) in
  (* Loop over annihilation operators (upper indices), layed out in a
     reversed order *)
  let '(lay, upper) :=
    foldl (λ st s,
             foldl (λ st a, lay_out Annihilation o s a st) st
               (reverse (seqZ 0 (op_ann op s))))
      (lay, []) (reverse (seq 0 (num_spaces osi))) in
  (lay,
   tensors ++ [{| tensor_label := label op; tensor_lower := lower;
                  tensor_upper := reverse upper;
                  tensor_symmetry := Antisymmetric |}]).

(** [WickTheorem::contraction_tensors_sqops] *)
Definition contraction_tensors_sqops (ops : list DiagOperator)
    : list Tensor * list SQOperator * gmap (nat * nat * bool * Z) nat :=
  let init :=
    {| lay_ic := replicate (num_spaces osi) 0; lay_sqops := [];
       lay_op_map := ∅; lay_n := 0 |} in
  let '(lay, tensors) :=
    foldl (λ st '(o, op), lay_out_operator o op st) (init, [])
      (imap (λ o op, (o, op)) ops) in
  (tensors, lay_sqops lay, lay_op_map lay).

(** Modelled from the spec: [spaces_in_vertices] is not in the sources; the
    spaces in which some vertex of the vector has a creation or an
    annihilation operator, in increasing order. *)
Definition spaces_in_vertices (vertices : list DiagVertex) : list nat :=
  filter (λ s, Exists (λ v, Vertex.cre v s ≠ 0%Z ∨ Vertex.ann v s ≠ 0%Z) vertices)
    (seq 0 (num_spaces osi)).

Definition not_found_msg : string := " NOT FOUND!!!".

(** [WickTheorem::vertex_vec_to_pos]: the positions found and the updated
    [ops_offset]. *)
Definition vertex_vec_to_pos (vertex_vec : list DiagVertex)
    (ops_offset : list DiagVertex)
    (op_map : gmap (nat * nat * bool * Z) nat) (creation : bool)
    : outcome (list nat * list DiagVertex) :=
  s ← front (spaces_in_vertices vertex_vec);
  (* Loop over all vertices *)
  foldl (λ st v,
           '(result, ops_offset) ← st;
           let vertex := vertex_vec !!! v in
           let nops := if creation then Vertex.cre vertex s
                       else Vertex.ann vertex s in
           (* assign the operator indices *)
           let ops_off := if creation then Vertex.cre (ops_offset !!! v) s
                          else Vertex.ann (ops_offset !!! v) s in
           result ←
             foldl (λ result i,
                      result ← result;
                      (* find the operator corresponding to this leg *)
                      match op_map !! (v, s, creation, ops_off + i)%Z with
                      | None => Aborts not_found_msg
                      | Some sqop_pos => Returns (result ++ [sqop_pos])
                      end)
               (Returns result) (seqZ 0 nops);
           (* update the creator's offset *)
           let ops_offset :=
             if creation
             then alter (Vertex.set_cre s (ops_off + nops)%Z) v ops_offset
             else alter (Vertex.set_ann s (ops_off + nops)%Z) v ops_offset in
           Returns (result, ops_offset))
    (Returns ([], ops_offset)) (seq 0 (length vertex_vec)).

(** [WickTheorem::combinatorial_factor] *)
Definition apply_contraction (contraction : list DiagVertex)
    (st : scalar_t * list DiagVertex) : scalar_t * list DiagVertex :=
  foldl (λ '(factor, free_vertices) v,
           let vertex := contraction !!! v in
           let factor :=
             foldl (λ factor s,
                      let '(kcre, kann) := Vertex.vertex vertex s in
                      let '(ncre, nann) :=
                        Vertex.vertex (free_vertices !!! v) s in
                      (factor * Qc_of_Z (binomial ncre kcre)
                              * Qc_of_Z (binomial nann kann))%Qc)
               factor (seq 0 (num_spaces osi)) in
           (factor, alter (λ free_vertex, Vertex.sub free_vertex vertex)
                      v free_vertices))
    st (seq 0 (length contraction)).

Definition count_contractions (contractions : list (list DiagVertex))
    : gmap (list (list (Z * Z))) Z :=
  foldl (λ contraction_count contraction,
           <[contraction := (default 0 (contraction_count !! contraction) + 1)%Z]>
             contraction_count)
    ∅ contractions.

Definition combinatorial_factor (ops : list DiagOperator)
    (contractions : list (list DiagVertex)) : scalar_t :=
  (* stores the offset for each uncontracted operator *)
  let free_vertices := vertex <$> ops in
  (* for each contraction find the combinatorial factor *)
  let '(factor, _) :=
    foldl (λ st contraction, apply_contraction contraction st)
      (1%Qc, free_vertices) contractions in
  let contraction_count := count_contractions contractions in
  map_fold (λ _ count factor, (factor / Qc_of_Z (binomial count 1))%Qc)
    factor contraction_count.

(** The variables of [evaluate_contraction] that the loop over the
    elementary contractions updates. *)
Record evaluation := {
  ops_offset : list DiagVertex;
  sign_order : list Z;
  bit_map_vec : list (list bool);
  sorted_position : Z;
  nsqops_contracted : Z;
  unoccupied_sign : Z;
  pair_contraction_reindex_map : index_map_t;
  tensors : list Tensor;
}.

(** [sqops[pos].index()] *)
Definition index_at (sqops : list SQOperator) (pos : nat) : outcome Index :=
  match sqops !! pos with
  | Some sqop => Returns (sq_index sqop)
  | None => Undefined
  end.

(** Mark operators contracted and assign their order. *)
Definition mark (positions : list nat) (st : list bool * list Z * Z)
    : list bool * list Z * Z :=
  foldl (λ '(bit_map, sign_order, sorted_position) c,
           (<[c := true]> bit_map, <[c := sorted_position]> sign_order,
            (sorted_position + 1)%Z))
    st positions.

(** The label of the cumulant of a contraction of a general space, and
    the sign factor after it. *)
Definition cumulant_label (rank : Z) (pos_cre_sqops pos_ann_sqops : list nat)
    (unoccupied_sign : Z) : outcome (string * Z) :=
  if decide (rank = 2%Z) then
    c ← front pos_cre_sqops; a ← front pos_ann_sqops;
    if decide (c < a) then Returns ("gamma1"%string, unoccupied_sign)
    else
      (* this factor is to compensate for the fact that we order operator in
         a canonical form in which annihilators are to the left of creation
         operators *)
      Returns ("eta1"%string, (unoccupied_sign * -1)%Z)
  else Returns ("lambda" +:+ pretty (rank `quot` 2)%Z, unoccupied_sign).

(** The body of the loop over elementary contractions. *)
Definition contract (sqops : list SQOperator)
    (op_map : gmap (nat * nat * bool * Z) nat) (ev : evaluation)
    (contraction : list DiagVertex) : outcome evaluation :=
  (* a bit array to keep track of which operators are contracted *)
  let bit_map := replicate (length sqops) false in
  (* Find the rank and space of this contraction *)
  let rank := vertices_rank contraction in
  s ← front (spaces_in_vertices contraction);
  (* find the position of the creation operators *)
  '(pos_cre_sqops, offset) ←
    vertex_vec_to_pos contraction (ops_offset ev) op_map true;
  (* find the position of the annihilation operators *)
  '(pos_ann_sqops, offset) ←
    vertex_vec_to_pos contraction offset op_map false;
  let '(bit_map, order, position) :=
    mark pos_ann_sqops
      (mark pos_cre_sqops (bit_map, sign_order ev, sorted_position ev)) in
  dmstruc ← match space_type osi s with
            | Some dmstruc => Returns dmstruc
            | None => Undefined
            end;
  '(sign, reindex_map, all_tensors) ←
    match dmstruc with
    | Occupied =>
        (* Reindex the annihilator (j) to the creator (i) *)
        c ← front pos_cre_sqops; cre_index ← index_at sqops c;
        a ← front pos_ann_sqops; ann_index ← index_at sqops a;
        Returns (unoccupied_sign ev,
                 <[ann_index := cre_index]> (pair_contraction_reindex_map ev),
                 tensors ev)
    | Unoccupied =>
        (* Reindex the creator (j) to the annihilator (i) *)
        c ← front pos_cre_sqops; cre_index ← index_at sqops c;
        a ← front pos_ann_sqops; ann_index ← index_at sqops a;
        Returns ((unoccupied_sign ev * -1)%Z,
                 <[cre_index := ann_index]> (pair_contraction_reindex_map ev),
                 tensors ev)
    | General =>
        (* collect indices of creation operators for the upper indices *)
        upper ← mapM (index_at sqops) pos_cre_sqops;
        (* collect indices of annihilation operators for the lower indices *)
        lower ← mapM (index_at sqops) pos_ann_sqops;
        (* prepare the label *)
        '(label, sign) ←
          cumulant_label rank pos_cre_sqops pos_ann_sqops (unoccupied_sign ev);
        (* add the cumulant to the list of tensors *)
        Returns (sign, pair_contraction_reindex_map ev,
                 tensors ev
                   ++ [{| tensor_label := label;
                          tensor_lower := reverse lower;
                          tensor_upper := upper;
                          tensor_symmetry := Antisymmetric |}])
    end;
  Returns
    {| ops_offset := offset; sign_order := order;
       bit_map_vec := bit_map_vec ev ++ [bit_map];
       sorted_position := position;
       nsqops_contracted := (nsqops_contracted ev + rank)%Z;
       unoccupied_sign := sign;
       pair_contraction_reindex_map := reindex_map;
       tensors := all_tensors |}.

(** Assign an order to the uncontracted operators: creation operators
    come before annihilation operators. *)
Definition order_uncontracted (sqops : list SQOperator)
    (st : list Z * Z) : list Z * Z :=
  foldl (λ st type,
    foldl (λ st s,
      foldl (λ '(sign_order, sorted_position) '(i, sqop),
               if decide (int_at sign_order i = (-1)%Z
                          ∧ (sq_index sqop).1 = s ∧ sq_type sqop = type)
               then (<[i := sorted_position]> sign_order,
                     (sorted_position + 1)%Z)
               else (sign_order, sorted_position))
        st (imap (λ i sqop, (i, sqop)) sqops))
      st (seq 0 (num_spaces osi)))
    st [Creation; Annihilation].

(** The pairs (position, operator) are sorted by the position; the
    positions of a finished [sign_order] are pairwise distinct. *)
Definition by_position (x y : Z * SQOperator) : Prop := (x.1 ≤ y.1)%Z.

Global Instance by_position_dec : RelDecision by_position.
Proof. intros x y. unfold by_position. apply _. Defined.

(** The operators that survive: sorted by their position in
    [sign_order], without the first [nsqops_contracted]. *)
Definition leftover_sqops (sqops : list SQOperator) (sign_order : list Z)
    (nsqops_contracted : Z) : list SQOperator :=
  let sorted_sqops :=
    merge_sort by_position
      (imap (λ i sqop, (int_at sign_order i, sqop)) sqops) in
  snd <$> drop (Z.to_nat nsqops_contracted) sorted_sqops.

(** The loop over the elementary contractions. *)
Definition contract_all (sqops : list SQOperator)
    (op_map : gmap (nat * nat * bool * Z) nat) (nops : nat)
    (tensors : list Tensor) (contractions : list (list DiagVertex))
    : outcome evaluation :=
  foldl (λ ev contraction, ev ← ev; contract sqops op_map ev contraction)
    (Returns
       {| ops_offset := replicate nops Vertex.zero;
          sign_order := replicate (length sqops) (-1)%Z;
          bit_map_vec := [];
          sorted_position := 0; nsqops_contracted := 0;
          unoccupied_sign := 1;
          pair_contraction_reindex_map := ∅;
          tensors := tensors |})
    contractions.

(** [WickTheorem::evaluate_contraction] *)
Definition evaluate_contraction (ops : list DiagOperator)
    (contractions : list (list DiagVertex)) (factor0 : scalar_t)
    : outcome (SymbolicTerm * scalar_t) :=
  (* 1. Get the Tensor objects and SQOperator vector corresponding to the
     uncontracted term *)
  let '(op_tensors, sqops, op_map) := contraction_tensors_sqops ops in
  (* 2. Apply the contractions to the second quantized operators and add
     new tensors (density matrices, cumulants) *)
  ev ← contract_all sqops op_map (length ops) op_tensors contractions;
  let '(sign_order, _) :=
    order_uncontracted sqops (sign_order ev, sorted_position ev) in
  let sign := (unoccupied_sign ev * permutation_sign sign_order)%Z in
  let left_sqops := leftover_sqops sqops sign_order (nsqops_contracted ev) in
  (* find the combinatorial factor associated with this contraction *)
  let comb_factor := combinatorial_factor ops contractions in
  let term :=
    {| term_tensors := tensors ev; term_sqops := left_sqops;
       term_reindex := pair_contraction_reindex_map ev |} in
  let factor := foldl (λ f op, (f * factor op)%Qc) factor0 ops in
  Returns (term, (Qc_of_Z sign * factor * comb_factor)%Qc).

(** *** The loop of [process_contractions] *)

(** [term.canonicalize()], of the symbolic-term rewriter: the rewritten
    term and the factor of the rewriting. *)
Context (term_canonicalize : SymbolicTerm → SymbolicTerm * scalar_t).

(** What [process_contractions] has done when it returns: the arguments of
    its calls of [evaluate_contraction], and the pairs it has passed to
    [result.add], both in order. *)
Record processed := {
  evaluator_calls : list (list DiagOperator * list (list DiagVertex) * scalar_t);
  added_terms : list (SymbolicTerm * scalar_t);
}.

(** The body of the loop of [process_contractions] over the composite
    contractions. *)
Definition process_composite
    (elementary_contractions_ : list (list DiagVertex))
    (factor0 : scalar_t) (ops : list DiagOperator) (minrank maxrank : Z)
    (result : processed) (contraction_vec : list nat) : outcome processed :=
  let ops_rank := operators_rank ops in
  let contr_rank :=
    foldl (λ r c, r + vertices_rank (elementary_contractions_ !!! c))%Z
      0%Z contraction_vec in
  let term_rank := (ops_rank - contr_rank)%Z in
  if decide (term_rank >= minrank ∧ term_rank <= maxrank)%Z then
    (* canonicalize the contraction *)
    ops_contractions ←
      canonicalize_contraction elementary_contractions_ ops contraction_vec;
    let contractions := ops_contractions.2 in
    let arguments := (ops, contractions, factor0) in
    term_factor ← evaluate_contraction ops contractions factor0;
    let '(term, canonicalize_factor) := term_canonicalize term_factor.1 in
    Returns
      {| evaluator_calls := evaluator_calls result ++ [arguments];
         added_terms :=
           added_terms result
             ++ [(term, (term_factor.2 * canonicalize_factor)%Qc)] |}
  else Returns result.

(** [WickTheorem::process_contractions] *)
Definition process_contractions
    (elementary_contractions_ : list (list DiagVertex))
    (contractions_ : list (list nat)) (factor0 : scalar_t)
    (ops : list DiagOperator) (minrank maxrank : Z) : outcome processed :=
  foldl (λ result contraction_vec,
           result ← result;
           process_composite elementary_contractions_ factor0 ops
             minrank maxrank result contraction_vec)
    (Returns {| evaluator_calls := []; added_terms := [] |})
    contractions_.

End wick_theorem.

(** ** Vocabulary of the specification *)

Section vocabulary.
Context (osi : OrbitalSpaceInfo).

(** Elementary contraction [c] has legs on operator [i]. *)
Definition touches (el : list (list DiagVertex)) (c i : nat) : Prop :=
  (Vertex.rank ((el !!! c) !!! i) > 0)%Z.

(** Operator [j] is an original left-connected neighbour of operator [i]:
    it stands to the left of [i] and some elementary contraction of the
    composite has legs on both. *)
Definition left_neighbour (el : list (list DiagVertex))
    (contraction_vec : list nat) (j i : nat) : Prop :=
  j < i ∧ ∃ c, c ∈ contraction_vec ∧ touches el c j ∧ touches el c i.

(** An operator permutation is accepted when the operators placed before
    position [i] contain every original left-connected neighbour of the
    operator placed at [i]. *)
Definition accepted (el : list (list DiagVertex))
    (contraction_vec : list nat) (ops_perm : list nat) : Prop :=
  ∀ i j, i < length ops_perm →
    left_neighbour el contraction_vec j (ops_perm !!! i) →
    ∃ i', i' < i ∧ ops_perm !!! i' = j.

(** The key a contraction is sorted by under an operator permutation:
    its permuted vertices, then its original position. *)
Definition contraction_key (contractions : list (list DiagVertex))
    (ops_perm : list nat) (nops : nat) (c : nat) : list DiagVertex * nat :=
  (permuted_contr (contractions !!! c) ops_perm nops, c).

(** [contr_perm] arranges the contractions in strictly increasing order
    of their keys. *)
Definition sorts_contractions (contractions : list (list DiagVertex))
    (ops_perm : list nat) (nops : nat) (contr_perm : list nat) : Prop :=
  contr_perm ≡ₚ iota (length contractions)
  ∧ StronglySorted lexico
      (contraction_key contractions ops_perm nops <$> contr_perm).

(** The uncontracted rank of a composite lies in [[minrank, maxrank]]. *)
Definition in_band (el : list (list DiagVertex)) (ops : list DiagOperator)
    (minrank maxrank : Z) (contraction_vec : list nat) : Prop :=
  let contr_rank :=
    foldl (λ r c, r + vertices_rank (el !!! c))%Z 0%Z contraction_vec in
  (operators_rank ops - contr_rank >= minrank
   ∧ operators_rank ops - contr_rank <= maxrank)%Z.

(** A call made for a composite: the original operators, the reordered
    contractions of the canonicalizer, the factor. *)
Definition call_for (el : list (list DiagVertex)) (ops : list DiagOperator)
    (factor0 : scalar_t)
    (call : list DiagOperator * list (list DiagVertex) * scalar_t)
    (contraction_vec : list nat) : Prop :=
  ∃ r, canonicalize_contraction osi el ops contraction_vec = Returns r
       ∧ call = (ops, r.2, factor0).

(** The call the specification describes for a composite: the operators
    and the contractions as the canonicalizer returns them, the factor. *)
Definition canonical_call_for (el : list (list DiagVertex))
    (ops : list DiagOperator) (factor0 : scalar_t)
    (call : list DiagOperator * list (list DiagVertex) * scalar_t)
    (contraction_vec : list nat) : Prop :=
  ∃ r, canonicalize_contraction osi el ops contraction_vec = Returns r
       ∧ call = (r.1, r.2, factor0).

(** All counts of a vertex are non-negative. *)
Definition nonneg (v : DiagVertex) : Prop :=
  ∀ s, s < max_spaces_ → (0 ≤ Vertex.cre v s)%Z ∧ (0 ≤ Vertex.ann v s)%Z.

(** Operators as the data model has them: an array of [max_spaces_]
    pairs of non-negative counts. *)
Definition well_formed_vertex (v : DiagVertex) : Prop :=
  length v = max_spaces_ ∧ nonneg v.

(** Elementary contractions over [nops] operators: non-negative leg
    counts, legs in registered spaces only, and at least one leg. *)
Definition elementary (nops : nat) (contraction : list DiagVertex) : Prop :=
  (∀ A, A < nops →
     nonneg (contraction !!! A)
     ∧ ∀ s, num_spaces osi ≤ s → Vertex.vertex (contraction !!! A) s = (0, 0)%Z)
  ∧ ∃ A, A < nops ∧ (Vertex.rank (contraction !!! A) >= 1)%Z.

(** The free vertices left by the contractions of a stack. *)
Definition free_after (el : list (list DiagVertex))
    (op_vertices : list DiagVertex) (a : list nat) : list DiagVertex :=
  foldl (λ free_vertex_vec c, make_move c el free_vertex_vec) op_vertices a.

(** The legs of operator [A] in space [s] used by the contractions of a
    stack. *)
Definition contracted_cre (el : list (list DiagVertex)) (a : list nat)
    (A s : nat) : Z :=
  foldr (λ c acc, Vertex.cre ((el !!! c) !!! A) s + acc)%Z 0%Z a.
Definition contracted_ann (el : list (list DiagVertex)) (a : list nat)
    (A s : nat) : Z :=
  foldr (λ c acc, Vertex.ann ((el !!! c) !!! A) s + acc)%Z 0%Z a.

(** No count of the free vertices is negative in a registered space. *)
Definition fits (free_vertex_vec : list DiagVertex) : Prop :=
  ∀ A s, A < length free_vertex_vec → s < num_spaces osi →
    (0 ≤ Vertex.cre (free_vertex_vec !!! A) s)%Z
    ∧ (0 ≤ Vertex.ann (free_vertex_vec !!! A) s)%Z.

(** The nodes of the backtracking recursion: the stack [a[0..k)] and the
    free vertices of a call of [generate_contractions_backtrack]. *)
Inductive node (el : list (list DiagVertex)) (op_vertices : list DiagVertex)
    : list nat → list DiagVertex → Prop :=
  | node_root : node el op_vertices [] op_vertices
  | node_descend a free_vertex_vec c :
      node el op_vertices a free_vertex_vec →
      c ∈ construct_candidates osi a el free_vertex_vec →
      node el op_vertices (a ++ [c]) (make_move c el free_vertex_vec).

(** [Σ_A legs[A]] *)
Definition int_sum (legs : list Z) : Z := foldr Z.add 0%Z legs.

(** The compositions of [k] of length [nops]: one non-negative number of
    legs per operator, [k] legs in all. *)
Definition composition (k : Z) (nops : nat) (legs : list Z) : Prop :=
  length legs = nops ∧ Forall (λ x, (0 ≤ x)%Z) legs ∧ int_sum legs = k.

(** A partition of [n] into at most [maxlen] parts: positive parts in
    non-increasing order. *)
Definition partition_of (n : Z) (maxlen : nat) (part : list Z) : Prop :=
  Sorted Z.ge part ∧ Forall (λ x, (1 ≤ x)%Z) part
  ∧ int_sum part = n ∧ length part ≤ maxlen.

(** The vertex of one operator in a contraction of a general space. *)
Definition general_vertex (s : nat) (ncre nann : Z) : DiagVertex :=
  Vertex.set_ann s nann (Vertex.set_cre s ncre Vertex.zero).


(** Leg conservation: for every operator and every space, the free legs
    plus the legs used by the contractions of the stack are the legs of
    the operator. *)
Definition conserved (el : list (list DiagVertex)) (ops : list DiagOperator)
    (a : list nat) (free_vertex_vec : list DiagVertex) : Prop :=
  length free_vertex_vec = length ops
  ∧ ∀ A s, A < length ops → s < max_spaces_ →
      (Vertex.cre (free_vertex_vec !!! A) s + contracted_cre el a A s
       = op_cre (ops !!! A) s)%Z
      ∧ (Vertex.ann (free_vertex_vec !!! A) s + contracted_ann el a A s
         = op_ann (ops !!! A) s)%Z.

(** The rank of the free vertices lies in [[minrank, maxrank]]. *)
Definition band (minrank maxrank : Z) (free_vertex_vec : list DiagVertex)
    : Prop :=
  (free_rank free_vertex_vec >= minrank
   ∧ free_rank free_vertex_vec <= maxrank)%Z.

(** The legs an elementary contraction has on the first [nops]
    operators. *)
Definition legs_on (contraction : list DiagVertex) (nops : nat) : Z :=
  foldr (λ A acc, Vertex.rank (contraction !!! A) + acc)%Z 0%Z (seq 0 nops).

(** The free vertices the search keeps: one well-formed vertex per
    operator. *)
Definition good (nops : nat) (free_vertex_vec : list DiagVertex) : Prop :=
  length free_vertex_vec = nops ∧ Forall well_formed_vertex free_vertex_vec.

(** The stack [a ++ ext] is reached from the node of stack [a] by
    descending through candidates. *)
Fixpoint descends (el : list (list DiagVertex)) (a : list nat)
    (free_vertex_vec : list DiagVertex) (ext : list nat) : Prop :=
  match ext with
  | [] => True
  | c :: ext' =>
      c ∈ construct_candidates osi a el free_vertex_vec
      ∧ descends el (a ++ [c]) (make_move c el free_vertex_vec) ext'
  end.

(** The composites recorded at a node and below it, without the state of
    the search: what is recorded at the node, then what is recorded below
    each candidate; [None] when the recursion is deeper than [fuel]. *)
Fixpoint composites (fuel : nat) (el : list (list DiagVertex))
    (minrank maxrank : Z) (a : list nat) (free_vertex_vec : list DiagVertex)
    : option (list (list nat)) :=
  match fuel with
  | 0 => None
  | S fuel' =>
      below ← mapM (λ c, composites fuel' el minrank maxrank (a ++ [c])
                           (make_move c el free_vertex_vec))
                (construct_candidates osi a el free_vertex_vec);
      Some (process_contraction a free_vertex_vec minrank maxrank []
            ++ mjoin below)
  end.

(** [Π xs] *)
Definition Qc_prod (xs : list scalar_t) : scalar_t := foldr Qcmult 1%Qc xs.

(** The free legs of operator [A] in space [s] before the contraction of
    position [i] is applied: the legs of the operator less the legs the
    earlier contractions have on it. *)
Definition free_cre_before (ops : list DiagOperator)
    (contractions : list (list DiagVertex)) (i A s : nat) : Z :=
  (op_cre (ops !!! A) s
   - int_sum ((λ c : list DiagVertex, Vertex.cre (c !!! A) s)
                <$> take i contractions))%Z.
Definition free_ann_before (ops : list DiagOperator)
    (contractions : list (list DiagVertex)) (i A s : nat) : Z :=
  (op_ann (ops !!! A) s
   - int_sum ((λ c : list DiagVertex, Vertex.ann (c !!! A) s)
                <$> take i contractions))%Z.

(** The ways to pick the legs of the contraction of position [i] on
    operator [A] in space [s] among the free ones. *)
Definition leg_choices (ops : list DiagOperator)
    (contractions : list (list DiagVertex)) (i A s : nat) : scalar_t :=
  (Qc_of_Z (binomial (free_cre_before ops contractions i A s)
              (Vertex.cre ((contractions !!! i) !!! A) s))
   * Qc_of_Z (binomial (free_ann_before ops contractions i A s)
                (Vertex.ann ((contractions !!! i) !!! A) s)))%Qc.

(** The product of the binomial coefficients over the contractions in
    order, the operator positions and the spaces. *)
Definition binomial_product (ops : list DiagOperator)
    (contractions : list (list DiagVertex)) : scalar_t :=
  Qc_prod (i ← seq 0 (length contractions);
           A ← seq 0 (length ops);
           s ← seq 0 (num_spaces osi);
           [leg_choices ops contractions i A s]).

(** How many times an elementary contraction occurs in a composite. *)
Definition multiplicity (contraction : list DiagVertex)
    (contractions : list (list DiagVertex)) : nat :=
  length (filter (λ c, c = contraction) contractions).

(** The product of the multiplicities of the distinct elementary
    contractions of a composite. *)
Definition multiplicity_product (contractions : list (list DiagVertex))
    : scalar_t :=
  Qc_prod ((λ c, Qc_of_Z (Z.of_nat (multiplicity c contractions)))
             <$> remove_dups contractions).

(** The binomial coefficients of one operator position and space, from
    the free vertex [w] and the vertex [v] of the contraction. *)
Definition choices (w v : DiagVertex) (s : nat) : scalar_t :=
  (Qc_of_Z (binomial (Vertex.cre w s) (Vertex.cre v s))
   * Qc_of_Z (binomial (Vertex.ann w s) (Vertex.ann v s)))%Qc.








(** Every entry of [op_map] is the position of an operator of its
    type. *)
Definition typed (sqops : list SQOperator)
    (op_map : gmap (nat * nat * bool * Z) nat) : Prop :=
  ∀ v s (creation : bool) slot pos,
    op_map !! (v, s, creation, slot) = Some pos →
    ∃ sqop, sqops !! pos = Some sqop
            ∧ sq_type sqop = if creation then Creation else Annihilation.

(** The invariant of the layout of the operators: [lay_n] counts the
    operators laid out, and every entry of the map is typed. *)
Definition laid_out (lay : layout) : Prop :=
  lay_n lay = length (lay_sqops lay) ∧ typed (lay_sqops lay) (lay_op_map lay).


(** A step of a loop is strict when it returns only from a state that
    has returned. *)
Definition strict {A B} (G : outcome A → B → outcome A) : Prop :=
  ∀ m x st', G m x = Returns st' → ∃ st, m = Returns st.

(** The tensors, the operator string and the map of positions that
    [contraction_tensors_sqops] lays out for the operators. *)
Definition operator_tensors (ops : list DiagOperator) : list Tensor :=
  (contraction_tensors_sqops osi ops).1.1.
Definition operator_sqops (ops : list DiagOperator) : list SQOperator :=
  (contraction_tensors_sqops osi ops).1.2.
Definition operator_map (ops : list DiagOperator)
    : gmap (nat * nat * bool * Z) nat :=
  (contraction_tensors_sqops osi ops).2.


(** Checks of [nonneg], [well_formed_vertex] and [elementary]. *)
Definition nonnegb (v : DiagVertex) : bool :=
  forallb (λ s, (0 <=? Vertex.cre v s)%Z && (0 <=? Vertex.ann v s)%Z)
    (seq 0 max_spaces_).

Definition well_formed_vertexb (v : DiagVertex) : bool :=
  (length v =? max_spaces_) && nonnegb v.

Definition elementaryb (nops : nat) (contraction : list DiagVertex) : bool :=
  forallb (λ A,
             let v := contraction !!! A in
             nonnegb v
             && forallb (λ s, bool_decide (Vertex.vertex v s = (0, 0)%Z))
                  (seq (num_spaces osi) (length v - num_spaces osi)))
    (seq 0 nops)
  && existsb (λ A, (1 <=? Vertex.rank (contraction !!! A))%Z) (seq 0 nops).

Global Instance in_band_dec el ops minrank maxrank contraction_vec :
  Decision (in_band el ops minrank maxrank contraction_vec).
Proof. unfold in_band. apply _. Defined.

End vocabulary.

(** ** Operators of the test suite (tests/ccsd/ccsd.cc) *)

Module Examples.

(** Spaces [o] (occupied) and [v] (unoccupied), and a general space. *)
Definition osi_ov : OrbitalSpaceInfo :=
  {| space_types := [Occupied; Unoccupied] |}.

(** [DiagVertex(cre, ann)] *)
Definition make_vertex (cre ann : list Z) : DiagVertex :=
  (λ s, (int_at cre s, int_at ann s)) <$> seq 0 max_spaces_.

(** [make_operator("t", {"o->v"})]: annihilates [o], creates [v]. *)
Definition T1 : DiagOperator :=
  {| label := "t"; factor := 1%Qc; vertex := make_vertex [0; 1]%Z [1; 0]%Z |}.
(** The same excitation under another label. *)
Definition S1 : DiagOperator :=
  {| label := "s"; factor := 1%Qc; vertex := make_vertex [0; 1]%Z [1; 0]%Z |}.
(** [make_operator("f", {"v->o"})] *)
Definition Fov : DiagOperator :=
  {| label := "f"; factor := 1%Qc; vertex := make_vertex [1; 0]%Z [0; 1]%Z |}.
(** [make_operator("t", {"oo->vv"})] *)
Definition T2 : DiagOperator :=
  {| label := "t"; factor := Q2Qc (1 # 4);
     vertex := make_vertex [0; 2]%Z [2; 0]%Z |}.
(** [make_operator("v", {"vv->oo"})] *)
Definition Voovv : DiagOperator :=
  {| label := "v"; factor := Q2Qc (1 # 4);
     vertex := make_vertex [2; 0]%Z [0; 2]%Z |}.

End Examples.

(** ** The loops over operator sums (wdiag_operator_sum.cc) *)

Module WDiagSum.
Import WDiag.

Section iteration.
(** A [std::map] is visited in the increasing order of its keys;
    [operator<] of [WDiagOperator] is not in the sources, so the order of
    the keys is a parameter. *)
Context (key_le : relation (list WDiagOperator)) `{!RelDecision key_le}.

Definition entry_le (x y : list WDiagOperator * scalar_t) : Prop :=
  key_le x.1 y.1.

Global Instance entry_le_dec : RelDecision entry_le.
Proof. intros x y. unfold entry_le. apply _. Defined.

(** The entries of a sum, in the order in which a loop over [sum()] visits
    them. *)
Definition entries (sum_ : dop_sum_t)
    : list (list WDiagOperator * scalar_t) :=
  merge_sort entry_le (map_to_list sum_).

(** [WDiagOperatorSum::operator+=], for a right-hand side that is another
    object than [*this]. *)
Definition add_assign (sum_ rhs : dop_sum_t) : dop_sum_t :=
  foldl (λ sum_ vec_dop_factor,
           add vec_dop_factor.1 vec_dop_factor.2 sum_)
    sum_ (entries rhs).

(** [WDiagOperatorSum::operator-=], for a right-hand side that is another
    object than [*this]. *)
Definition sub_assign (sum_ rhs : dop_sum_t) : dop_sum_t :=
  foldl (λ sum_ vec_dop_factor,
           add vec_dop_factor.1 (- vec_dop_factor.2)%Qc sum_)
    sum_ (entries rhs).

(** [commutator(A, B)] *)
Definition commutator (A B : dop_sum_t) : dop_sum_t :=
  foldl (λ result vec_factor_A,
           foldl (λ result vec_factor_B,
                    let vec_A := vec_factor_A.1 in
                    let vec_B := vec_factor_B.1 in
                    let vec_AB := vec_A ++ vec_B in
                    let vec_BA := vec_B ++ vec_A in
                    let factor_A := vec_factor_A.2 in
                    let factor_B := vec_factor_B.2 in
                    add vec_BA (- factor_A * factor_B)%Qc
                      (add vec_AB (factor_A * factor_B)%Qc result))
             result (entries B))
    ∅ (entries A).

(** The calls of [add] that [commutator(A, B)] makes, in order. *)
Definition commutator_adds (A B : dop_sum_t)
    : list (list WDiagOperator * scalar_t) :=
  vec_factor_A ← entries A;
  vec_factor_B ← entries B;
  [(vec_factor_A.1 ++ vec_factor_B.1, (vec_factor_A.2 * vec_factor_B.2)%Qc);
   (vec_factor_B.1 ++ vec_factor_A.1, (- vec_factor_A.2 * vec_factor_B.2)%Qc)].

End iteration.

(** [WDiagOperatorSum::operator*=]: every stored coefficient is
    multiplied, no entry is erased. *)
Definition mul_assign (sum_ : dop_sum_t) (factor : scalar_t) : dop_sum_t :=
  (λ coefficient, coefficient * factor)%Qc <$> sum_.

(** No stored coefficient is zero. *)
Definition clean (sum_ : dop_sum_t) : Prop :=
  ∀ vec_dop, sum_ !! vec_dop ≠ Some 0%Qc.

Global Instance clean_dec (sum_ : dop_sum_t) : Decision (clean sum_).
Proof.
  destruct (decide (map_Forall (λ _ c, c ≠ 0%Qc) sum_)) as [Hyes|Hno];
    [left|right].
  - intros k Hk. by apply (Hyes k 0%Qc).
  - intros Hclean. apply Hno. intros k c Hk ->. by apply (Hclean k).
Defined.

(** The coefficient of an operator string in a sum, zero when it has no
    entry. *)
Definition coefficient (sum_ : dop_sum_t) (vec_dop : list WDiagOperator)
    : scalar_t :=
  default 0%Qc (sum_ !! vec_dop).

(** [Σ xs] *)
Definition Qc_sum (xs : list scalar_t) : scalar_t := foldr Qcplus 0%Qc xs.

(** What the pair of terms [(vec_A, factor_A)], [(vec_B, factor_B)] adds to
    the coefficient of [vec_dop] in the commutator. *)
Definition commutator_term (vec_dop : list WDiagOperator)
    (a b : list WDiagOperator * scalar_t) : scalar_t :=
  ((if decide (a.1 ++ b.1 = vec_dop) then a.2 * b.2 else 0)
   + (if decide (b.1 ++ a.1 = vec_dop) then - a.2 * b.2 else 0))%Qc.

End WDiagSum.

(** ** Vocabulary of the further properties of the engine *)

Section engine_vocabulary.
Context (osi : OrbitalSpaceInfo).

(** A contraction of [k] creation and [k] annihilation legs of space [s]
    over [nops] operators: one array per operator, no negative count, and
    legs in space [s] only. *)
Definition balanced_in (s : nat) (k : Z) (nops : nat)
    (contraction : list DiagVertex) : Prop :=
  length contraction = nops
  ∧ Forall (λ v, length v = max_spaces_) contraction
  ∧ (∀ A s', A < nops →
       (0 ≤ Vertex.cre (contraction !!! A) s')%Z
       ∧ (0 ≤ Vertex.ann (contraction !!! A) s')%Z
       ∧ (s' ≠ s → Vertex.vertex (contraction !!! A) s' = (0, 0)%Z))
  ∧ int_sum ((λ v, Vertex.cre v s) <$> contraction) = k
  ∧ int_sum ((λ v, Vertex.ann v s) <$> contraction) = k.

(** The map of positions of a layout has an entry for the key. *)
Definition mapped {B} (st : layout * B) (key : nat * nat * bool * Z) : Prop :=
  is_Some (lay_op_map st.1 !! key).

(** The positions of the legs of operator [v] that a contraction takes in
    space [s]: the slots from the offset of the operator on, when the map
    of positions has them all. *)
Definition leg_positions (op_map : gmap (nat * nat * bool * Z) nat)
    (s : nat) (creation : bool) (vertex_vec ops_offset : list DiagVertex)
    (v : nat) : option (list nat) :=
  let nops := if creation then Vertex.cre (vertex_vec !!! v) s
              else Vertex.ann (vertex_vec !!! v) s in
  let ops_off := if creation then Vertex.cre (ops_offset !!! v) s
                 else Vertex.ann (ops_offset !!! v) s in
  mapM (λ i, op_map !! (v, s, creation, ops_off + i)%Z) (seqZ 0 nops).

(** The offset of operator [v] after its legs have been taken. *)
Definition advance (s : nat) (creation : bool) (vertex_vec : list DiagVertex)
    (v : nat) (offset : DiagVertex) : DiagVertex :=
  if creation
  then Vertex.set_cre s
         (Vertex.cre offset s + Vertex.cre (vertex_vec !!! v) s)%Z offset
  else Vertex.set_ann s
         (Vertex.ann offset s + Vertex.ann (vertex_vec !!! v) s)%Z offset.

(** The legs of operator [A] in space [s] that the contractions of a list
    take. *)
Definition taken_cre (contractions : list (list DiagVertex)) (A s : nat) : Z :=
  int_sum ((λ c : list DiagVertex, Vertex.cre (c !!! A) s) <$> contractions).
Definition taken_ann (contractions : list (list DiagVertex)) (A s : nat) : Z :=
  int_sum ((λ c : list DiagVertex, Vertex.ann (c !!! A) s) <$> contractions).

(** The contractions take no more legs than the operators have. *)
Definition fit_operators (ops : list DiagOperator)
    (contractions : list (list DiagVertex)) : Prop :=
  ∀ A s, A < length ops → s < num_spaces osi →
    (taken_cre contractions A s ≤ op_cre (ops !!! A) s)%Z
    ∧ (taken_ann contractions A s ≤ op_ann (ops !!! A) s)%Z.

(** A contraction of the shape that [generate_elementary_contractions]
    emits. *)
Definition balanced (nops : nat) (contraction : list DiagVertex) : Prop :=
  ∃ s k, s < num_spaces osi ∧ (1 ≤ k)%Z ∧ balanced_in s k nops contraction.


(** The creation legs, the annihilation legs and all legs of an operator
    in the registered spaces. *)
Definition registered_cre (op : DiagOperator) : nat :=
  sum_list ((λ s, Z.to_nat (op_cre op s)) <$> seq 0 (num_spaces osi)).
Definition registered_ann (op : DiagOperator) : nat :=
  sum_list ((λ s, Z.to_nat (op_ann op s)) <$> seq 0 (num_spaces osi)).
Definition registered_legs (op : DiagOperator) : nat :=
  registered_cre op + registered_ann op.

(** The tensor laid out for an operator carries its label and one index
    per leg. *)
Definition tensor_of (op : DiagOperator) (tensor : Tensor) : Prop :=
  tensor_label tensor = label op
  ∧ length (tensor_lower tensor) = registered_cre op
  ∧ length (tensor_upper tensor) = registered_ann op.


(** The term added for a call of the evaluator: the canonicalized term of
    the evaluation, with the factor of the canonicalization multiplied into
    the coefficient. *)
Definition added_for
    (term_canonicalize : SymbolicTerm → SymbolicTerm * scalar_t)
    (call : list DiagOperator * list (list DiagVertex) * scalar_t)
    (added : SymbolicTerm * scalar_t) : Prop :=
  ∃ term_factor,
    evaluate_contraction osi call.1.1 call.1.2 call.2 = Returns term_factor
    ∧ added = ((term_canonicalize term_factor.1).1,
               (term_factor.2 * (term_canonicalize term_factor.1).2)%Qc).

End engine_vocabulary.

(** * Theorems *)

(** ** The operator sum *)

Module WDiagFacts.
Import WDiag.

Lemma add_lookup_other (vec_dop : list WDiagOperator) (factor : scalar_t)
    (sum_ : dop_sum_t) (other : list WDiagOperator) :
  other ≠ vec_dop → add vec_dop factor sum_ !! other = sum_ !! other.
Proof.
  intros Hne. unfold add.
  destruct (sum_ !! vec_dop) as [c|]; [case_decide|];
    by rewrite ?lookup_delete_ne, ?lookup_insert_ne.
Qed.

(** C10. [WDiagOperatorSum::add(vec_dop, factor)]: an entry that is present
    gets [factor] added to its coefficient and is erased exactly when the
    updated coefficient is zero; an entry that is absent is inserted with
    coefficient [factor] whatever its value, so that adding a new operator
    string with a zero factor stores a zero coefficient; every other entry
    is left as it was. *)
Theorem add_spec (vec_dop : list WDiagOperator) (factor : scalar_t)
    (sum_ : dop_sum_t) (other : list WDiagOperator) :
  add vec_dop factor sum_ !! other =
    if decide (other = vec_dop) then
      match sum_ !! vec_dop with
      | Some coefficient =>
          if decide ((coefficient + factor)%Qc = 0%Qc) then None
          else Some (coefficient + factor)%Qc
      | None => Some factor
      end
    else sum_ !! other.
Proof.
  case_decide as Hk; [subst other|by apply add_lookup_other].
  unfold add. destruct (sum_ !! vec_dop) as [c|]; [case_decide|].
  - by rewrite lookup_delete_eq.
  - by rewrite lookup_insert_eq.
  - by rewrite lookup_insert_eq.
Qed.

Example add_new_zero_is_stored :
  add [("t"%string, [(1, 0)%Z])] 0%Qc ∅ !! [("t"%string, [(1, 0)%Z])]
  = Some 0%Qc.
Proof. unfold add. by rewrite lookup_empty, lookup_insert_eq. Qed.

End WDiagFacts.

(** ** The permutation loop *)

Section next_permutation_facts.
Context {A : Type} `{EqDecision A}.
Implicit Types (l earlier : list A) (x : A).

Lemma selections_spec earlier l x rest :
  (x, rest) ∈ selections earlier l ↔
  ∃ l1 l2, l = l1 ++ x :: l2 ∧ (x ∉ earlier) ∧ (x ∉ l1)
           ∧ rest = earlier ++ l1 ++ l2.
Proof.
  revert earlier. induction l as [|y l IH]; intros earlier; simpl.
  - split; [by intros ?%elem_of_nil|].
    by intros ([|??] & ? & ? & _).
  - rewrite elem_of_app, IH. split.
    + intros [Hhd|(l1 & l2 & -> & Hx & Hl1 & ->)].
      * destruct (decide (y ∈ earlier)); [by apply elem_of_nil in Hhd|].
        apply list_elem_of_singleton in Hhd as [= -> ->].
        exists [], l. split_and!; [done|done|apply not_elem_of_nil|done].
      * exists (y :: l1), l2.
        split_and!; [done|set_solver|set_solver|by rewrite <-(assoc_L (++))].
    + intros ([|z l1] & l2 & Heq & Hx & Hl1 & ->); simplify_eq/=.
      * left. rewrite decide_False by done. by left.
      * right. exists l1, l2.
        split_and!; [done|set_solver|set_solver|by rewrite <-(assoc_L (++))].
Qed.




Lemma rearrangements_spec n l p :
  length l = n → p ∈ rearrangements n l ↔ p ≡ₚ l.
Proof.
  revert l p. induction n as [|n IH]; intros l p Hlen; simpl.
  - apply nil_length_inv in Hlen as ->.
    rewrite list_elem_of_singleton. by rewrite Permutation_nil_r.
  - rewrite list_elem_of_bind. split.
    + intros ([x rest] & Hp & (l1 & l2 & -> & _ & _ & ->)%selections_spec).
      apply list_elem_of_fmap in Hp as (p' & -> & Hp'). simpl.
      apply IH in Hp'; [|simpl in *; rewrite !length_app in *; simpl in *; lia].
      rewrite Hp'. simpl. apply Permutation_middle.
    + intros Hp. destruct p as [|x p'].
      { apply Permutation_length in Hp. simpl in *; lia. }
      assert (x ∈ l) as Hx by (rewrite <-Hp; by left).
      apply list_elem_of_split_l in Hx as (l1 & l2 & -> & Hl1).
      exists (x, l1 ++ l2). split.
      * apply list_elem_of_fmap. exists p'. split; [done|].
        apply IH; [simpl in *; rewrite !length_app in *; simpl in *; lia|].
        by apply Permutation_cons_app_inv in Hp.
      * apply selections_spec. exists l1, l2. set_solver.
Qed.


(** The body of the loop sees exactly the permutations of the range, each
    once. *)
Lemma next_permutation_loop_spec l p :
  p ∈ next_permutation_loop l ↔ p ≡ₚ l.
Proof. by apply rearrangements_spec. Qed.

End next_permutation_facts.

(** ** Sorting *)

Section std_sort_facts.
Context `{Lexico A, !StrictOrder (@lexico A _), !TrichotomyT (@lexico A _)}.
Implicit Types (x y : A) (l : list A).

Global Instance not_after_total : Total (@not_after A _).
Proof.
  intros x y. unfold not_after.
  destruct (trichotomyT lexico x y) as [[Hlt| ->]|Hgt].
  - left. intros Hyx. by apply (irreflexivity lexico x); trans y.
  - left. apply (irreflexivity lexico).
  - right. intros Hxy. by apply (irreflexivity lexico x); trans y.
Qed.

Global Instance not_after_trans : Transitive (@not_after A _).
Proof.
  intros x y z Hxy Hyz Hzx. unfold not_after in *.
  destruct (trichotomyT lexico x y) as [[Hlt| ->]|Hgt]; [|done..].
  apply Hyz. by trans x.
Qed.

Lemma not_after_ne_lexico x y : not_after x y → x ≠ y → lexico x y.
Proof.
  unfold not_after. intros Hxy Hne.
  by destruct (trichotomyT lexico x y) as [[Hlt| ->]|Hgt].
Qed.

Global Instance lexico_antisymm : AntiSymm (=) (@lexico A _).
Proof.
  intros x y Hxy Hyx. destruct (irreflexivity lexico x). by trans y.
Qed.

Lemma std_sort_Permutation l : std_sort l ≡ₚ l.
Proof. apply merge_sort_Permutation. Qed.

Lemma std_sort_elem_of l x : x ∈ std_sort l ↔ x ∈ l.
Proof. by rewrite std_sort_Permutation. Qed.

Lemma std_sort_StronglySorted l : StronglySorted not_after (std_sort l).
Proof. apply StronglySorted_merge_sort; apply _. Qed.

(** The first element of a sorted vector is a least element. *)
Lemma std_sort_head_least l x rest y :
  std_sort l = x :: rest → y ∈ l → ¬ lexico y x.
Proof.
  intros Hsort Hy. pose proof (std_sort_StronglySorted l) as Hs.
  apply std_sort_elem_of in Hy. rewrite Hsort in Hs, Hy.
  apply StronglySorted_inv in Hs as [_ Hall].
  apply elem_of_cons in Hy as [->|Hy]; [apply (irreflexivity lexico)|].
  rewrite Forall_forall in Hall. by apply Hall.
Qed.

Lemma std_sort_nil_inv l : std_sort l = [] → l = [].
Proof.
  intros Hs. apply Permutation_nil_r. by rewrite <-std_sort_Permutation, Hs.
Qed.

Lemma StronglySorted_not_after_lexico l :
  NoDup l → StronglySorted not_after l → StronglySorted lexico l.
Proof.
  induction 2 as [|x l Hs IH Hall]; [constructor|].
  apply NoDup_cons in H0 as [Hx Hnd].
  constructor; [by apply IH|].
  rewrite Forall_forall in *. intros y Hy.
  apply not_after_ne_lexico; [by apply Hall|]. by intros ->.
Qed.

(** Pairwise distinct elements are left strictly increasing. *)
Lemma std_sort_strictly_sorted l :
  NoDup l → StronglySorted lexico (std_sort l).
Proof.
  intros Hnd. apply StronglySorted_not_after_lexico.
  - by rewrite std_sort_Permutation.
  - apply std_sort_StronglySorted.
Qed.

(** A strictly increasing arrangement is unique. *)
Lemma strictly_sorted_unique l1 l2 :
  StronglySorted lexico l1 → StronglySorted lexico l2 → l1 ≡ₚ l2 → l1 = l2.
Proof. apply StronglySorted_unique. apply _. Qed.
End std_sort_facts.

(** ** Bitsets *)

Lemma land_eq_subset (mask sub : Z) :
  Z.land mask sub = sub ↔
  ∀ b, (0 ≤ b)%Z → Z.testbit sub b = true → Z.testbit mask b = true.
Proof.
  split.
  - intros Heq b Hb Hsub. rewrite <-Heq, Z.land_spec in Hsub.
    by apply andb_prop in Hsub as [??].
  - intros Hsub. apply Z.bits_inj'. intros b Hb. rewrite Z.land_spec.
    destruct (Z.testbit sub b) eqn:Hs; [|by rewrite andb_false_r].
    by rewrite (Hsub b Hb Hs).
Qed.

Lemma testbit_setbit_nat (mask : Z) (j : nat) (b : Z) :
  Z.testbit (Z.setbit mask (Z.of_nat j)) b = true ↔
  b = Z.of_nat j ∨ Z.testbit mask b = true.
Proof.
  rewrite Z.setbit_eqb by lia. rewrite orb_true_iff, Z.eqb_eq. naive_solver.
Qed.

Lemma testbit_foldl_setbit {B} (f : B → nat) (P : B → Prop)
    `{!∀ x, Decision (P x)} (l : list B) (mask : Z) (b : Z) :
  Z.testbit
    (foldl (λ mask j, if decide (P j) then Z.setbit mask (Z.of_nat (f j))
                      else mask) mask l) b = true ↔
  Z.testbit mask b = true ∨ ∃ j, j ∈ l ∧ P j ∧ b = Z.of_nat (f j).
Proof.
  revert mask. induction l as [|x l IH]; intros mask; simpl.
  - split; [by left|]. intros [?|(j & ?%elem_of_nil & _)]; done.
  - rewrite IH. case_decide as HP.
    + rewrite testbit_setbit_nat. split.
      * intros [[->|?]|(j & ? & ? & ->)]; [right|by left|right].
        -- exists x. split_and!; [by left|done..].
        -- exists j. split_and!; [by right|done..].
      * intros [?|(j & [->|?]%elem_of_cons & ? & ->)];
          [by left; right|by left; left|right; by exists j].
    + split.
      * intros [?|(j & ? & ? & ->)]; [by left|right].
        exists j. split_and!; [by right|done..].
      * intros [?|(j & [->|?]%elem_of_cons & ? & ->)];
          [by left|done|right; by exists j].
Qed.

(** ** The connectivity matrix and the left masks *)

Section canonicalizer_facts.
Context (osi : OrbitalSpaceInfo).
Implicit Types (conn_mat : gmap (nat * nat) Z) (ops_perm : list nat).

Lemma elem_of_connections (contraction : list DiagVertex) nops i :
  i ∈ connections contraction nops ↔
  i < nops ∧ (Vertex.rank (contraction !!! i) > 0)%Z.
Proof.
  unfold connections. rewrite list_elem_of_filter, elem_of_seq. naive_solver lia.
Qed.

Lemma connections_NoDup (contraction : list DiagVertex) nops :
  NoDup (connections contraction nops).
Proof. apply NoDup_filter, NoDup_seq. Qed.

(** Entries are only ever overwritten with 1. *)
Lemma conn_at_insert conn_mat i j x y :
  conn_at (<[(i, j) := 1%Z]> conn_mat) x y ≠ 0%Z ↔
  (x, y) = (i, j) ∨ conn_at conn_mat x y ≠ 0%Z.
Proof.
  unfold conn_at. destruct (decide ((i, j) = (x, y))) as [<-|Hne].
  - rewrite lookup_insert_eq. simpl. naive_solver.
  - rewrite lookup_insert_ne by done. naive_solver.
Qed.

Lemma connect_inner (conns : list nat) conn_mat (i : nat) (js : list nat) x y :
  conn_at
    (foldl (λ m j, <[(conns !!! j, conns !!! i) := 1%Z]>
                     (<[(conns !!! i, conns !!! j) := 1%Z]> m))
       conn_mat js) x y ≠ 0%Z ↔
  conn_at conn_mat x y ≠ 0%Z
  ∨ ∃ j, j ∈ js ∧ ((x, y) = (conns !!! i, conns !!! j)
                   ∨ (x, y) = (conns !!! j, conns !!! i)).
Proof.
  revert conn_mat. induction js as [|j js IH]; intros conn_mat; simpl.
  - split; [by left|]. intros [?|(j & ?%elem_of_nil & _)]; done.
  - rewrite IH, !conn_at_insert. split.
    + intros [[?|[?|?]]|(j' & ? & ?)].
      * right. exists j. split; [by left|by right].
      * right. exists j. split; [by left|by left].
      * by left.
      * right. exists j'. split; [by right|done].
    + intros [?|(j' & [->|?]%elem_of_cons & [?|?])].
      * left. by right; right.
      * left. right; by left.
      * left. by left.
      * right. by exists j'; split; [|left].
      * right. by exists j'; split; [|right].
Qed.

Lemma connect_spec (conns : list nat) conn_mat x y :
  NoDup conns →
  conn_at (connect conns conn_mat) x y ≠ 0%Z ↔
  conn_at conn_mat x y ≠ 0%Z ∨ (x ≠ y ∧ x ∈ conns ∧ y ∈ conns).
Proof.
  intros Hnd. unfold connect.
  assert (∀ (rows : list nat) m,
    conn_at
      (foldl (λ m i,
                foldl (λ m j, <[(conns !!! j, conns !!! i) := 1%Z]>
                         (<[(conns !!! i, conns !!! j) := 1%Z]> m))
                  m (seq (S i) (length conns - S i))) m rows) x y ≠ 0%Z ↔
    conn_at m x y ≠ 0%Z
    ∨ ∃ i j, i ∈ rows ∧ i < j < length conns
             ∧ ((x, y) = (conns !!! i, conns !!! j)
                ∨ (x, y) = (conns !!! j, conns !!! i))) as Houter.
  { induction rows as [|i rows IH]; intros m; simpl.
    - split; [by left|]. intros [?|(i & j & ?%elem_of_nil & _)]; done.
    - rewrite IH, connect_inner. split.
      + intros [[?|(j & Hj%elem_of_seq & ?)]|(i' & j & ? & ? & ?)].
        * by left.
        * right. exists i, j. split_and!; [by left|lia|lia|done].
        * right. exists i', j. split_and!; [by right|lia|lia|done].
      + intros [?|(i' & j & [->|?]%elem_of_cons & ? & ?)].
        * left. by left.
        * left. right. exists j. split; [|done]. apply elem_of_seq. lia.
        * right. by exists i', j. }
  rewrite Houter. clear Houter. split.
  - intros [?|(i & j & Hi%elem_of_seq & Hij & Heq)]; [by left|right].
    assert (conns !! i = Some (conns !!! i)) as Hli
      by (apply list_lookup_lookup_total_lt; lia).
    assert (conns !! j = Some (conns !!! j)) as Hlj
      by (apply list_lookup_lookup_total_lt; lia).
    assert (conns !!! i ≠ conns !!! j) as Hne.
    { intros Heq'. rewrite <-Heq' in Hlj.
      pose proof (NoDup_lookup _ _ _ _ Hnd Hli Hlj). lia. }
    apply list_elem_of_lookup_2 in Hli, Hlj.
    destruct Heq as [[= -> ->]|[= -> ->]]; done.
  - intros [?|(Hne & [i Hi]%list_elem_of_lookup_1 & [j Hj]%list_elem_of_lookup_1)];
      [by left|right].
    pose proof (lookup_lt_Some _ _ _ Hi). pose proof (lookup_lt_Some _ _ _ Hj).
    apply list_lookup_total_correct in Hi as Hi', Hj as Hj'.
    destruct (decide (i < j)); [|destruct (decide (j < i))].
    + exists i, j. split_and!; [apply elem_of_seq; lia|lia..|left; congruence].
    + exists j, i. split_and!; [apply elem_of_seq; lia|lia..|right; congruence].
    + assert (i = j) as -> by lia. congruence.
Qed.
End canonicalizer_facts.

Lemma testbit_foldl_setbit_all {B} (f : B → nat) (l : list B) (mask : Z) (b : Z) :
  Z.testbit (foldl (λ mask j, Z.setbit mask (Z.of_nat (f j))) mask l) b = true ↔
  Z.testbit mask b = true ∨ ∃ j, j ∈ l ∧ b = Z.of_nat (f j).
Proof.
  revert mask. induction l as [|x l IH]; intros mask; simpl.
  - split; [by left|]. intros [?|(j & ?%elem_of_nil & _)]; done.
  - rewrite IH, testbit_setbit_nat. split.
    + intros [[->|?]|(j & ? & ->)]; [right|by left|right].
      * exists x. split; [by left|done].
      * exists j. split; [by right|done].
    + intros [?|(j & [->|?]%elem_of_cons & ->)];
        [by left; right|by left; left|right; by exists j].
Qed.

Lemma foldl_all_true {B} (bad : B → Prop) `{!∀ x, Decision (bad x)}
    (l : list B) (init : bool) :
  foldl (λ acc x, if decide (bad x) then false else acc) init l = true ↔
  init = true ∧ ∀ x, x ∈ l → ¬ bad x.
Proof.
  revert init. induction l as [|x l IH]; intros init; simpl.
  - split; [intros ->; split; [done|by intros ? ?%elem_of_nil]|by intros [-> _]].
  - rewrite IH. case_decide as Hb.
    + split; [by intros [? _]|]. intros [_ Hall]. destruct (Hall x); [by left|done].
    + split.
      * intros [-> Hall]. split; [done|]. intros y [->|?]%elem_of_cons; auto.
      * intros [-> Hall]. split; [done|]. intros y ?. apply Hall. by right.
Qed.

Section canonicalizer_masks.
Context (osi : OrbitalSpaceInfo).
Implicit Types (conn_mat : gmap (nat * nat) Z) (ops_perm : list nat).
Implicit Types (el : list (list DiagVertex)) (contraction_vec : list nat).

Lemma connectivity_spec el contraction_vec nops x y :
  conn_at (connectivity el contraction_vec nops) x y ≠ 0%Z ↔
  x ≠ y ∧ ∃ c, c ∈ contraction_vec
               ∧ x ∈ connections (el !!! c) nops
               ∧ y ∈ connections (el !!! c) nops.
Proof.
  unfold connectivity.
  assert (∀ conn_mat,
    conn_at (foldl (λ m c, connect (connections (el !!! c) nops) m)
               conn_mat contraction_vec) x y ≠ 0%Z ↔
    conn_at conn_mat x y ≠ 0%Z
    ∨ (x ≠ y ∧ ∃ c, c ∈ contraction_vec
                    ∧ x ∈ connections (el !!! c) nops
                    ∧ y ∈ connections (el !!! c) nops)) as Hgen.
  { induction contraction_vec as [|c cv IH]; intros conn_mat; simpl.
    - split; [by left|]. intros [?|(_ & c & ?%elem_of_nil & _)]; done.
    - rewrite IH, connect_spec by apply connections_NoDup. split.
      + intros [[?|(? & ? & ?)]|(? & c' & ? & ? & ?)]; [by left|right..].
        * split; [done|]. exists c. split; [by left|done].
        * split; [done|]. exists c'. split; [by right|done].
      + intros [?|(? & c' & [->|?]%elem_of_cons & ? & ?)].
        * left. by left.
        * left. by right.
        * right. split; [done|]. by exists c'. }
  rewrite Hgen. unfold conn_at. rewrite lookup_empty. simpl. naive_solver.
Qed.

Lemma mask_at_make_left_masks conn_mat nops p b :
  Z.testbit (mask_at (make_left_masks conn_mat nops) p) b = true ↔
  p < nops ∧ ∃ j, j < p ∧ conn_at conn_mat j p ≠ 0%Z ∧ b = Z.of_nat j.
Proof.
  unfold mask_at, make_left_masks. rewrite list_lookup_fmap.
  destruct (decide (p < nops)) as [Hp|Hp].
  - rewrite lookup_seq_lt by done. simpl.
    rewrite (testbit_foldl_setbit (λ j, j) (λ j, conn_at conn_mat j p ≠ 0%Z)).
    rewrite Z.bits_0. split.
    + intros [?|(j & Hj%elem_of_seq & ? & ->)]; [done|].
      split; [done|]. exists j. split_and!; [lia|done..].
    + intros (_ & j & ? & ? & ->). right. exists j.
      split_and!; [apply elem_of_seq; lia|done..].
  - rewrite lookup_seq_ge by lia. simpl. rewrite Z.bits_0. naive_solver.
Qed.

Lemma allowed_spec (left_masks : list Z) ops_perm nops :
  allowed left_masks ops_perm nops = true ↔
  ∀ i, i < nops → ∀ b, (0 ≤ b)%Z →
    Z.testbit (mask_at left_masks (ops_perm !!! i)) b = true →
    ∃ j, j < i ∧ b = Z.of_nat (ops_perm !!! j).
Proof.
  unfold allowed.
  rewrite (foldl_all_true
             (λ i, Z.land
                     (foldl (λ mask j, Z.setbit mask (Z.of_nat (ops_perm !!! j)))
                        0%Z (seq 0 i))
                     (mask_at left_masks (ops_perm !!! i))
                   ≠ mask_at left_masks (ops_perm !!! i))).
  split.
  - intros [_ Hall] i Hi b Hb Hbit.
    assert (i ∈ seq 0 nops) as Hin by (apply elem_of_seq; lia).
    apply Hall, dec_stable in Hin. rewrite land_eq_subset in Hin.
    apply Hin in Hbit; [|done].
    apply (testbit_foldl_setbit_all (λ j, ops_perm !!! j)) in Hbit
      as [Hbit|(j & Hj%elem_of_seq & ->)]; [by rewrite Z.bits_0 in Hbit|].
    exists j. split; [lia|done].
  - intros Hall. split; [done|]. intros i Hi%elem_of_seq Hbad. apply Hbad.
    apply land_eq_subset. intros b Hb Hbit.
    apply (testbit_foldl_setbit_all (λ j, ops_perm !!! j)). right.
    destruct (Hall i ltac:(lia) b Hb Hbit) as (j & ? & ->).
    exists j. split; [apply elem_of_seq; lia|done].
Qed.

(** The test of the loop accepts exactly the accepted permutations. *)
Lemma allowed_accepted el contraction_vec ops_perm nops :
  ops_perm ≡ₚ iota nops →
  allowed (make_left_masks (connectivity el contraction_vec nops) nops)
    ops_perm nops = true
  ↔ accepted el contraction_vec ops_perm.
Proof.
  intros Hperm.
  assert (length ops_perm = nops) as Hlen.
  { by rewrite Hperm; unfold iota; rewrite length_seq. }
  assert (∀ i, i < nops → ops_perm !!! i < nops) as Hrange.
  { intros i Hi.
    assert (ops_perm !!! i ∈ iota nops) as Hin.
    { rewrite <-Hperm. apply list_elem_of_lookup_total_2. lia. }
    apply elem_of_seq in Hin. lia. }
  rewrite allowed_spec. unfold accepted, left_neighbour, touches.
  rewrite Hlen. split.
  - intros Hall i j Hi (Hji & c & Hc & Hj & Hp).
    destruct (Hall i Hi (Z.of_nat j)) as (i' & ? & Heq); [lia| |].
    + apply mask_at_make_left_masks. split; [by apply Hrange|].
      exists j. split_and!; [done| |done].
      apply connectivity_spec. split; [lia|]. exists c.
      rewrite !elem_of_connections. specialize (Hrange i Hi).
      split_and!; [done|lia|done|lia|done].
    + exists i'. split; [done|]. lia.
  - intros Hacc i Hi b Hb (_ & j & Hj & Hconn & ->)%mask_at_make_left_masks.
    apply connectivity_spec in Hconn as (_ & c & Hc & Hj' & Hp').
    apply elem_of_connections in Hj' as [_ Hj'].
    apply elem_of_connections in Hp' as [_ Hp'].
    destruct (Hacc i j Hi) as (i' & ? & <-); [by eauto 10|].
    by exists i'.
Qed.

Lemma accepted_iota el contraction_vec nops :
  accepted el contraction_vec (iota nops).
Proof.
  intros i j Hi [Hj _]. unfold iota in *. rewrite length_seq in Hi.
  rewrite lookup_total_seq_lt in Hj by done. simpl in Hj.
  exists j. split; [done|]. rewrite lookup_total_seq_lt by lia. done.
Qed.
End canonicalizer_masks.

Section canonicalizer_theorems.
Context (osi : OrbitalSpaceInfo).
Implicit Types (ops_perm contr_perm : list nat) (ops : list DiagOperator).
Implicit Types (el contractions : list (list DiagVertex)).
Implicit Types (contraction_vec : list nat).

Lemma keyed_contractions contractions ops_perm nops :
  imap (λ i contraction, (permuted_contr contraction ops_perm nops, i))
    contractions
  = contraction_key contractions ops_perm nops <$> seq 0 (length contractions).
Proof.
  apply list_eq. intros i. rewrite list_lookup_imap, list_lookup_fmap.
  destruct (contractions !! i) as [c|] eqn:Hc; simpl.
  - rewrite lookup_seq_lt by (by eapply lookup_lt_Some). simpl.
    unfold contraction_key. by rewrite (list_lookup_total_correct _ _ _ Hc).
  - rewrite lookup_seq_ge; [done|]. by apply lookup_ge_None.
Qed.

Global Instance contraction_key_inj contractions ops_perm nops :
  Inj (=) (=) (contraction_key contractions ops_perm nops).
Proof. by intros c1 c2 [= _ ?]. Qed.

Lemma sorted_contr_perm_key contractions ops_perm nops :
  contraction_key contractions ops_perm nops
    <$> sorted_contr_perm contractions ops_perm nops
  = std_sort (contraction_key contractions ops_perm nops
                <$> seq 0 (length contractions)).
Proof.
  unfold sorted_contr_perm. rewrite keyed_contractions.
  rewrite <-list_fmap_compose.
  rewrite <-(list_fmap_id (std_sort _)) at 2.
  apply list_fmap_ext. intros i x Hx%list_elem_of_lookup_2.
  apply std_sort_elem_of, list_elem_of_fmap in Hx as (c & -> & _). done.
Qed.

(** The contraction permutation of the loop sorts the permuted
    contractions, ties broken by the original position. *)
Lemma sorted_contr_perm_sorts contractions ops_perm nops :
  sorts_contractions contractions ops_perm nops
    (sorted_contr_perm contractions ops_perm nops).
Proof.
  split.
  - unfold sorted_contr_perm. rewrite keyed_contractions, std_sort_Permutation.
    rewrite <-list_fmap_compose. unfold iota.
    rewrite (list_fmap_ext _ id (seq 0 (length contractions)));
      [by rewrite list_fmap_id|done].
  - rewrite sorted_contr_perm_key. apply std_sort_strictly_sorted.
    apply NoDup_fmap_2, NoDup_seq. apply _.
Qed.

(** It is the only permutation that does. *)
Lemma sorted_contr_perm_unique contractions ops_perm nops contr_perm :
  sorts_contractions contractions ops_perm nops contr_perm →
  contr_perm = sorted_contr_perm contractions ops_perm nops.
Proof.
  intros [Hperm Hsorted].
  destruct (sorted_contr_perm_sorts contractions ops_perm nops)
    as [Hperm' Hsorted'].
  apply (inj (fmap (contraction_key contractions ops_perm nops))).
  apply strictly_sorted_unique; [done..|]. by rewrite Hperm, Hperm'.
Qed.

Lemma elem_of_canonical_scores ops contractions (left_masks : list Z)
    (sig : string) ops_perm contr_perm :
  (sig, (ops_perm, contr_perm)) ∈ canonical_scores osi ops contractions left_masks
  ↔ ops_perm ≡ₚ iota (length ops)
    ∧ allowed left_masks ops_perm (length ops) = true
    ∧ contr_perm = sorted_contr_perm contractions ops_perm (length ops)
    ∧ sig = contraction_signature osi ops contractions ops_perm contr_perm.
Proof.
  unfold canonical_scores. rewrite list_elem_of_bind. split.
  - intros (p & Hin & Hp%next_permutation_loop_spec).
    destruct (allowed _ _ _) eqn:Hallowed; [|by apply elem_of_nil in Hin].
    apply list_elem_of_singleton in Hin as [= -> -> ->]. done.
  - intros (Hp & Hallowed & -> & ->). exists ops_perm.
    rewrite Hallowed, next_permutation_loop_spec. split; [by left|done].
Qed.

Lemma rem_2_odd (n : Z) : Z.rem n 2 ≠ 0%Z ↔ Z.odd n = true.
Proof.
  rewrite <-Z.negb_even, negb_true_iff, <-not_true_iff_false.
  apply not_iff_compat. rewrite Z.even_spec. split.
  - intros Hrem. exists (n `quot` 2)%Z.
    pose proof (Z.quot_rem' n 2). lia.
  - intros [k ->]. by rewrite Z.mul_comm, Z.rem_mul.
Qed.

Lemma canonical_scores_nonempty ops el contraction_vec contractions :
  canonical_scores osi ops contractions
    (make_left_masks (connectivity el contraction_vec (length ops)) (length ops))
  ≠ [].
Proof.
  intros Hnil.
  assert ((contraction_signature osi ops contractions (iota (length ops))
             (sorted_contr_perm contractions (iota (length ops)) (length ops)),
           (iota (length ops),
            sorted_contr_perm contractions (iota (length ops)) (length ops)))
          ∈ canonical_scores osi ops contractions
              (make_left_masks (connectivity el contraction_vec (length ops))
                 (length ops))) as Hin.
  { apply elem_of_canonical_scores. split_and!; [done| |done..].
    apply allowed_accepted; [done|]. apply accepted_iota. }
  rewrite Hnil in Hin. by apply elem_of_nil in Hin.
Qed.

(** C9. [canonicalize_contraction] aborts with its fatal error whenever
    some operator of the string has an odd total number of legs; when
    every operator has an even number of legs the call does not abort,
    and it returns when the operators fit the width of the masks. *)
Theorem canonicalize_contraction_parity el ops contraction_vec :
  (Exists (λ op, Z.odd (num_ops op) = true) ops →
   canonicalize_contraction osi el ops contraction_vec
   = Aborts odd_operator_msg)
  ∧ (Forall (λ op, Z.even (num_ops op) = true) ops →
     (∀ msg, canonicalize_contraction osi el ops contraction_vec ≠ Aborts msg)
     ∧ (length ops ≤ maxops →
        ∃ r, canonicalize_contraction osi el ops contraction_vec = Returns r)).
Proof.
  unfold canonicalize_contraction. split.
  - intros Hodd. rewrite decide_True; [done|].
    eapply Exists_impl; [done|]. intros op. by rewrite rem_2_odd.
  - intros Heven. rewrite decide_False.
    2:{ rewrite <-Forall_Exists_neg. eapply Forall_impl; [done|].
        intros op Hop. rewrite rem_2_odd, <-Z.negb_even, Hop. done. }
    assert (∃ e rest,
      std_sort (canonical_scores osi ops ((λ c, el !!! c) <$> contraction_vec)
        (make_left_masks (connectivity el contraction_vec (length ops))
           (length ops))) = e :: rest) as (e & rest & Hsort).
    { destruct (std_sort _) as [|e rest] eqn:Hsort; [|by eauto].
      apply std_sort_nil_inv in Hsort.
      by apply canonical_scores_nonempty in Hsort. }
    rewrite Hsort. destruct e as [sig [best_ops_perm best_contr_perm]]. split.
    + intros msg. by case_decide.
    + intros Hlen. rewrite decide_False by lia. eauto.
Qed.

(** C4. In [canonicalize_contraction], the loop accepts an operator
    permutation exactly when, at every position, the operators placed
    before it contain every original left-connected neighbour of the
    operator placed there; for each operator permutation the contraction
    permutation is the one and only arrangement that sorts the permuted
    contractions by the per-vertex lexicographic order, ties broken by the
    original position; and the pair returned is the rearrangement of the
    operators and of the contractions by an accepted permutation whose
    signature no accepted permutation undercuts. *)
Theorem canonicalize_contraction_canonical el ops contraction_vec
    best_ops best_contractions :
  canonicalize_contraction osi el ops contraction_vec
  = Returns (best_ops, best_contractions) →
  let nops := length ops in
  let contractions := (λ c, el !!! c) <$> contraction_vec in
  let left_masks := make_left_masks (connectivity el contraction_vec nops) nops in
  let sig ops_perm :=
    contraction_signature osi ops contractions ops_perm
      (sorted_contr_perm contractions ops_perm nops) in
  (∀ ops_perm, ops_perm ≡ₚ iota nops →
     (allowed left_masks ops_perm nops = true
      ↔ accepted el contraction_vec ops_perm)
     ∧ sorts_contractions contractions ops_perm nops
         (sorted_contr_perm contractions ops_perm nops)
     ∧ ∀ contr_perm,
         sorts_contractions contractions ops_perm nops contr_perm →
         contr_perm = sorted_contr_perm contractions ops_perm nops)
  ∧ ∃ best_ops_perm,
      best_ops_perm ≡ₚ iota nops
      ∧ accepted el contraction_vec best_ops_perm
      ∧ best_ops = (λ o, ops !!! o) <$> best_ops_perm
      ∧ best_contractions
        = (λ c, contractions !!! c)
            <$> sorted_contr_perm contractions best_ops_perm nops
      ∧ ∀ ops_perm, ops_perm ≡ₚ iota nops →
          accepted el contraction_vec ops_perm →
          ¬ lexico (sig ops_perm) (sig best_ops_perm).
Proof.
  intros Hcanon nops contractions left_masks sig. split.
  { intros ops_perm Hperm. split_and!.
    - by apply allowed_accepted.
    - apply sorted_contr_perm_sorts.
    - apply sorted_contr_perm_unique. }
  unfold canonicalize_contraction in Hcanon.
  case_decide; [done|]. case_decide; [done|].
  fold nops contractions left_masks in Hcanon.
  destruct (std_sort (canonical_scores _ _ _ _))
    as [|[best_sig [best_ops_perm best_contr_perm]] rest] eqn:Hsort; [done|].
  injection Hcanon as <- <-.
  assert ((best_sig, (best_ops_perm, best_contr_perm))
          ∈ canonical_scores osi ops contractions left_masks) as Hbest.
  { apply std_sort_elem_of. rewrite Hsort. by left. }
  apply elem_of_canonical_scores in Hbest as (Hperm & Hallowed & -> & ->).
  exists best_ops_perm. split_and!; [done| |done..|].
  { by apply (allowed_accepted el contraction_vec best_ops_perm nops Hperm). }
  intros ops_perm Hperm' Hacc Hlt.
  eapply (std_sort_head_least _ _ _ (sig ops_perm, (ops_perm, _)) Hsort).
  - apply elem_of_canonical_scores. split_and!; [done| |done..].
    by apply (allowed_accepted el contraction_vec ops_perm nops Hperm').
  - by left.
Qed.
End canonicalizer_theorems.

Section process_contractions_theorems.
Context (osi : OrbitalSpaceInfo).
Context (term_canonicalize : SymbolicTerm → SymbolicTerm * scalar_t).
Implicit Types (ops : list DiagOperator) (el : list (list DiagVertex)).
Implicit Types (result : processed).

Lemma process_contractions_calls el factor0 ops minrank maxrank
    (contractions_ : list (list nat)) (acc : outcome processed) result :
  foldl (λ acc contraction_vec,
           acc ← acc;
           process_composite osi term_canonicalize el factor0 ops
             minrank maxrank acc contraction_vec)
    acc contractions_ = Returns result →
  ∃ result0 calls,
    acc = Returns result0
    ∧ evaluator_calls result = evaluator_calls result0 ++ calls
    ∧ Forall2 (call_for osi el ops factor0) calls
        (filter (in_band el ops minrank maxrank) contractions_).
Proof.
  revert acc. induction contractions_ as [|cv cvs IH]; intros acc; simpl.
  - intros ->. exists result, []. by rewrite app_nil_r.
  - intros (result1 & calls & Hstep & -> & Hcalls)%IH.
    destruct acc as [result0| |]; simpl in Hstep; [|done..].
    exists result0. rewrite filter_cons. unfold in_band at 1.
    unfold process_composite in Hstep.
    case_decide as Hband; simpl in Hstep.
    + destruct (canonicalize_contraction osi el ops cv) as [r| |] eqn:Hcanon;
        simpl in Hstep; [|done..].
      destruct (evaluate_contraction osi ops r.2 factor0) as [tf| |];
        simpl in Hstep; [|done..].
      destruct (term_canonicalize tf.1) as [term canonicalize_factor].
      injection Hstep as <-. simpl.
      exists ((ops, r.2, factor0) :: calls). rewrite decide_True by done.
      split_and!; [done|by rewrite <-(assoc_L (++))|].
      constructor; [|done]. by exists r.
    + injection Hstep as <-. rewrite decide_False by done. by exists calls.
Qed.

(** C3 (amended). For every composite contraction whose uncontracted rank
    lies in [[minrank, maxrank]], in their order, [process_contractions]
    calls [evaluate_contraction] with the operator list [ops] in its
    original order, together with the reordered elementary-contraction
    list returned by [canonicalize_contraction]. *)
Theorem process_contractions_evaluator_arguments el
    (contractions_ : list (list nat))
    (factor0 : scalar_t) ops minrank maxrank result :
  process_contractions osi term_canonicalize el contractions_ factor0 ops
    minrank maxrank = Returns result →
  Forall2 (call_for osi el ops factor0) (evaluator_calls result)
    (filter (in_band el ops minrank maxrank) contractions_).
Proof.
  intros (result0 & calls & [= <-] & -> & Hcalls)%process_contractions_calls.
  done.
Qed.
End process_contractions_theorems.

Import Examples.

(** C3 (as stated) fails: for [v t s], fully contracted, the canonically
    reordered operator list is [v s t], and the evaluator is called with
    [v t s]. *)
Lemma process_contractions_not_canonical_ops :
  let ops := [Voovv; T1; S1] in
  let el := generate_elementary_contractions osi_ov 2 ops in
  generate_composite_contractions osi_ov el ops 0 0 = Some [[0; 1; 2; 3]]
  ∧ in_band el ops 0 0 [0; 1; 2; 3]
  ∧ ∃ result canonical_ops canonical_contractions,
      process_contractions osi_ov (λ term, (term, 1%Qc)) el [[0; 1; 2; 3]]
        1%Qc ops 0 0 = Returns result
      ∧ canonicalize_contraction osi_ov el ops [0; 1; 2; 3]
        = Returns (canonical_ops, canonical_contractions)
      ∧ canonical_ops = [Voovv; S1; T1]
      ∧ evaluator_calls result = [(ops, canonical_contractions, 1%Qc)]
      ∧ ops ≠ canonical_ops
      ∧ ¬ Forall2 (canonical_call_for osi_ov el ops 1%Qc)
            (evaluator_calls result)
            (filter (in_band el ops 0 0) [[0; 1; 2; 3]]).
Proof.
  intros ops el. split_and!; [by vm_compute|by vm_compute|].
  eexists _, _, _.
  split_and!; [by vm_compute|by vm_compute|done|done|done|].
  cbn [evaluator_calls]. intros Hclaim.
  apply Forall2_cons_inv_l in Hclaim as (a & rest & (r & Hr & Hcall) & _ & Ha).
  assert (filter (in_band el ops 0 0) [[0; 1; 2; 3]] = [[0; 1; 2; 3]]) as Hband
    by (by vm_compute).
  rewrite Hband in Ha. injection Ha as <- _.
  assert (∃ canonical_contractions,
    canonicalize_contraction osi_ov el ops [0; 1; 2; 3]
    = Returns ([Voovv; S1; T1], canonical_contractions)) as [cc Hcanonical]
    by (eexists; by vm_compute).
  rewrite Hcanonical in Hr. injection Hr as <-.
  apply (f_equal (λ call, call.1.1)) in Hcall. cbn [fst] in Hcall. done.
Qed.

Lemma process_contractions_evaluator_arguments_witness :
  let ops := [Voovv; T1; S1] in
  let el := generate_elementary_contractions osi_ov 2 ops in
  ∃ result,
    process_contractions osi_ov (λ term, (term, 1%Qc)) el [[0; 1; 2; 3]]
      1%Qc ops 0 0 = Returns result
    ∧ Forall2 (call_for osi_ov el ops 1%Qc) (evaluator_calls result)
        (filter (in_band el ops 0 0) [[0; 1; 2; 3]]).
Proof.
  intros ops el. eexists. split; [by vm_compute|].
  apply (process_contractions_evaluator_arguments osi_ov (λ term, (term, 1%Qc))).
  by vm_compute.
Defined.

Lemma canonicalize_contraction_canonical_witness :
  let ops := [Voovv; T1; S1] in
  let el := generate_elementary_contractions osi_ov 2 ops in
  let contractions := (λ c, el !!! c) <$> [0; 1; 2; 3] in
  canonicalize_contraction osi_ov el ops [0; 1; 2; 3]
  = Returns ([Voovv; S1; T1], (λ c, contractions !!! c) <$> [2; 3; 0; 1])
  ∧ ∃ best_ops_perm,
      best_ops_perm ≡ₚ iota 3
      ∧ accepted el [0; 1; 2; 3] best_ops_perm
      ∧ [Voovv; S1; T1] = (λ o, ops !!! o) <$> best_ops_perm.
Proof.
  intros ops el contractions.
  assert (canonicalize_contraction osi_ov el ops [0; 1; 2; 3]
          = Returns ([Voovv; S1; T1], (λ c, contractions !!! c) <$> [2; 3; 0; 1]))
    as Hrun by (by vm_compute).
  split; [done|].
  destruct (canonicalize_contraction_canonical osi_ov el ops [0; 1; 2; 3] _ _ Hrun)
    as (_ & best_ops_perm & ? & ? & ? & _).
  by exists best_ops_perm.
Defined.

(** ** Vertices *)

Module VertexFacts.
Import Vertex.

Lemma length_zero : length zero = max_spaces_.
Proof. done. Qed.

Lemma vertex_nil s : vertex [] s = (0, 0)%Z.
Proof. done. Qed.

Lemma vertex_zero s : vertex zero s = (0, 0)%Z.
Proof.
  unfold vertex, zero. destruct (replicate _ _ !! s) as [p|] eqn:Hp; [|done].
  by apply lookup_replicate in Hp as [-> _].
Qed.

Lemma cre_zero s : cre zero s = 0%Z.
Proof. unfold cre. by rewrite vertex_zero. Qed.
Lemma ann_zero s : ann zero s = 0%Z.
Proof. unfold ann. by rewrite vertex_zero. Qed.

Lemma length_set_cre s x v : length (set_cre s x v) = length v.
Proof. apply length_insert. Qed.
Lemma length_set_ann s x v : length (set_ann s x v) = length v.
Proof. apply length_insert. Qed.

Lemma vertex_set_cre s x v s' :
  s < length v →
  vertex (set_cre s x v) s'
  = if decide (s' = s) then (x, ann v s) else vertex v s'.
Proof.
  intros Hs. unfold vertex, set_cre. case_decide as Heq; [subst s'|].
  - by rewrite list_lookup_insert_eq.
  - by rewrite list_lookup_insert_ne.
Qed.

Lemma vertex_set_ann s x v s' :
  s < length v →
  vertex (set_ann s x v) s'
  = if decide (s' = s) then (cre v s, x) else vertex v s'.
Proof.
  intros Hs. unfold vertex, set_ann. case_decide as Heq; [subst s'|].
  - by rewrite list_lookup_insert_eq.
  - by rewrite list_lookup_insert_ne.
Qed.

Lemma cre_set_cre s x v s' :
  s < length v →
  cre (set_cre s x v) s' = if decide (s' = s) then x else cre v s'.
Proof. intros. unfold cre. rewrite vertex_set_cre by done. by case_decide. Qed.
Lemma ann_set_cre s x v s' : s < length v → ann (set_cre s x v) s' = ann v s'.
Proof.
  intros. unfold ann at 1. rewrite vertex_set_cre by done.
  case_decide; by subst.
Qed.
Lemma cre_set_ann s x v s' : s < length v → cre (set_ann s x v) s' = cre v s'.
Proof.
  intros. unfold cre at 1. rewrite vertex_set_ann by done.
  case_decide; by subst.
Qed.
Lemma ann_set_ann s x v s' :
  s < length v →
  ann (set_ann s x v) s' = if decide (s' = s) then x else ann v s'.
Proof. intros. unfold ann. rewrite vertex_set_ann by done. by case_decide. Qed.

(** The rank as a sum over the spaces. *)
Lemma rank_sum v :
  rank v = foldr (λ s acc, legs v s + acc)%Z 0%Z (seq 0 max_spaces_).
Proof. done. Qed.

Lemma rank_ext v w :
  (∀ s, s < max_spaces_ → legs v s = legs w s) → rank v = rank w.
Proof.
  intros Hext. rewrite !rank_sum.
  assert (∀ l, Forall (λ s, s < max_spaces_) l →
    foldr (λ s acc, legs v s + acc)%Z 0%Z l
    = foldr (λ s acc, legs w s + acc)%Z 0%Z l) as Hl.
  { induction 1 as [|s l Hs _ IH]; simpl; [done|]. by rewrite IH, Hext. }
  apply Hl, Forall_forall. intros s Hs%elem_of_seq. lia.
Qed.

Lemma rank_zero : rank zero = 0%Z.
Proof. done. Qed.

Lemma rank_nonneg v :
  (∀ s, s < max_spaces_ → (0 ≤ cre v s)%Z ∧ (0 ≤ ann v s)%Z) → (0 ≤ rank v)%Z.
Proof.
  intros Hv. rewrite rank_sum.
  assert (∀ l, Forall (λ s, s < max_spaces_) l →
    (0 ≤ foldr (λ s acc, legs v s + acc) 0 l)%Z) as Hl.
  { induction 1 as [|s l Hs _ IH]; simpl; [done|].
    assert (0 ≤ legs v s)%Z by (unfold legs; destruct (Hv s Hs); lia). lia. }
  apply Hl, Forall_forall. intros s Hs%elem_of_seq. lia.
Qed.


Lemma length_zip_with f v w : length (zip_with f v w) = max_spaces_.
Proof. unfold zip_with. by rewrite length_fmap, length_seq. Qed.

Lemma vertex_zip_with f v w s :
  s < max_spaces_ →
  vertex (zip_with f v w) s = (f (cre v s) (cre w s), f (ann v s) (ann w s)).
Proof.
  intros Hs. unfold vertex at 1, zip_with.
  by rewrite list_lookup_fmap, lookup_seq_lt.
Qed.

Lemma cre_sub v w s : s < max_spaces_ → cre (sub v w) s = (cre v s - cre w s)%Z.
Proof. intros. unfold cre at 1, sub. by rewrite vertex_zip_with. Qed.
Lemma ann_sub v w s : s < max_spaces_ → ann (sub v w) s = (ann v s - ann w s)%Z.
Proof. intros. unfold ann at 1, sub. by rewrite vertex_zip_with. Qed.
Lemma cre_add v w s : s < max_spaces_ → cre (add v w) s = (cre v s + cre w s)%Z.
Proof. intros. unfold cre at 1, add. by rewrite vertex_zip_with. Qed.
Lemma ann_add v w s : s < max_spaces_ → ann (add v w) s = (ann v s + ann w s)%Z.
Proof. intros. unfold ann at 1, add. by rewrite vertex_zip_with. Qed.

Lemma rank_linear (f : Z → Z → Z) (v w : DiagVertex) :
  (∀ x1 x2 y1 y2, f x1 y1 + f x2 y2 = f (x1 + x2) (y1 + y2))%Z →
  f 0%Z 0%Z = 0%Z →
  rank (zip_with f v w) = f (rank v) (rank w).
Proof.
  intros Hf Hf0. rewrite !rank_sum.
  assert (∀ l, Forall (λ s, s < max_spaces_) l →
    foldr (λ s acc, legs (zip_with f v w) s + acc)%Z 0%Z l
    = f (foldr (λ s acc, legs v s + acc)%Z 0%Z l)
        (foldr (λ s acc, legs w s + acc)%Z 0%Z l)) as Hl.
  { induction 1 as [|s l Hs _ IH]; simpl; [done|].
    rewrite IH. unfold legs, cre, ann. rewrite vertex_zip_with by done.
    simpl. by rewrite !Hf. }
  apply Hl, Forall_forall. intros s Hs%elem_of_seq. lia.
Qed.

Lemma rank_sub v w : rank (sub v w) = (rank v - rank w)%Z.
Proof. apply (rank_linear Z.sub); intros; lia. Qed.
Lemma rank_add v w : rank (add v w) = (rank v + rank w)%Z.
Proof. apply (rank_linear Z.add); intros; lia. Qed.

(** An array is determined by its entries. *)
Lemma vertex_eq v w :
  length v = max_spaces_ → length w = max_spaces_ →
  (∀ s, s < max_spaces_ → vertex v s = vertex w s) → v = w.
Proof.
  intros Hv Hw Hext. apply list_eq_same_length with max_spaces_; [done..|].
  intros s x y Hs Hx Hy. specialize (Hext s Hs). unfold vertex in Hext.
  by rewrite Hx, Hy in Hext.
Qed.

Lemma add_sub v w : length v = max_spaces_ → add (sub v w) w = v.
Proof.
  intros Hv. apply vertex_eq; [apply length_zip_with|done|].
  intros s Hs. unfold add, sub. rewrite vertex_zip_with by done.
  fold (sub v w). rewrite cre_sub, ann_sub by done.
  unfold cre, ann. destruct (vertex v s). simpl. f_equal; lia.
Qed.
End VertexFacts.

Import VertexFacts.

(** ** Step 1: pair contractions *)

Section pair_contractions.
Context (osi : OrbitalSpaceInfo).
Implicit Types (ops : list DiagOperator) (s c a : nat).

Lemma length_pair_contraction nops s c a :
  length (pair_contraction nops s c a) = nops.
Proof.
  unfold pair_contraction. by rewrite !length_alter, length_replicate.
Qed.

Lemma pair_contraction_lookup nops s c a A :
  A < nops →
  pair_contraction nops s c a !!! A
  = (if decide (A = a) then Vertex.set_ann s 1 else id)
      ((if decide (A = c) then Vertex.set_cre s 1 else id) Vertex.zero).
Proof.
  intros HA. unfold pair_contraction. apply list_lookup_total_correct.
  destruct (decide (A = a)) as [->|Ha].
  - rewrite list_lookup_alter_eq. destruct (decide (a = c)) as [->|Hc].
    + rewrite list_lookup_alter_eq, lookup_replicate_2 by done. done.
    + rewrite list_lookup_alter_ne, lookup_replicate_2 by done. done.
  - rewrite list_lookup_alter_ne by done. destruct (decide (A = c)) as [->|Hc].
    + rewrite list_lookup_alter_eq, lookup_replicate_2 by done. done.
    + rewrite list_lookup_alter_ne, lookup_replicate_2 by done. done.
Qed.

(** The legs of a pair contraction: one creation leg on [c] and one
    annihilation leg on [a], in space [s], and nothing else. *)
Lemma pair_contraction_legs nops s c a A s' :
  s < max_spaces_ → A < nops →
  Vertex.cre (pair_contraction nops s c a !!! A) s'
  = (if decide (A = c ∧ s' = s) then 1 else 0)%Z
  ∧ Vertex.ann (pair_contraction nops s c a !!! A) s'
    = (if decide (A = a ∧ s' = s) then 1 else 0)%Z.
Proof.
  intros Hs HA. rewrite pair_contraction_lookup by done.
  destruct (decide (A = a)) as [->|Ha], (decide (a = c)) as [->|Hc];
    try destruct (decide (A = c)) as [->|Hc']; simpl;
    rewrite ?cre_set_ann, ?ann_set_ann, ?cre_set_cre, ?ann_set_cre,
      ?cre_zero, ?ann_zero
      by (rewrite ?length_set_cre; done);
    repeat case_decide; naive_solver.
Qed.



Lemma elem_of_occupied_contractions ops s contraction :
  contraction ∈ occupied_contractions ops s ↔
  ∃ c a, c < a < length ops
         ∧ (op_cre (ops !!! c) s * op_ann (ops !!! a) s > 0)%Z
         ∧ contraction = pair_contraction (length ops) s c a.
Proof.
  unfold occupied_contractions. rewrite list_elem_of_bind. split.
  - intros (c & (a & Hin & Ha%elem_of_seq)%list_elem_of_bind & Hc%elem_of_seq).
    case_decide; [|by apply elem_of_nil in Hin].
    apply list_elem_of_singleton in Hin as ->.
    exists c, a. split_and!; [lia..|done|done].
  - intros (c & a & Hca & Hv & ->). exists c.
    split; [|apply elem_of_seq; lia].
    apply list_elem_of_bind. exists a. split; [|apply elem_of_seq; lia].
    rewrite decide_True by done. by left.
Qed.

Lemma elem_of_unoccupied_contractions ops s contraction :
  contraction ∈ unoccupied_contractions ops s ↔
  ∃ a c, a < c < length ops
         ∧ (op_cre (ops !!! c) s * op_ann (ops !!! a) s > 0)%Z
         ∧ contraction = pair_contraction (length ops) s c a.
Proof.
  unfold unoccupied_contractions. rewrite list_elem_of_bind. split.
  - intros (a & (c & Hin & Hc%elem_of_seq)%list_elem_of_bind & Ha%elem_of_seq).
    case_decide; [|by apply elem_of_nil in Hin].
    apply list_elem_of_singleton in Hin as ->.
    exists a, c. split_and!; [lia..|done|done].
  - intros (a & c & Hca & Hv & ->). exists a.
    split; [|apply elem_of_seq; lia].
    apply list_elem_of_bind. exists c. split; [|apply elem_of_seq; lia].
    rewrite decide_True by done. by left.
Qed.



End pair_contractions.

(** ** Step 2: moves of the backtracking search *)

Section moves.
Context (osi : OrbitalSpaceInfo).
Implicit Types (el : list (list DiagVertex)) (free : list DiagVertex).
Implicit Types (a : list nat) (c A s : nat).

Lemma length_make_move c el free : length (make_move c el free) = length free.
Proof. unfold make_move. apply length_imap. Qed.

Lemma make_move_lookup c el free A :
  A < length free →
  make_move c el free !!! A = Vertex.sub (free !!! A) ((el !!! c) !!! A).
Proof.
  intros HA. apply list_lookup_total_correct. unfold make_move.
  rewrite list_lookup_imap.
  by rewrite (list_lookup_lookup_total_lt free A HA).
Qed.

Lemma unmake_make_move c el free :
  Forall (λ v, length v = max_spaces_) free →
  unmake_move c el (make_move c el free) = free.
Proof.
  intros Hlen. unfold unmake_move, make_move. apply list_eq. intros A.
  rewrite !list_lookup_imap.
  destruct (free !! A) as [v|] eqn:Hv; simpl; [|done].
  f_equal. apply add_sub. rewrite Forall_forall in Hlen.
  by eapply Hlen, list_elem_of_lookup_2.
Qed.

Lemma free_rank_vertices_rank free : free_rank free = vertices_rank free.
Proof.
  unfold free_rank, vertices_rank.
  assert (∀ z, foldl (λ rank v, rank + Vertex.rank v)%Z z free
               = (z + foldr (λ v acc, Vertex.rank v + acc) 0 free)%Z) as Hz.
  { induction free as [|v free IH]; intros z; simpl; [lia|].
    rewrite IH. lia. }
  by rewrite Hz.
Qed.

Lemma vertices_rank_imap_sub (g : nat → DiagVertex) free start :
  vertices_rank (imap (λ A v, Vertex.sub v (g (start + A))) free)
  = (vertices_rank free
     - foldr (λ A acc, Vertex.rank (g A) + acc) 0 (seq start (length free)))%Z.
Proof.
  revert start. induction free as [|v free IH]; intros start; simpl; [done|].
  rewrite rank_sub, Nat.add_0_r.
  rewrite (imap_ext _ (λ A v, Vertex.sub v (g (S start + A)))).
  - rewrite IH. lia.
  - intros A x _. simpl. by rewrite Nat.add_succ_r.
Qed.

Lemma free_rank_make_move c el free :
  free_rank (make_move c el free)
  = (free_rank free - legs_on (el !!! c) (length free))%Z.
Proof.
  rewrite !free_rank_vertices_rank. unfold make_move, legs_on.
  by rewrite <-(vertices_rank_imap_sub (λ A, (el !!! c) !!! A) free 0).
Qed.

Lemma compatible_spec free (contraction : list DiagVertex) :
  compatible osi free contraction = true ↔
  ∀ A s, A < length free → s < num_spaces osi →
    (Vertex.cre (contraction !!! A) s ≤ Vertex.cre (free !!! A) s)%Z
    ∧ (Vertex.ann (contraction !!! A) s ≤ Vertex.ann (free !!! A) s)%Z.
Proof.
  unfold compatible. rewrite forallb_forall. split.
  - intros Hall A s HA Hs.
    specialize (Hall A). rewrite in_seq, forallb_forall in Hall.
    specialize (Hall ltac:(lia) s). rewrite in_seq in Hall.
    specialize (Hall ltac:(lia)).
    apply andb_true_iff in Hall as [H1%bool_decide_eq_true H2%bool_decide_eq_true].
    lia.
  - intros Hall A HA%in_seq. rewrite forallb_forall.
    intros s Hs%in_seq.
    destruct (Hall A s) as [??]; [lia..|].
    apply andb_true_iff. split; apply bool_decide_eq_true; lia.
Qed.

Lemma elem_of_construct_candidates a el free c :
  c ∈ construct_candidates osi a el free ↔
  default 0 (last a) ≤ c < length el
  ∧ compatible osi free (el !!! c) = true.
Proof.
  unfold construct_candidates.
  rewrite list_elem_of_filter, elem_of_seq. naive_solver lia.
Qed.


Lemma good_lookup nops free A :
  good nops free → A < nops → well_formed_vertex (free !!! A).
Proof.
  intros [Hlen Hwf] HA. rewrite Forall_forall in Hwf.
  apply Hwf, list_elem_of_lookup_total_2. lia.
Qed.

Lemma good_make_move nops c el free :
  good nops free → elementary osi nops (el !!! c) →
  compatible osi free (el !!! c) = true →
  good nops (make_move c el free).
Proof.
  intros Hgood [Hel _] Hcompat. pose proof Hgood as [Hlen Hwf].
  split; [by rewrite length_make_move|].
  apply Forall_lookup. intros A v Hv.
  assert (A < nops) as HA.
  { apply lookup_lt_Some in Hv. by rewrite length_make_move, Hlen in Hv. }
  apply list_lookup_total_correct in Hv as <-.
  rewrite make_move_lookup by lia.
  split; [apply length_zip_with|]. intros s Hs.
  rewrite cre_sub, ann_sub by done.
  destruct (good_lookup nops free A Hgood HA) as [_ Hnn].
  destruct (Hnn s Hs) as [??].
  destruct (decide (s < num_spaces osi)) as [Hreg|Hreg].
  - rewrite compatible_spec in Hcompat.
    destruct (Hcompat A s) as [??]; [lia..|]. lia.
  - destruct (Hel A HA) as [_ Hzero].
    unfold Vertex.cre, Vertex.ann. rewrite (Hzero s) by lia. simpl.
    unfold Vertex.cre, Vertex.ann in *. lia.
Qed.

Lemma legs_on_positive nops (contraction : list DiagVertex) :
  elementary osi nops contraction → (1 ≤ legs_on contraction nops)%Z.
Proof.
  intros [Hel (A0 & HA0 & Hrank)]. unfold legs_on.
  assert (∀ l, Forall (λ A, A < nops) l →
    (0 ≤ foldr (λ A acc, Vertex.rank (contraction !!! A) + acc) 0 l)%Z
    ∧ (A0 ∈ l →
       1 ≤ foldr (λ A acc, Vertex.rank (contraction !!! A) + acc) 0 l)%Z)
    as Hl.
  { induction 1 as [|A l HA _ [IH1 IH2]]; simpl.
    - split; [done|]. by intros ?%elem_of_nil.
    - assert (0 ≤ Vertex.rank (contraction !!! A))%Z
        by (apply rank_nonneg, Hel, HA).
      split; [lia|]. intros [<-|Hin]%elem_of_cons; [lia|].
      specialize (IH2 Hin). lia. }
  apply Hl; [|apply elem_of_seq; lia].
  apply Forall_forall. intros A HA%elem_of_seq. lia.
Qed.

Lemma free_rank_nonneg nops free : good nops free → (0 ≤ free_rank free)%Z.
Proof.
  intros [_ Hwf]. rewrite free_rank_vertices_rank. unfold vertices_rank.
  induction Hwf as [|v free [_ Hv] _ IH]; simpl; [done|].
  pose proof (rank_nonneg v Hv). lia.
Qed.
End moves.

(** ** Step 2: the backtracking search *)

Section backtracking.
Context (osi : OrbitalSpaceInfo).
Context (el : list (list DiagVertex)) (minrank maxrank : Z).
Implicit Types (free : list DiagVertex) (a ext b : list nat) (c A s : nat).
Implicit Types (cs : list (list nat)).

Local Abbreviation band := (band minrank maxrank).

Lemma process_contraction_app a free cs :
  process_contraction a free minrank maxrank cs
  = cs ++ process_contraction a free minrank maxrank [].
Proof.
  unfold process_contraction. case_decide; [done|by rewrite app_nil_r].
Qed.

Lemma elem_of_process_contraction a free b :
  b ∈ process_contraction a free minrank maxrank [] ↔ b = a ∧ band free.
Proof.
  unfold process_contraction, band. case_decide; simpl.
  - rewrite list_elem_of_singleton. naive_solver.
  - rewrite elem_of_nil. naive_solver.
Qed.

Lemma foldl_backtrack_None {B} (step : list DiagVertex * list (list nat) → B →
      option (list DiagVertex * list (list nat))) (l : list B) :
  foldl (λ state x, st ← state; step st x) None l = None.
Proof. by induction l. Qed.

(** The search returns the free vertices as it found them and appends the
    composites of the node to [contractions_]. *)
Lemma backtrack_composites fuel a free cs :
  Forall (λ v, length v = max_spaces_) free →
  generate_contractions_backtrack osi fuel a el free cs minrank maxrank
  = (λ r, (free, cs ++ r)) <$> composites osi fuel el minrank maxrank a free.
Proof.
  revert a free cs. induction fuel as [|fuel IH]; intros a free cs Hlen;
    simpl; [done|].
  rewrite process_contraction_app.
  assert (∀ cands cs',
    foldl (λ state c,
             '(free_vertex_vec, contractions_) ← state;
             let free_vertex_vec := make_move c el free_vertex_vec in
             '(free_vertex_vec, contractions_) ←
               generate_contractions_backtrack osi fuel (a ++ [c]) el
                 free_vertex_vec contractions_ minrank maxrank;
             Some (unmake_move c el free_vertex_vec, contractions_))
      (Some (free, cs')) cands
    = (λ below, (free, cs' ++ mjoin below))
        <$> mapM (λ c, composites osi fuel el minrank maxrank (a ++ [c])
                         (make_move c el free)) cands) as Hinner.
  { induction cands as [|c cands IHc]; intros cs'; simpl.
    - by rewrite app_nil_r.
    - rewrite IH.
      2:{ apply Forall_lookup. intros A v Hv.
          assert (A < length free) as HA.
          { apply lookup_lt_Some in Hv. by rewrite length_make_move in Hv. }
          apply list_lookup_total_correct in Hv as <-.
          rewrite make_move_lookup by done. apply length_zip_with. }
      destruct (composites osi fuel el minrank maxrank (a ++ [c])
                  (make_move c el free)) as [r|]; simpl.
      + rewrite unmake_make_move by done. rewrite IHc.
        destruct (mapM _ cands) as [below|]; simpl; [|done].
        by rewrite <-!(assoc_L (++)).
      + apply foldl_backtrack_None. }
  rewrite Hinner. destruct (mapM _ _) as [below|]; simpl; [|done].
  by rewrite <-!(assoc_L (++)).
Qed.

Lemma composites_prefix fuel a free r b :
  composites osi fuel el minrank maxrank a free = Some r → b ∈ r →
  ∃ ext, b = a ++ ext.
Proof.
  revert a free r b. induction fuel as [|fuel IH]; intros a free r b; simpl;
    [done|].
  destruct (mapM _ _) as [below|] eqn:Hbelow; simpl; [|done].
  intros [= <-]. rewrite elem_of_app, elem_of_process_contraction.
  intros [[-> _]|(r' & Hb & Hr')%list_elem_of_join].
  - exists []. by rewrite app_nil_r.
  - apply mapM_Some_1 in Hbelow.
    apply list_elem_of_lookup_1 in Hr' as [i Hi].
    destruct (Forall2_lookup_r _ _ _ _ _ Hbelow Hi) as (c & _ & Hc).
    destruct (IH _ _ _ _ Hc Hb) as [ext ->].
    exists (c :: ext). by rewrite <-(assoc_L (++)).
Qed.

(** What is recorded at a node and below it. *)
Lemma elem_of_composites fuel a free r b :
  composites osi fuel el minrank maxrank a free = Some r →
  b ∈ r ↔ ∃ ext, b = a ++ ext ∧ descends osi el a free ext
                 ∧ band (free_after el free ext).
Proof.
  revert a free r b. induction fuel as [|fuel IH]; intros a free r b; simpl;
    [done|].
  destruct (mapM _ _) as [below|] eqn:Hbelow; simpl; [|done].
  apply mapM_Some_1 in Hbelow.
  intros [= <-]. rewrite elem_of_app, elem_of_process_contraction. split.
  - intros [[-> ?]|(r' & Hb & Hr')%list_elem_of_join].
    + exists []. by rewrite app_nil_r.
    + apply list_elem_of_lookup_1 in Hr' as [i Hi].
      destruct (Forall2_lookup_r _ _ _ _ _ Hbelow Hi) as (c & Hci & Hc).
      apply (IH _ _ _ b) in Hc. apply Hc in Hb as (ext & -> & ? & ?).
      exists (c :: ext). simpl.
      split_and!; [by rewrite <-(assoc_L (++))| |done..].
      by eapply list_elem_of_lookup_2.
  - intros ([|c ext] & -> & Hdesc & Hband); simpl in *.
    + left. by rewrite app_nil_r.
    + right. destruct Hdesc as [Hc Hdesc].
      apply list_elem_of_lookup_1 in Hc as [i Hi].
      destruct (Forall2_lookup_l _ _ _ _ _ Hbelow Hi) as (r' & Hr' & Hc).
      apply list_elem_of_join. exists r'.
      split; [|by eapply list_elem_of_lookup_2].
      replace (a ++ c :: ext) with ((a ++ [c]) ++ ext)
        by (by rewrite <-(assoc_L (++))).
      apply (IH _ _ _ ((a ++ [c]) ++ ext) Hc). by exists ext.
Qed.

End backtracking.

Section descent.
Context (osi : OrbitalSpaceInfo).
Context (el : list (list DiagVertex)).
Implicit Types (free : list DiagVertex) (a ext b : list nat) (c A s : nat).

Lemma elementary_lookup nops c :
  Forall (elementary osi nops) el → c < length el →
  elementary osi nops (el !!! c).
Proof.
  intros Hel Hc. rewrite Forall_forall in Hel.
  by apply Hel, list_elem_of_lookup_total_2.
Qed.



Lemma free_after_app free ext1 ext2 :
  free_after el free (ext1 ++ ext2)
  = free_after el (free_after el free ext1) ext2.
Proof. apply foldl_app. Qed.

Lemma descends_app a free ext1 ext2 :
  descends osi el a free (ext1 ++ ext2) ↔
  descends osi el a free ext1
  ∧ descends osi el (a ++ ext1) (free_after el free ext1) ext2.
Proof.
  revert a free. induction ext1 as [|c ext1 IH]; intros a free; simpl.
  - rewrite app_nil_r. naive_solver.
  - rewrite IH, <-(assoc_L (++)). simpl. naive_solver.
Qed.

(** The nodes of the recursion are the stacks reached by descending from
    the root. *)
Lemma node_descends op_vertices a free :
  node osi el op_vertices a free ↔
  descends osi el [] op_vertices a ∧ free = free_after el op_vertices a.
Proof.
  split.
  - induction 1 as [|a free c _ [IH1 ->] Hc]; [done|].
    rewrite descends_app, free_after_app. simpl. done.
  - revert free. induction a as [|c a IH] using rev_ind; intros free.
    + intros [_ ->]. constructor.
    + rewrite descends_app, free_after_app. simpl.
      intros [(Ha & Hc & _) ->]. constructor; [by apply IH|done].
Qed.

Lemma descends_bounds a free ext :
  descends osi el a free ext → Forall (λ c, c < length el) ext.
Proof.
  revert a free. induction ext as [|c ext IH]; intros a free; simpl;
    [by constructor|].
  intros [[[_ Hc] _]%elem_of_construct_candidates Hext].
  constructor; [done|by eapply IH].
Qed.



(** Leg conservation along a descent. *)
Lemma free_after_legs free ext A s :
  A < length free → s < max_spaces_ →
  (Vertex.cre (free_after el free ext !!! A) s + contracted_cre el ext A s
   = Vertex.cre (free !!! A) s)%Z
  ∧ (Vertex.ann (free_after el free ext !!! A) s + contracted_ann el ext A s
     = Vertex.ann (free !!! A) s)%Z.
Proof.
  intros HA Hs. revert free HA.
  induction ext as [|c ext IH]; intros free HA; simpl; [lia|].
  destruct (IH (make_move c el free)) as [IH1 IH2];
    [by rewrite length_make_move|].
  rewrite make_move_lookup, cre_sub in IH1 by done.
  rewrite make_move_lookup, ann_sub in IH2 by done. lia.
Qed.


End descent.

Section composite_theorems.
Context (osi : OrbitalSpaceInfo).
Implicit Types (el : list (list DiagVertex)) (ops : list DiagOperator).
Implicit Types (free : list DiagVertex) (a : list nat).

Lemma good_operators ops :
  Forall (λ op, well_formed_vertex (vertex op)) ops →
  good (length ops) (vertex <$> ops).
Proof.
  intros Hwf. split; [by rewrite length_fmap|]. by apply Forall_fmap.
Qed.

Lemma generate_composite_contractions_composites el ops minrank maxrank :
  Forall (λ op, well_formed_vertex (vertex op)) ops →
  generate_composite_contractions osi el ops minrank maxrank
  = composites osi (S (Z.to_nat (operators_rank ops))) el minrank maxrank
      [] (vertex <$> ops).
Proof.
  intros Hwf. unfold generate_composite_contractions.
  rewrite backtrack_composites.
  - by destruct (composites _ _ _ _ _ _ _).
  - apply Forall_fmap. eapply Forall_impl; [done|]. by intros op [? _].
Qed.

Lemma recorded_node el ops minrank maxrank recorded a :
  Forall (λ op, well_formed_vertex (vertex op)) ops →
  generate_composite_contractions osi el ops minrank maxrank = Some recorded →
  a ∈ recorded ↔
  ∃ free, node osi el (vertex <$> ops) a free ∧ band minrank maxrank free.
Proof.
  intros Hwf. rewrite generate_composite_contractions_composites by done.
  intros Hrec. rewrite (elem_of_composites _ _ _ _ _ _ _ _ _ Hrec). split.
  - intros (ext & -> & Hdesc & Hband). eexists. split; [|done].
    by apply node_descends.
  - intros (free & [Hdesc ->]%node_descends & Hband). by exists a.
Qed.


Lemma vertex_beyond (v : DiagVertex) s :
  length v ≤ s → Vertex.vertex v s = (0, 0)%Z.
Proof. intros Hs. unfold Vertex.vertex. by rewrite lookup_ge_None_2. Qed.

Lemma node_fits el ops a free :
  Forall (λ op, well_formed_vertex (vertex op)) ops →
  node osi el (vertex <$> ops) a free →
  length free = length ops
  ∧ Forall (λ v, length v = max_spaces_) free ∧ fits osi free.
Proof.
  intros Hwf. induction 1 as [|a free c _ (Hlen & Hlens & Hfits) Hc].
  - split_and!; [by rewrite length_fmap| |].
    + apply Forall_fmap. eapply Forall_impl; [done|]. by intros op [? _].
    + intros A s HA Hs. rewrite length_fmap in HA.
      rewrite (list_lookup_total_fmap vertex ops A) by done.
      rewrite Forall_forall in Hwf.
      destruct (Hwf (ops !!! A)) as [Hl Hnn];
        [by apply list_elem_of_lookup_total_2|].
      destruct (decide (s < max_spaces_)) as [Hs'|Hs']; [by apply Hnn|].
      unfold Vertex.cre, Vertex.ann. rewrite vertex_beyond by lia. done.
  - apply elem_of_construct_candidates in Hc as [_ Hcompat].
    rewrite compatible_spec in Hcompat.
    assert (Forall (λ v, length v = max_spaces_) (make_move c el free))
      as Hlens'.
    { apply Forall_lookup. intros A v Hv.
      assert (A < length free) as HA.
      { apply lookup_lt_Some in Hv. by rewrite length_make_move in Hv. }
      apply list_lookup_total_correct in Hv as <-.
      rewrite make_move_lookup by done. apply length_zip_with. }
    split_and!; [by rewrite length_make_move|done|].
    intros A s HA Hs. rewrite length_make_move in HA.
    rewrite make_move_lookup by done.
    destruct (decide (s < max_spaces_)) as [Hs'|Hs'].
    + rewrite cre_sub, ann_sub by done. destruct (Hcompat A s HA Hs). lia.
    + unfold Vertex.cre, Vertex.ann. rewrite vertex_beyond; [done|].
      unfold Vertex.sub. rewrite length_zip_with. lia.
Qed.

(** C8. At every node of the backtracking recursion the free vertices
    plus the componentwise sum of the elementary contractions on the stack
    are the vertices of the operators, and no creation or annihilation
    count of the free vertices is negative; in particular this holds, with
    the free vertices its contractions leave, for every recorded
    composite. *)
Theorem leg_conservation el ops :
  Forall (λ op, well_formed_vertex (vertex op)) ops →
  (∀ a free, node osi el (vertex <$> ops) a free →
     conserved el ops a free ∧ fits osi free)
  ∧ (∀ minrank maxrank recorded a,
       generate_composite_contractions osi el ops minrank maxrank
       = Some recorded →
       a ∈ recorded →
       node osi el (vertex <$> ops) a (free_after el (vertex <$> ops) a)
       ∧ conserved el ops a (free_after el (vertex <$> ops) a)
       ∧ fits osi (free_after el (vertex <$> ops) a)).
Proof.
  intros Hwf.
  assert (∀ a free, node osi el (vertex <$> ops) a free →
            conserved el ops a free ∧ fits osi free) as Hnode.
  { intros a free Hn. destruct (node_fits el ops a free Hwf Hn) as (Hlen & _ & Hfits).
    split; [|done]. split; [done|]. intros A s HA Hs.
    apply node_descends in Hn as [_ ->].
    destruct (free_after_legs el (vertex <$> ops) a A s) as [Hcre Hann];
      [by rewrite length_fmap|done|].
    rewrite (list_lookup_total_fmap vertex ops A) in Hcre, Hann by done. done. }
  split; [done|].
  intros minrank maxrank recorded a Hgen Ha.
  apply (recorded_node el ops minrank maxrank recorded a Hwf Hgen) in Ha
    as (free & Hn & _).
  pose proof Hn as [_ ->]%node_descends.
  split; [done|by apply Hnode].
Qed.
End composite_theorems.

(** ** Integer partitions and compositions *)

Section partitions.
Implicit Types (p q : list nat) (part legs : list Z).

Lemma elem_of_partitions_bounded maxlen largest n p :
  p ∈ partitions_bounded maxlen largest n ↔
  Sorted ge p ∧ Forall (λ x, 1 ≤ x ≤ largest) p
  ∧ sum_list p = n ∧ length p ≤ maxlen.
Proof.
  revert largest n p. induction maxlen as [|maxlen IH]; intros largest n p.
  - destruct n as [|n]; simpl.
    + rewrite list_elem_of_singleton. split.
      * intros ->. split_and!; [constructor|constructor|done|done].
      * intros (_ & _ & _ & Hlen). by destruct p; simpl in *; [|lia].
    + rewrite elem_of_nil. split; [done|].
      intros (_ & _ & Hsum & Hlen). destruct p; simpl in *; [done|lia].
  - destruct n as [|n]; simpl.
    + rewrite list_elem_of_singleton. split.
      * intros ->. split_and!; [constructor|constructor|done|simpl; lia].
      * intros (_ & Hall & Hsum & _). destruct p as [|x p]; [done|].
        apply Forall_cons in Hall as [? _]. simpl in Hsum. lia.
    + rewrite list_elem_of_bind. split.
      * intros (x & Hp & Hx%elem_of_reverse%elem_of_seq).
        apply list_elem_of_fmap in Hp as (p' & -> & Hp').
        apply IH in Hp' as (Hsorted & Hall & Hsum & Hlen).
        split_and!.
        -- constructor; [done|]. destruct Hall as [|y p' [_ ?] _];
             constructor. lia.
        -- constructor; [lia|]. eapply Forall_impl; [done|]. simpl. lia.
        -- simpl. lia.
        -- simpl. lia.
      * intros (Hsorted & Hall & Hsum & Hlen).
        destruct p as [|x p]; [done|].
        apply Sorted_StronglySorted in Hsorted; [|intros ???; lia].
        apply StronglySorted_inv in Hsorted as [Hsorted Hhd].
        apply Forall_cons in Hall as [Hx Hall]. simpl in Hsum, Hlen.
        exists x. split; [|apply elem_of_reverse, elem_of_seq; lia].
        apply list_elem_of_fmap. exists p. split; [done|]. apply IH.
        split_and!; [by apply StronglySorted_Sorted| |lia|lia].
        rewrite Forall_forall in *. intros y Hy.
        specialize (Hall y Hy). specialize (Hhd y Hy). lia.
Qed.


Lemma int_sum_cons x legs : int_sum (x :: legs) = (x + int_sum legs)%Z.
Proof. done. Qed.

Lemma int_sum_of_nat p : int_sum (Z.of_nat <$> p) = Z.of_nat (sum_list p).
Proof.
  induction p as [|x p IH]; [done|].
  rewrite fmap_cons, int_sum_cons, IH. simpl. lia.
Qed.

Lemma int_sum_app legs1 legs2 :
  int_sum (legs1 ++ legs2) = (int_sum legs1 + int_sum legs2)%Z.
Proof.
  induction legs1 as [|x legs1 IH]; [done|].
  rewrite <-app_comm_cons, !int_sum_cons, IH. lia.
Qed.

Lemma int_sum_replicate_0 n : int_sum (replicate n 0%Z) = 0%Z.
Proof.
  induction n as [|n IH]; [done|].
  change (replicate (S n) 0%Z) with (0%Z :: replicate n 0%Z).
  by rewrite int_sum_cons, IH.
Qed.

Global Instance int_sum_Permutation : Proper ((≡ₚ) ==> (=)) int_sum.
Proof.
  induction 1 as [|x l1 l2 _ IH|x y l|l1 l2 l3 _ IH1 _ IH2];
    rewrite ?int_sum_cons; [done|lia|lia|congruence].
Qed.

Lemma int_sum_nonneg legs :
  Forall (λ x, (0 ≤ x)%Z) legs → (0 ≤ int_sum legs)%Z.
Proof. induction 1; rewrite ?int_sum_cons; [done|lia]. Qed.

(** The model of [integer_partitions] lists the partitions, each once. *)
Lemma elem_of_integer_partitions n maxlen part :
  (0 ≤ n)%Z →
  part ∈ integer_partitions n maxlen ↔ partition_of n maxlen part.
Proof.
  intros Hn. unfold integer_partitions, partition_of.
  rewrite list_elem_of_fmap. split.
  - intros (p & -> & (Hsorted & Hall & Hsum & Hlen)%elem_of_partitions_bounded).
    split_and!.
    + eapply Sorted_fmap; [|done]. simpl. lia.
    + apply Forall_fmap. eapply Forall_impl; [done|]. simpl. lia.
    + rewrite int_sum_of_nat, Hsum. lia.
    + by rewrite length_fmap.
  - intros (Hsorted & Hall & Hsum & Hlen). exists (Z.to_nat <$> part).
    assert (Z.of_nat <$> (Z.to_nat <$> part) = part) as Hback.
    { rewrite <-list_fmap_compose.
      rewrite <-(list_fmap_id part) at 2. apply list_fmap_ext.
      intros i x Hx%list_elem_of_lookup_2. simpl.
      rewrite Forall_forall in Hall. specialize (Hall x Hx). lia. }
    split; [done|].
    assert (sum_list (Z.to_nat <$> part) = Z.to_nat n) as Hsum'.
    { apply Nat2Z.inj. rewrite <-int_sum_of_nat, Hback. lia. }
    apply elem_of_partitions_bounded. split_and!.
    + eapply Sorted_fmap; [|done]. simpl. lia.
    + apply Forall_forall. intros x (y & -> & Hy)%list_elem_of_fmap.
      rewrite Forall_forall in Hall. specialize (Hall y Hy).
      split; [lia|]. rewrite <-Hsum'.
      apply (sum_list_with_in (Z.to_nat y) id).
      by apply (list_elem_of_fmap_2 Z.to_nat).
    + done.
    + by rewrite length_fmap.
Qed.
End partitions.

Section compositions.
Implicit Types (part legs : list Z) (ops : list DiagOperator).


Lemma elem_of_padded_permutations part nops legs :
  legs ∈ padded_permutations part nops ↔
  legs ≡ₚ part ++ replicate (nops - length part) 0%Z.
Proof.
  unfold padded_permutations.
  by rewrite next_permutation_loop_spec, std_sort_Permutation.
Qed.


Lemma filter_all {A} (P : A → Prop) `{!∀ x, Decision (P x)} (l : list A) :
  Forall P l → filter P l = l.
Proof.
  induction 1 as [|x l Hx _ IH]; [done|].
  by rewrite filter_cons, decide_True, IH.
Qed.



Global Instance Z_ge_total : Total Z.ge.
Proof. intros x y. lia. Qed.
Global Instance Z_ge_trans : Transitive Z.ge.
Proof. intros x y z. lia. Qed.
Global Instance Z_ge_antisymm : AntiSymm (=) Z.ge.
Proof. intros x y. lia. Qed.


(** The compositions are the rearrangements of the zero-padded
    partitions. *)
Lemma composition_partition k nops legs :
  composition k nops legs ↔
  ∃ part, partition_of k nops part
          ∧ legs ≡ₚ part ++ replicate (nops - length part) 0%Z.
Proof.
  split.
  - intros (Hlen & Hnn & Hsum).
    set (positive := filter (λ x, (0 < x)%Z) legs).
    assert (legs ≡ₚ positive ++ replicate (nops - length positive) 0%Z)
      as Hsplit.
    { rewrite <-(filter_app_complement (λ x, (0 < x)%Z) legs) at 1.
      fold positive. f_equiv.
      assert (length (filter (λ x, ¬ (0 < x)%Z) legs)
              = nops - length positive) as <-.
      { pose proof (filter_app_complement (λ x, (0 < x)%Z) legs) as Hc.
        apply Permutation_length in Hc. rewrite length_app in Hc.
        fold positive in Hc. lia. }
      assert (Forall (λ x, x = 0%Z) (filter (λ x, ¬ (0 < x)%Z) legs)) as Hz.
      { apply Forall_forall. intros x [Hx Hin]%list_elem_of_filter.
        rewrite Forall_forall in Hnn. specialize (Hnn x Hin). lia. }
      clear -Hz. induction Hz as [|x l -> _ IH]; [done|]. simpl. by f_equiv. }
    pose proof (merge_sort_Permutation Z.ge positive) as Hms.
    exists (merge_sort Z.ge positive). split.
    + split_and!.
      * apply Sorted_merge_sort. apply _.
      * rewrite Hms. apply Forall_forall.
        intros x [Hx _]%list_elem_of_filter. lia.
      * rewrite Hms, <-Hsum, Hsplit, int_sum_app, int_sum_replicate_0. lia.
      * rewrite Hms. subst positive.
        pose proof (length_filter (λ x, (0 < x)%Z) legs). lia.
    + rewrite (Permutation_length Hms). by rewrite Hms.
  - intros (part & (Hsorted & Hpos & Hsum & Hlen) & Hperm).
    split_and!.
    + rewrite Hperm, length_app, length_replicate. lia.
    + rewrite Hperm. apply Forall_app. split.
      * eapply Forall_impl; [done|]. simpl. lia.
      * apply Forall_replicate. lia.
    + by rewrite Hperm, int_sum_app, int_sum_replicate_0, Z.add_0_r.
Qed.

(** The leg distributions collected for one number of legs: the
    compositions that pass the compatibility test, each once. *)
Lemma elem_of_legs_vec (P : list Z → Prop) `{!∀ x, Decision (P x)}
    half_legs nops legs :
  (0 ≤ half_legs)%Z →
  legs ∈ (part ← integer_partitions half_legs nops;
          filter P (padded_permutations part nops))
  ↔ composition half_legs nops legs ∧ P legs.
Proof.
  intros Hk. rewrite list_elem_of_bind, composition_partition. split.
  - intros (part & [HP Hperm%elem_of_padded_permutations]%list_elem_of_filter
                 & Hpart%elem_of_integer_partitions); [|done].
    split; [by exists part|done].
  - intros [(part & Hpart & Hperm) HP]. exists part. split.
    + apply list_elem_of_filter. split; [done|].
      by apply elem_of_padded_permutations.
    + by apply elem_of_integer_partitions.
Qed.

End compositions.

(** ** Step 1: contractions of a general space *)

Section general_contractions.
Context (osi : OrbitalSpaceInfo).
Implicit Types (ops : list DiagOperator) (s A nops : nat).
Implicit Types (cre_legs ann_legs legs : list Z).

Lemma cre_compatible_spec ops s legs :
  cre_compatible ops s legs = true ↔
  ∀ A, A < length ops → (int_at legs A ≤ op_cre (ops !!! A) s)%Z.
Proof.
  unfold cre_compatible. rewrite forallb_forall. split.
  - intros Hall A HA. specialize (Hall A). rewrite in_seq in Hall.
    specialize (Hall ltac:(lia)). apply bool_decide_eq_true in Hall. lia.
  - intros Hall A HA%in_seq. apply bool_decide_eq_true.
    specialize (Hall A ltac:(lia)). lia.
Qed.

Lemma ann_compatible_spec ops s legs :
  ann_compatible ops s legs = true ↔
  ∀ A, A < length ops → (int_at legs A ≤ op_ann (ops !!! A) s)%Z.
Proof.
  unfold ann_compatible. rewrite forallb_forall. split.
  - intros Hall A HA. specialize (Hall A). rewrite in_seq in Hall.
    specialize (Hall ltac:(lia)). apply bool_decide_eq_true in Hall. lia.
  - intros Hall A HA%in_seq. apply bool_decide_eq_true.
    specialize (Hall A ltac:(lia)). lia.
Qed.

Lemma elem_of_cre_legs_vec ops s half_legs legs :
  (0 ≤ half_legs)%Z →
  legs ∈ cre_legs_vec ops s half_legs ↔
  composition half_legs (length ops) legs
  ∧ ∀ A, A < length ops → (int_at legs A ≤ op_cre (ops !!! A) s)%Z.
Proof.
  intros Hk. unfold cre_legs_vec.
  by rewrite (elem_of_legs_vec (λ perm, cre_compatible ops s perm = true)),
    cre_compatible_spec.
Qed.

Lemma elem_of_ann_legs_vec ops s half_legs legs :
  (0 ≤ half_legs)%Z →
  legs ∈ ann_legs_vec ops s half_legs ↔
  composition half_legs (length ops) legs
  ∧ ∀ A, A < length ops → (int_at legs A ≤ op_ann (ops !!! A) s)%Z.
Proof.
  intros Hk. unfold ann_legs_vec.
  by rewrite (elem_of_legs_vec (λ perm, ann_compatible ops s perm = true)),
    ann_compatible_spec.
Qed.


Lemma general_vertex_legs s ncre nann s' :
  s < max_spaces_ →
  Vertex.cre (general_vertex s ncre nann) s' = (if decide (s' = s) then ncre else 0%Z)
  ∧ Vertex.ann (general_vertex s ncre nann) s' = (if decide (s' = s) then nann else 0%Z).
Proof.
  intros Hs. unfold general_vertex.
  rewrite cre_set_ann, ann_set_ann, cre_set_cre, ann_set_cre, cre_zero, ann_zero
    by (rewrite ?length_set_cre; done).
  done.
Qed.



Lemma general_contraction_lookup nops s cre_legs ann_legs A :
  A < nops →
  general_contraction nops s cre_legs ann_legs !! A
  = Some (general_vertex s (int_at cre_legs A) (int_at ann_legs A)).
Proof.
  intros HA. unfold general_contraction.
  by rewrite list_lookup_fmap, lookup_seq_lt.
Qed.




End general_contractions.

Section general_contractions_theorem.
Context (osi : OrbitalSpaceInfo).
Implicit Types (ops : list DiagOperator) (s A nops : nat).
Implicit Types (cre_legs ann_legs legs : list Z).

Lemma foldl_int_sum {B} (f : B → Z) (l : list B) :
  foldl (λ acc x, acc + f x)%Z 0%Z l = int_sum (f <$> l).
Proof.
  assert (∀ z, foldl (λ acc x, acc + f x)%Z z l = (z + int_sum (f <$> l))%Z)
    as Hz.
  { induction l as [|x l IH]; intros z; [unfold int_sum; simpl; lia|].
    rewrite fmap_cons, int_sum_cons. cbn [foldl]. rewrite IH. lia. }
  by rewrite Hz.
Qed.


Lemma elem_of_general_contractions_of ops s half_legs contraction :
  (0 ≤ half_legs)%Z →
  contraction ∈ general_contractions_of ops s half_legs ↔
  ∃ cre_legs ann_legs,
    composition half_legs (length ops) cre_legs
    ∧ composition half_legs (length ops) ann_legs
    ∧ (∀ A, A < length ops →
         (int_at cre_legs A ≤ op_cre (ops !!! A) s)%Z
         ∧ (int_at ann_legs A ≤ op_ann (ops !!! A) s)%Z)
    ∧ 2 ≤ nops_contracted (length ops) cre_legs ann_legs
    ∧ contraction = general_contraction (length ops) s cre_legs ann_legs.
Proof.
  intros Hk. unfold general_contractions_of. rewrite list_elem_of_bind. split.
  - intros (cre_legs & (ann_legs & Hin & Hann)%list_elem_of_bind & Hcre).
    apply elem_of_cre_legs_vec in Hcre as [Hcre Hccap]; [|done].
    apply elem_of_ann_legs_vec in Hann as [Hann Hacap]; [|done].
    case_decide; [by apply elem_of_nil in Hin|].
    apply list_elem_of_singleton in Hin as ->.
    exists cre_legs, ann_legs. split_and!; [done|done| |lia|done].
    intros A HA. split; [by apply Hccap|by apply Hacap].
  - intros (cre_legs & ann_legs & Hcre & Hann & Hcap & Hn & ->).
    exists cre_legs. split.
    + apply list_elem_of_bind. exists ann_legs. split.
      * rewrite decide_False by lia. by left.
      * apply elem_of_ann_legs_vec; [done|]. split; [done|].
        intros A HA. by apply Hcap.
    + apply elem_of_cre_legs_vec; [done|]. split; [done|].
      intros A HA. by apply Hcap.
Qed.


End general_contractions_theorem.

(** ** The combinatorial factor *)

Section products.

Lemma Qc_prod_cons x xs : Qc_prod (x :: xs) = (x * Qc_prod xs)%Qc.
Proof. done. Qed.

Lemma Qc_prod_nil : Qc_prod [] = 1%Qc.
Proof. done. Qed.

Lemma Qc_prod_app xs ys : Qc_prod (xs ++ ys) = (Qc_prod xs * Qc_prod ys)%Qc.
Proof.
  induction xs as [|x xs IH].
  - rewrite app_nil_l, Qc_prod_nil. ring.
  - rewrite <-app_comm_cons, !Qc_prod_cons, IH. ring.
Qed.

Global Instance Qc_prod_Permutation : Proper ((≡ₚ) ==> (=)) Qc_prod.
Proof.
  induction 1 as [|x l k _ IH|x y l|l k m _ IH1 _ IH2];
    rewrite ?Qc_prod_cons; [done|by rewrite IH|ring|congruence].
Qed.

Lemma Qc_prod_bind_ext {B} (g h : B → list scalar_t) (l : list B) :
  (∀ x, x ∈ l → g x = h x) → Qc_prod (l ≫= g) = Qc_prod (l ≫= h).
Proof.
  induction l as [|x l IH]; intros Hgh; [done|].
  rewrite !bind_cons, !Qc_prod_app, IH, (Hgh x); [done|left|].
  intros y Hy. apply Hgh. by right.
Qed.

Lemma Qc_prod_bind_snoc {B} (g : B → list scalar_t) (l : list B) x :
  Qc_prod ((l ++ [x]) ≫= g) = (Qc_prod (l ≫= g) * Qc_prod (g x))%Qc.
Proof. rewrite bind_app, Qc_prod_app, bind_cons. cbn. by rewrite app_nil_r. Qed.


Lemma foldr_Qcdiv {B} (F : B → scalar_t → scalar_t) (g : B → scalar_t)
    (l : list B) (f : scalar_t) :
  (∀ x f', F x f' = (f' / g x)%Qc) →
  foldr F f l = (f / Qc_prod (g <$> l))%Qc.
Proof.
  intros HF. induction l as [|x l IH]; cbn [foldr fmap list_fmap].
  - rewrite Qc_prod_nil. unfold Qcdiv. change (/ 1)%Qc with 1%Qc. ring.
  - rewrite HF, IH, Qc_prod_cons. unfold Qcdiv.
    rewrite Qcinv_mult_distr. ring.
Qed.

Lemma choose_1 n : choose n 1 = n.
Proof.
  induction n as [|n IH]; [done|]. cbn [choose]. rewrite IH.
  destruct n; cbn; lia.
Qed.

Lemma binomial_1 (m : Z) : (0 ≤ m)%Z → binomial m 1 = m.
Proof.
  intros Hm. unfold binomial. rewrite decide_False by lia.
  change (Z.to_nat 1) with 1. rewrite choose_1. lia.
Qed.

End products.

Section combinatorial.
Context (osi : OrbitalSpaceInfo).
Implicit Types (ops : list DiagOperator) (s A i : nat).
Implicit Types (c : list DiagVertex) (cs : list (list DiagVertex)).
Implicit Types (fv : list DiagVertex) (f : scalar_t).

Lemma bind_singleton {B C} (g : B → C) (l : list B) :
  l ≫= (λ x, [g x]) = g <$> l.
Proof.
  induction l as [|x l IH]; [done|]. by rewrite bind_cons, IH, fmap_cons.
Qed.

Lemma space_loop_product (v w : DiagVertex) (l : list nat) f :
  foldl (λ factor s,
           let '(kcre, kann) := Vertex.vertex v s in
           let '(ncre, nann) := Vertex.vertex w s in
           (factor * Qc_of_Z (binomial ncre kcre)
                   * Qc_of_Z (binomial nann kann))%Qc) f l
  = (f * Qc_prod (choices w v <$> l))%Qc.
Proof.
  revert f. induction l as [|s l IH]; intros f; cbn [foldl].
  - rewrite fmap_nil, Qc_prod_nil. ring.
  - rewrite IH, fmap_cons, Qc_prod_cons. unfold choices at 2.
    unfold Vertex.cre, Vertex.ann.
    destruct (Vertex.vertex v s), (Vertex.vertex w s). cbn [fst snd]. ring.
Qed.

Lemma vertex_loop n c f fv :
  n ≤ length fv →
  let r :=
    foldl (λ '(factor, free_vertices) v,
             let vertex := c !!! v in
             let factor :=
               foldl (λ factor s,
                        let '(kcre, kann) := Vertex.vertex vertex s in
                        let '(ncre, nann) :=
                          Vertex.vertex (free_vertices !!! v) s in
                        (factor * Qc_of_Z (binomial ncre kcre)
                                * Qc_of_Z (binomial nann kann))%Qc)
                 factor (seq 0 (num_spaces osi)) in
             (factor, alter (λ free_vertex, Vertex.sub free_vertex vertex)
                        v free_vertices))
      (f, fv) (seq 0 n) in
  r.1 = (f * Qc_prod (A ← seq 0 n; s ← seq 0 (num_spaces osi);
                      [choices (fv !!! A) (c !!! A) s]))%Qc
  ∧ length r.2 = length fv
  ∧ ∀ A, r.2 !!! A
         = if decide (A < n) then Vertex.sub (fv !!! A) (c !!! A)
           else fv !!! A.
Proof.
  induction n as [|n IH]; intros Hn; cbn zeta.
  - cbn. split; [ring|done].
  - rewrite seq_S, foldl_snoc. cbn [Nat.add].
    destruct IH as (IH1 & IH2 & IH3); [lia|].
    destruct (foldl _ (f, fv) (seq 0 n)) as [f' fv']. cbn [fst snd] in *.
    rewrite space_loop_product, Qc_prod_bind_snoc, bind_singleton, IH1.
    rewrite (IH3 n), decide_False by lia.
    split; [ring|]. split; [by rewrite length_alter|].
    intros A. destruct (decide (A = n)) as [->|HA].
    + rewrite list_lookup_total_alter_eq by lia.
      by rewrite decide_True, (IH3 n), decide_False by lia.
    + rewrite list_lookup_total_alter_ne, (IH3 A) by done.
      destruct (decide (A < n)), (decide (A < S n)); done || lia.
Qed.

Lemma apply_contraction_spec c f fv :
  length c ≤ length fv →
  (apply_contraction osi c (f, fv)).1
  = (f * Qc_prod (A ← seq 0 (length c); s ← seq 0 (num_spaces osi);
                  [choices (fv !!! A) (c !!! A) s]))%Qc
  ∧ length (apply_contraction osi c (f, fv)).2 = length fv
  ∧ ∀ A, (apply_contraction osi c (f, fv)).2 !!! A
         = if decide (A < length c) then Vertex.sub (fv !!! A) (c !!! A)
           else fv !!! A.
Proof. intros Hc. apply (vertex_loop (length c) c f fv Hc). Qed.

Lemma bind_ext_in {B C} (g h : B → list C) (l : list B) :
  (∀ x, x ∈ l → g x = h x) → l ≫= g = l ≫= h.
Proof.
  induction l as [|x l IH]; intros Hgh; [done|].
  rewrite !bind_cons, IH, (Hgh x); [done|left|].
  intros y Hy. apply Hgh. by right.
Qed.

Lemma free_cre_before_nil ops i A s :
  free_cre_before ops [] i A s = op_cre (ops !!! A) s.
Proof. unfold free_cre_before. rewrite take_nil. cbn. lia. Qed.
Lemma free_ann_before_nil ops i A s :
  free_ann_before ops [] i A s = op_ann (ops !!! A) s.
Proof. unfold free_ann_before. rewrite take_nil. cbn. lia. Qed.

Lemma free_cre_before_snoc ops cs c A s :
  free_cre_before ops (cs ++ [c]) (length (cs ++ [c])) A s
  = (free_cre_before ops cs (length cs) A s - Vertex.cre (c !!! A) s)%Z.
Proof.
  unfold free_cre_before. rewrite !firstn_all, fmap_app, int_sum_app.
  rewrite fmap_cons, fmap_nil, int_sum_cons. cbn. lia.
Qed.
Lemma free_ann_before_snoc ops cs c A s :
  free_ann_before ops (cs ++ [c]) (length (cs ++ [c])) A s
  = (free_ann_before ops cs (length cs) A s - Vertex.ann (c !!! A) s)%Z.
Proof.
  unfold free_ann_before. rewrite !firstn_all, fmap_app, int_sum_app.
  rewrite fmap_cons, fmap_nil, int_sum_cons. cbn. lia.
Qed.

Lemma leg_choices_app ops cs c i A s :
  i < length cs →
  leg_choices ops (cs ++ [c]) i A s = leg_choices ops cs i A s.
Proof.
  intros Hi. unfold leg_choices, free_cre_before, free_ann_before.
  by rewrite take_app_le, lookup_total_app_l by lia.
Qed.

Lemma leg_choices_last ops cs c A s fv :
  Vertex.cre (fv !!! A) s = free_cre_before ops cs (length cs) A s →
  Vertex.ann (fv !!! A) s = free_ann_before ops cs (length cs) A s →
  choices (fv !!! A) (c !!! A) s = leg_choices ops (cs ++ [c]) (length cs) A s.
Proof.
  intros Hcre Hann. unfold choices, leg_choices. rewrite Hcre, Hann.
  unfold free_cre_before, free_ann_before.
  by rewrite take_app_length, firstn_all, list_lookup_total_middle.
Qed.

Lemma contraction_loop ops cs :
  num_spaces osi ≤ max_spaces_ →
  Forall (λ c, length c = length ops) cs →
  let r := foldl (λ st c, apply_contraction osi c st)
             (1%Qc, vertex <$> ops) cs in
  r.1 = binomial_product osi ops cs
  ∧ length r.2 = length ops
  ∧ ∀ A s, A < length ops → s < max_spaces_ →
      Vertex.cre (r.2 !!! A) s = free_cre_before ops cs (length cs) A s
      ∧ Vertex.ann (r.2 !!! A) s = free_ann_before ops cs (length cs) A s.
Proof.
  intros Hosi. induction cs as [|c cs IH] using rev_ind; intros Hcs; cbn zeta.
  - cbn [foldl fst snd]. split; [done|]. split; [by rewrite length_fmap|].
    intros A s HA Hs.
    rewrite free_cre_before_nil, free_ann_before_nil.
    by rewrite (list_lookup_total_fmap vertex ops A).
  - apply Forall_app in Hcs as [Hcs Hc]. rewrite Forall_singleton in Hc.
    destruct (IH Hcs) as (IH1 & IH2 & IH3). clear IH.
    rewrite foldl_snoc.
    destruct (foldl _ (1%Qc, vertex <$> ops) cs) as [f fv].
    cbn [fst snd] in *.
    destruct (apply_contraction_spec c f fv) as (H1 & H2 & H3); [lia|].
    split; [|split; [lia|]].
    + rewrite H1, IH1. unfold binomial_product.
      rewrite length_app, Nat.add_1_r, seq_S, Qc_prod_bind_snoc.
      cbn [Nat.add length]. f_equal.
      * f_equal. apply bind_ext_in. intros i Hi%elem_of_seq.
        apply bind_ext_in. intros A _. apply bind_ext_in. intros s _.
        by rewrite leg_choices_app by lia.
      * rewrite Hc. f_equal. apply bind_ext_in. intros A HA%elem_of_seq.
        apply bind_ext_in. intros s Hs%elem_of_seq.
        destruct (IH3 A s) as [Hcre Hann]; [lia..|].
        by rewrite (leg_choices_last ops cs c A s fv).
    + intros A s HA Hs. rewrite H3, decide_True by lia.
      rewrite cre_sub, ann_sub by done.
      rewrite free_cre_before_snoc, free_ann_before_snoc.
      destruct (IH3 A s) as [-> ->]; done.
Qed.

Lemma multiplicity_snoc c x cs :
  multiplicity c (cs ++ [x])
  = multiplicity c cs + (if decide (x = c) then 1 else 0).
Proof.
  unfold multiplicity. rewrite filter_app, length_app. f_equal.
  rewrite filter_cons, filter_nil. by destruct (decide (x = c)).
Qed.

Lemma multiplicity_not_elem_of c cs : c ∉ cs → multiplicity c cs = 0.
Proof.
  unfold multiplicity. induction cs as [|x cs IH]; intros Hc; [done|].
  apply not_elem_of_cons in Hc as [Hx Hc].
  rewrite filter_cons, decide_False by done. by apply IH.
Qed.

Lemma count_contractions_lookup cs c :
  count_contractions cs !! c
  = if decide (c ∈ cs) then Some (Z.of_nat (multiplicity c cs)) else None.
Proof.
  unfold count_contractions.
  induction cs as [|x cs IH] using rev_ind.
  - cbn [foldl]. rewrite lookup_empty, decide_False; [done|].
    apply not_elem_of_nil.
  - rewrite foldl_snoc, multiplicity_snoc.
    destruct (decide (x = c)) as [->|Hx].
    + rewrite lookup_insert_eq, IH.
      rewrite (decide_True (P := c ∈ cs ++ [c]))
        by (apply elem_of_app; right; apply list_elem_of_singleton; done).
      destruct (decide (c ∈ cs)) as [Hc|Hc]; cbn [default from_option id];
        f_equal; [lia|].
      rewrite multiplicity_not_elem_of by done. lia.
    + rewrite lookup_insert_ne, IH, Nat.add_0_r by done.
      destruct (decide (c ∈ cs)) as [Hc|Hc],
        (decide (c ∈ cs ++ [x])) as [Hc'|Hc']; [done| | |done].
      * destruct Hc'. apply elem_of_app. by left.
      * apply elem_of_app in Hc' as [?|Hc']; [done|].
        apply list_elem_of_singleton in Hc'. congruence.
Qed.

Lemma count_contractions_to_list cs :
  map_to_list (count_contractions cs)
  ≡ₚ (λ c, (c, Z.of_nat (multiplicity c cs))) <$> remove_dups cs.
Proof.
  apply NoDup_Permutation.
  - apply NoDup_map_to_list.
  - apply NoDup_fmap_2; [|apply NoDup_remove_dups].
    intros c1 c2 [=]. done.
  - intros [c n]. rewrite elem_of_map_to_list, count_contractions_lookup.
    rewrite list_elem_of_fmap. setoid_rewrite elem_of_remove_dups.
    destruct (decide (c ∈ cs)); naive_solver.
Qed.

Lemma count_loop cs f :
  map_fold (λ _ count factor, (factor / Qc_of_Z (binomial count 1))%Qc)
    f (count_contractions cs)
  = (f / multiplicity_product cs)%Qc.
Proof.
  rewrite map_fold_foldr.
  rewrite (foldr_Qcdiv _ (λ kv, Qc_of_Z (binomial kv.2 1)))
    by (by intros []).
  rewrite count_contractions_to_list, <-list_fmap_compose.
  unfold multiplicity_product. do 2 f_equal.
  apply list_fmap_ext. intros _ c _. cbn. by rewrite binomial_1 by lia.
Qed.

(** C2: for operators [ops] and contractions [contractions], each with
    one vertex per operator, [combinatorial_factor] returns the product,
    over the contractions in order, the operator positions [A] and the
    spaces [s], of [binomial(n_cre, k_cre) * binomial(n_ann, k_ann)], the
    [n]'s being the free legs of [A] before the contraction is applied,
    divided by the multiplicity of every distinct elementary contraction
    of the composite. *)
Theorem combinatorial_factor_spec ops cs :
  num_spaces osi ≤ max_spaces_ →
  Forall (λ c, length c = length ops) cs →
  combinatorial_factor osi ops cs
  = (binomial_product osi ops cs / multiplicity_product cs)%Qc.
Proof.
  intros Hosi Hcs. unfold combinatorial_factor.
  destruct (contraction_loop ops cs Hosi Hcs) as (Hf & _).
  destruct (foldl _ (1%Qc, vertex <$> ops) cs) as [f fv].
  cbn [fst] in Hf. by rewrite count_loop, Hf.
Qed.

End combinatorial.

Lemma combinatorial_factor_spec_witness :
  combinatorial_factor osi_ov [Voovv; T2]
    (replicate 2 (pair_contraction 2 0 0 1)
     ++ replicate 2 (pair_contraction 2 1 1 0))
  = (binomial_product osi_ov [Voovv; T2]
       (replicate 2 (pair_contraction 2 0 0 1)
        ++ replicate 2 (pair_contraction 2 1 1 0))
     / multiplicity_product
         (replicate 2 (pair_contraction 2 0 0 1)
          ++ replicate 2 (pair_contraction 2 1 1 0)))%Qc.
Proof.
  apply (combinatorial_factor_spec osi_ov).
  - vm_compute. lia.
  - repeat constructor.
Defined.

(** ** The evaluation of a contraction *)

Lemma bind_Returns {C D} (m : outcome C) (k : C → outcome D) b :
  m ≫= k = Returns b ↔ ∃ a, m = Returns a ∧ k a = Returns b.
Proof.
  destruct m as [a| |]; cbn; [|naive_solver..].
  split; [by exists a|]. by intros (? & [= <-] & ?).
Qed.

Section outcomes.
Context {A B : Type}.

Lemma bind_strict (F : A → B → outcome A) :
  strict (λ m x, m ≫= λ st, F st x).
Proof. intros m x st' (st & -> & _)%bind_Returns. by exists st. Qed.

(** A loop that has left the normal course does not come back to it. *)
Lemma foldl_strict (G : outcome A → B → outcome A) (m : outcome A) l a :
  strict G → foldl G m l = Returns a → ∃ a0, m = Returns a0.
Proof.
  intros HG. revert m.
  induction l as [|x l IH]; intros m; cbn [foldl]; [by exists a|].
  intros [a1 Ha1]%IH. by apply HG in Ha1.
Qed.


Lemma foldl_inv (P : A → Prop) (f : A → B → A) l a0 :
  P a0 → (∀ st x, P st → P (f st x)) → P (foldl f a0 l).
Proof.
  revert a0. induction l as [|x l IH]; intros a0 Ha0 Hf; cbn [foldl]; auto.
Qed.

End outcomes.

Section layout.
Context (osi : OrbitalSpaceInfo).

Lemma lay_out_laid_out type o s slot (st : layout * list Index) :
  laid_out st.1 → laid_out (lay_out type o s slot st).1.
Proof.
  destruct st as [lay indices]. cbn [fst]. intros [Hn Htyped].
  unfold lay_out.
  destruct (next_index (lay_ic lay) s) as [i ic]. cbn [fst].
  split; cbn [lay_n lay_sqops lay_op_map].
  - rewrite length_app, Hn. done.
  - intros v s' creation slot' pos Hpos.
    destruct (decide ((o, s, bool_decide (type = Creation), slot)
                      = (v, s', creation, slot'))) as [[= <- <- <- <-]|Hne].
    + rewrite lookup_insert_eq in Hpos. injection Hpos as <-.
      eexists. rewrite Hn, list_lookup_middle by done.
      split; [done|]. by destruct type.
    + rewrite lookup_insert_ne in Hpos by done.
      destruct (Htyped _ _ _ _ _ Hpos) as (sqop & Hsqop & Htype).
      exists sqop. split; [|done]. by apply lookup_app_l_Some.
Qed.

Lemma lay_out_operator_laid_out o op (st : layout * list Tensor) :
  laid_out st.1 → laid_out (lay_out_operator osi o op st).1.
Proof.
  destruct st as [lay op_tensors]. cbn [fst]. intros Hlay.
  unfold lay_out_operator.
  match goal with
  | |- context [foldl ?f (lay, []) (seq 0 (num_spaces osi))] =>
      assert (laid_out (foldl f (lay, []) (seq 0 (num_spaces osi))).1)
        as Hlower;
      [|destruct (foldl f (lay, []) (seq 0 (num_spaces osi)))
          as [lay1 lower]]
  end.
  { apply (foldl_inv (λ st, laid_out st.1)); [done|]. intros st s Hst.
    apply (foldl_inv (λ st, laid_out st.1)); [done|]. intros st' c Hst'.
    by apply lay_out_laid_out. }
  cbn [fst] in Hlower.
  match goal with
  | |- context [foldl ?f (lay1, []) ?l] =>
      assert (laid_out (foldl f (lay1, []) l).1) as Hupper;
      [|destruct (foldl f (lay1, []) l) as [lay2 upper]]
  end.
  { apply (foldl_inv (λ st, laid_out st.1)); [done|]. intros st s Hst.
    apply (foldl_inv (λ st, laid_out st.1)); [done|]. intros st' c Hst'.
    by apply lay_out_laid_out. }
  done.
Qed.

Lemma contraction_tensors_sqops_typed ops :
  typed (contraction_tensors_sqops osi ops).1.2
    (contraction_tensors_sqops osi ops).2.
Proof.
  unfold contraction_tensors_sqops.
  match goal with
  | |- context [foldl ?f ?a ?l] =>
      assert (laid_out (foldl f a l).1) as Hlay;
      [|destruct (foldl f a l) as [lay op_tensors]]
  end.
  { apply (foldl_inv (λ st, laid_out st.1)).
    - split; [done|]. intros v s creation slot pos Hpos.
      cbn in Hpos. by rewrite lookup_empty in Hpos.
    - intros st [o op] Hst. by apply lay_out_operator_laid_out. }
  apply Hlay.
Qed.

End layout.

Section positions.
Context (osi : OrbitalSpaceInfo).
Implicit Types (sqops : list SQOperator).
Implicit Types (op_map : gmap (nat * nat * bool * Z) nat).



End positions.

Section evaluation.
Context (osi : OrbitalSpaceInfo).
Implicit Types (sqops : list SQOperator) (ev : evaluation).
Implicit Types (op_map : gmap (nat * nat * bool * Z) nat).




End evaluation.


(** ** Checks of the well-formedness of vertices and contractions *)

Section checks.
Context (osi : OrbitalSpaceInfo).

Lemma Forall_forallb {B} (P : B → Prop) (b : B → bool) (l : list B) :
  (∀ x, b x = true → P x) → forallb b l = true → Forall P l.
Proof.
  intros Hb Hl. apply Forall_forall. intros x Hx%list_elem_of_In.
  apply Hb. by eapply forallb_forall in Hl.
Qed.

Lemma nonnegb_nonneg v : nonnegb v = true → nonneg v.
Proof.
  intros Hv s Hs. unfold nonnegb in Hv.
  rewrite forallb_forall in Hv. specialize (Hv s).
  rewrite in_seq, andb_true_iff, !Z.leb_le in Hv. apply Hv. lia.
Qed.

Lemma well_formed_vertexb_well_formed v :
  well_formed_vertexb v = true → well_formed_vertex v.
Proof.
  unfold well_formed_vertexb. rewrite andb_true_iff, Nat.eqb_eq.
  intros [Hlen Hv]. split; [done|]. by apply nonnegb_nonneg.
Qed.

Lemma elementaryb_elementary nops contraction :
  elementaryb osi nops contraction = true → elementary osi nops contraction.
Proof.
  unfold elementaryb. rewrite andb_true_iff, forallb_forall, existsb_exists.
  intros [Hall (A & HA & Hrank)]. split.
  - intros A' HA'. specialize (Hall A'). rewrite in_seq in Hall.
    apply andb_true_iff in Hall as [Hnonneg Hzero]; [|lia].
    split; [by apply nonnegb_nonneg|]. intros s Hs.
    destruct (decide (s < length (contraction !!! A'))) as [Hlt|Hge].
    + rewrite forallb_forall in Hzero. specialize (Hzero s).
      rewrite in_seq, bool_decide_eq_true in Hzero. apply Hzero. lia.
    + unfold Vertex.vertex. by rewrite lookup_ge_None_2 by lia.
  - exists A. apply in_seq in HA. apply Z.leb_le in Hrank. split; lia.
Qed.

End checks.

(** ** The theorems at the operators of the test suite *)




Lemma leg_conservation_witness :
  let osi := osi_ov in
  let ops := [Voovv; T2] in
  let el := generate_elementary_contractions osi 2 ops in
  Forall (λ op, well_formed_vertex (vertex op)) ops
  ∧ ∀ a free, node osi el (vertex <$> ops) a free →
      conserved el ops a free ∧ fits osi free.
Proof.
  intros osi ops el.
  assert (Forall (λ op, well_formed_vertex (vertex op)) ops) as Hops.
  { apply (Forall_forallb _ (λ op, well_formed_vertexb (vertex op)));
      [|by vm_compute].
    intros op. apply well_formed_vertexb_well_formed. }
  split; [exact Hops|]. apply (leg_conservation osi el ops Hops).
Defined.

(** * Further properties of the code *)

(** ** The loops over operator sums *)

Module WDiagSumFacts.
Import WDiag WDiagSum.

Lemma add_lookup_same (vec_dop : list WDiagOperator) (factor : scalar_t)
    (sum_ : dop_sum_t) :
  add vec_dop factor sum_ !! vec_dop
  = match sum_ !! vec_dop with
    | Some c => if decide ((c + factor)%Qc = 0%Qc) then None
                else Some (c + factor)%Qc
    | None => Some factor
    end.
Proof.
  unfold add. destruct (sum_ !! vec_dop) as [c|]; [case_decide|].
  - by rewrite lookup_delete_eq.
  - by rewrite lookup_insert_eq.
  - by rewrite lookup_insert_eq.
Qed.

Lemma add_lookup_ne (vec_dop other : list WDiagOperator) (factor : scalar_t)
    (sum_ : dop_sum_t) :
  vec_dop ≠ other → add vec_dop factor sum_ !! other = sum_ !! other.
Proof.
  intros Hne. unfold add.
  destruct (sum_ !! vec_dop) as [c|]; [case_decide|];
    by rewrite ?lookup_delete_ne, ?lookup_insert_ne.
Qed.

(** A loop of [add] over entries with pairwise distinct keys touches every
    key once. *)
Lemma adds_lookup (g : scalar_t → scalar_t)
    (l : list (list WDiagOperator * scalar_t)) (sum_ : dop_sum_t)
    (vec_dop : list WDiagOperator) :
  NoDup l.*1 →
  foldl (λ sum_ e, add e.1 (g e.2) sum_) sum_ l !! vec_dop
  = match list_to_map (M := dop_sum_t) l !! vec_dop with
    | Some f => add vec_dop (g f) sum_ !! vec_dop
    | None => sum_ !! vec_dop
    end.
Proof.
  revert sum_. induction l as [|[k f] l IH]; intros sum_ Hl; [done|].
  apply NoDup_cons in Hl as [Hk Hl]. cbn [foldl fst snd list_to_map foldr].
  rewrite IH by done. cbn [uncurry].
  destruct (decide (k = vec_dop)) as [->|Hne].
  - rewrite lookup_insert_eq.
    by rewrite (not_elem_of_list_to_map_1 (M := gmap _) l vec_dop Hk).
  - rewrite lookup_insert_ne by done.
    destruct (list_to_map l !! vec_dop) as [f'|]; [|by apply add_lookup_ne].
    rewrite !add_lookup_same. by rewrite add_lookup_ne.
Qed.

Section iteration.
Context (key_le : relation (list WDiagOperator)) `{!RelDecision key_le}.
Implicit Types (A B rhs : dop_sum_t) (vec_dop : list WDiagOperator).

Lemma entries_Permutation (sum_ : dop_sum_t) : entries key_le sum_ ≡ₚ map_to_list sum_.
Proof. apply merge_sort_Permutation. Qed.

Lemma entries_NoDup (sum_ : dop_sum_t) : NoDup (entries key_le sum_).*1.
Proof. rewrite entries_Permutation. apply NoDup_fst_map_to_list. Qed.

Lemma entries_to_map (sum_ : dop_sum_t) : list_to_map (entries key_le sum_) = sum_.
Proof.
  apply map_eq. intros k. apply option_eq. intros f.
  rewrite <-elem_of_list_to_map by apply entries_NoDup.
  by rewrite entries_Permutation, elem_of_map_to_list.
Qed.

Lemma add_assign_lookup_add (sum_ : dop_sum_t) rhs vec_dop :
  add_assign key_le sum_ rhs !! vec_dop
  = match rhs !! vec_dop with
    | Some f => add vec_dop f sum_ !! vec_dop
    | None => sum_ !! vec_dop
    end.
Proof.
  unfold add_assign.
  rewrite (adds_lookup (λ f, f)) by apply entries_NoDup.
  by rewrite entries_to_map.
Qed.

Lemma sub_assign_lookup_add (sum_ : dop_sum_t) rhs vec_dop :
  sub_assign key_le sum_ rhs !! vec_dop
  = match rhs !! vec_dop with
    | Some f => add vec_dop (- f)%Qc sum_ !! vec_dop
    | None => sum_ !! vec_dop
    end.
Proof.
  unfold sub_assign.
  rewrite (adds_lookup Qcopp) by apply entries_NoDup.
  by rewrite entries_to_map.
Qed.

(** X1. [operator+=] looks every key of the right-hand side up once: a key of
    both sums gets the sum of the coefficients and is erased when that is
    zero, a key of the right-hand side only is inserted with its
    coefficient, and every other key is left as it was. *)
Theorem add_assign_lookup (sum_ : dop_sum_t) rhs vec_dop :
  add_assign key_le sum_ rhs !! vec_dop
  = match rhs !! vec_dop, sum_ !! vec_dop with
    | Some f, Some c =>
        if decide ((c + f)%Qc = 0%Qc) then None else Some (c + f)%Qc
    | Some f, None => Some f
    | None, here => here
    end.
Proof.
  rewrite add_assign_lookup_add.
  destruct (rhs !! vec_dop) as [f|]; [|done]. by rewrite add_lookup_same.
Qed.

(** X2. Subtracting what has been added gives the sum back, when the sum has
    no zero coefficient. *)
Theorem add_assign_sub_assign (sum_ : dop_sum_t) rhs :
  clean sum_ → sub_assign key_le (add_assign key_le sum_ rhs) rhs = sum_.
Proof.
  intros Hclean. apply map_eq. intros k.
  rewrite sub_assign_lookup_add.
  destruct (rhs !! k) as [f|] eqn:Hrhs;
    rewrite ?add_lookup_same, add_assign_lookup_add, Hrhs; [|done].
  rewrite add_lookup_same. specialize (Hclean k).
  destruct (sum_ !! k) as [c|].
  - destruct (decide ((c + f)%Qc = 0%Qc)) as [Hz|Hz].
    + f_equal. rewrite <-(Qcplus_0_r (- f)), <-Hz. ring.
    + assert ((c + f + - f)%Qc = c) as -> by ring.
      rewrite decide_False; [done|]. by intros ->.
  - rewrite decide_True; [done|]. ring.
Qed.

(** X3. [operator+=] keeps the sums free of zero coefficients. *)
Theorem add_assign_clean (sum_ : dop_sum_t) rhs :
  clean sum_ → clean rhs → clean (add_assign key_le sum_ rhs).
Proof.
  intros Hsum Hrhs k. rewrite add_assign_lookup_add.
  specialize (Hsum k). specialize (Hrhs k).
  destruct (rhs !! k) as [f|]; [|done]. rewrite add_lookup_same.
  destruct (sum_ !! k) as [c|]; [|done].
  case_decide; [done|]. congruence.
Qed.

(** X4. Multiplying by a factor other than zero distributes over
    [operator+=]. *)
Theorem mul_assign_add_assign (sum_ : dop_sum_t) rhs (factor : scalar_t) :
  factor ≠ 0%Qc →
  mul_assign (add_assign key_le sum_ rhs) factor
  = add_assign key_le (mul_assign sum_ factor) (mul_assign rhs factor).
Proof.
  intros Hfactor. apply map_eq. intros k. unfold mul_assign.
  rewrite lookup_fmap, !add_assign_lookup_add, !lookup_fmap.
  destruct (rhs !! k) as [f|]; cbn [fmap option_fmap option_map]; [|done].
  rewrite !add_lookup_same, lookup_fmap.
  destruct (sum_ !! k) as [c|]; cbn [fmap option_fmap option_map]; [|done].
  assert ((c * factor + f * factor)%Qc = ((c + f) * factor)%Qc) as -> by ring.
  destruct (decide ((c + f)%Qc = 0%Qc)) as [Hz|Hz].
  - rewrite decide_True; [done|]. rewrite Hz. ring.
  - rewrite decide_False; [done|].
    intros [?|?]%Qcmult_integral; done.
Qed.

End iteration.

(** *** The loops at two sums of excitation operators *)

Lemma add_assign_sub_assign_witness :
  let t1 : WDiagOperator := ("t"%string, [(0, 1); (1, 0)]%Z) in
  let v2 : WDiagOperator := ("v"%string, [(2, 0); (0, 2)]%Z) in
  let sum_ : dop_sum_t := {[ [t1] := 1%Qc ]} in
  let rhs : dop_sum_t := <[ [t1] := (-1)%Qc ]> {[ [v2; t1] := 2%Qc ]} in
  clean sum_
  ∧ add_assign not_after sum_ rhs = {[ [v2; t1] := 2%Qc ]}
  ∧ sub_assign not_after (add_assign not_after sum_ rhs) rhs = sum_.
Proof.
  intros t1 v2 sum_ rhs.
  assert (clean sum_) as Hsum
    by (apply (bool_decide_eq_true_1 (clean sum_)); by vm_compute).
  split; [exact Hsum|]. split; [by vm_compute|].
  exact (add_assign_sub_assign not_after sum_ rhs Hsum).
Defined.

Lemma add_assign_clean_witness :
  let t1 : WDiagOperator := ("t"%string, [(0, 1); (1, 0)]%Z) in
  let v2 : WDiagOperator := ("v"%string, [(2, 0); (0, 2)]%Z) in
  let sum_ : dop_sum_t := {[ [t1] := 1%Qc ]} in
  let rhs : dop_sum_t := <[ [t1] := (-1)%Qc ]> {[ [v2; t1] := 2%Qc ]} in
  clean sum_ ∧ clean rhs ∧ clean (add_assign not_after sum_ rhs).
Proof.
  intros t1 v2 sum_ rhs.
  assert (clean sum_) as Hsum
    by (apply (bool_decide_eq_true_1 (clean sum_)); by vm_compute).
  assert (clean rhs) as Hrhs
    by (apply (bool_decide_eq_true_1 (clean rhs)); by vm_compute).
  split; [exact Hsum|]. split; [exact Hrhs|].
  exact (add_assign_clean not_after sum_ rhs Hsum Hrhs).
Defined.

Lemma mul_assign_add_assign_witness :
  let t1 : WDiagOperator := ("t"%string, [(0, 1); (1, 0)]%Z) in
  let v2 : WDiagOperator := ("v"%string, [(2, 0); (0, 2)]%Z) in
  let sum_ : dop_sum_t := {[ [t1] := 1%Qc ]} in
  let rhs : dop_sum_t := <[ [t1] := (-1)%Qc ]> {[ [v2; t1] := 2%Qc ]} in
  Q2Qc (1 # 2) ≠ 0%Qc
  ∧ mul_assign (add_assign not_after sum_ rhs) (Q2Qc (1 # 2))
    = add_assign not_after (mul_assign sum_ (Q2Qc (1 # 2)))
        (mul_assign rhs (Q2Qc (1 # 2))).
Proof.
  intros t1 v2 sum_ rhs.
  assert (Q2Qc (1 # 2) ≠ 0%Qc) as Hfactor by (by vm_compute).
  split; [exact Hfactor|].
  exact (mul_assign_add_assign not_after sum_ rhs (Q2Qc (1 # 2)) Hfactor).
Defined.

End WDiagSumFacts.

Module WDiagCommutatorFacts.
Import WDiag WDiagSum WDiagSumFacts.

Lemma Qc_sum_cons x xs : Qc_sum (x :: xs) = (x + Qc_sum xs)%Qc.
Proof. done. Qed.

Lemma Qc_sum_nil : Qc_sum [] = 0%Qc.
Proof. done. Qed.

Lemma Qc_sum_singleton x : Qc_sum [x] = x.
Proof. rewrite Qc_sum_cons, Qc_sum_nil. ring. Qed.

Lemma Qc_sum_app xs ys : Qc_sum (xs ++ ys) = (Qc_sum xs + Qc_sum ys)%Qc.
Proof.
  induction xs as [|x xs IH]; [rewrite app_nil_l, Qc_sum_nil; ring|].
  rewrite <-app_comm_cons, !Qc_sum_cons, IH. ring.
Qed.

Global Instance Qc_sum_Permutation : Proper ((≡ₚ) ==> (=)) Qc_sum.
Proof.
  induction 1 as [|x l k _ IH|x y l|l k m _ IH1 _ IH2];
    rewrite ?Qc_sum_cons; [done|by rewrite IH|ring|congruence].
Qed.

Lemma Qc_sum_bind_cons {B} (g : B → list scalar_t) x (l : list B) :
  Qc_sum ((x :: l) ≫= g) = (Qc_sum (g x) + Qc_sum (l ≫= g))%Qc.
Proof. by rewrite bind_cons, Qc_sum_app. Qed.

Lemma Qc_sum_bind_ext {B} (g h : B → list scalar_t) (l : list B) :
  (∀ x, Qc_sum (g x) = Qc_sum (h x)) → Qc_sum (l ≫= g) = Qc_sum (l ≫= h).
Proof.
  intros Hgh. induction l as [|x l IH]; [done|].
  by rewrite !Qc_sum_bind_cons, IH, Hgh.
Qed.

Lemma Qc_sum_bind_nil {B} (l : list B) :
  Qc_sum (l ≫= λ _, []) = 0%Qc.
Proof.
  induction l as [|x l IH]; [done|].
  by rewrite Qc_sum_bind_cons, IH, Qc_sum_nil, Qcplus_0_l.
Qed.

(** The order of a double sum does not matter. *)
Lemma Qc_sum_swap {B C} (g : B → C → scalar_t) (l : list B) (k : list C) :
  Qc_sum (x ← l; y ← k; [g x y]) = Qc_sum (y ← k; x ← l; [g x y]).
Proof.
  induction l as [|x l IH].
  - transitivity 0%Qc; [done|]. symmetry. exact (Qc_sum_bind_nil k).
  - rewrite Qc_sum_bind_cons, IH. clear IH.
    induction k as [|y k IH];
      [change (Qc_sum [] + Qc_sum [] = Qc_sum [])%Qc; rewrite Qc_sum_nil; ring|].
    rewrite !Qc_sum_bind_cons, <-IH, !Qc_sum_cons. ring.
Qed.

Lemma foldl_pointwise {S B} (f g : S → B → S) (l : list B) a :
  (∀ a x, f a x = g a x) → foldl f a l = foldl g a l.
Proof.
  intros Hfg. revert a. induction l as [|x l IH]; intros a; [done|].
  cbn [foldl]. by rewrite Hfg, IH.
Qed.

Lemma foldl_bind {S B C} (f : S → C → S) (g : B → list C) (l : list B) a :
  foldl f a (l ≫= g) = foldl (λ a x, foldl f a (g x)) a l.
Proof.
  revert a. induction l as [|x l IH]; intros a; [done|].
  by rewrite bind_cons, foldl_app, IH.
Qed.

Lemma Qc_sum_fmap_bind {B C} (f : C → scalar_t) (g : B → list C) (l : list B) :
  Qc_sum (f <$> (l ≫= g)) = Qc_sum (l ≫= λ x, f <$> g x).
Proof.
  induction l as [|x l IH]; [done|].
  by rewrite bind_cons, fmap_app, Qc_sum_app, IH, Qc_sum_bind_cons.
Qed.

(** What one call of [add] does to the coefficients. *)
Lemma add_coefficient (vec_dop other : list WDiagOperator)
    (factor : scalar_t) (sum_ : dop_sum_t) :
  coefficient (add vec_dop factor sum_) other
  = (coefficient sum_ other
     + (if decide (vec_dop = other) then factor else 0))%Qc.
Proof.
  unfold coefficient. destruct (decide (vec_dop = other)) as [->|Hne].
  - rewrite add_lookup_same. destruct (sum_ !! other) as [c|]; cbn.
    + case_decide as Hz; cbn; [by rewrite Hz|done].
    + ring.
  - rewrite add_lookup_ne by done. ring.
Qed.

Lemma add_clean (vec_dop : list WDiagOperator) (factor : scalar_t)
    (sum_ : dop_sum_t) :
  factor ≠ 0%Qc → clean sum_ → clean (add vec_dop factor sum_).
Proof.
  intros Hfactor Hclean other. destruct (decide (vec_dop = other)) as [->|Hne].
  - rewrite add_lookup_same. specialize (Hclean other).
    destruct (sum_ !! other) as [c|]; [case_decide|]; congruence.
  - by rewrite add_lookup_ne.
Qed.

(** A sequence of calls of [add] adds up the factors of every operator
    string. *)
Lemma adds_coefficient (l : list (list WDiagOperator * scalar_t))
    (sum_ : dop_sum_t) (other : list WDiagOperator) :
  coefficient (foldl (λ sum_ e, add e.1 e.2 sum_) sum_ l) other
  = (coefficient sum_ other
     + Qc_sum ((λ e, if decide (e.1 = other) then e.2 else 0%Qc) <$> l))%Qc.
Proof.
  revert sum_. induction l as [|e l IH]; intros sum_; cbn [foldl].
  - rewrite fmap_nil, Qc_sum_nil. ring.
  - rewrite IH, add_coefficient, fmap_cons, Qc_sum_cons. ring.
Qed.

Lemma adds_clean (l : list (list WDiagOperator * scalar_t))
    (sum_ : dop_sum_t) :
  Forall (λ e, e.2 ≠ 0%Qc) l → clean sum_ →
  clean (foldl (λ sum_ e, add e.1 e.2 sum_) sum_ l).
Proof.
  revert sum_. induction l as [|e l IH]; intros sum_ Hl Hclean; [done|].
  apply Forall_cons in Hl as [He Hl]. cbn [foldl].
  apply IH; [done|]. by apply add_clean.
Qed.

(** Sums without zero coefficients are equal when their coefficients
    are. *)
Lemma clean_eq (A B : dop_sum_t) :
  clean A → clean B → (∀ k, coefficient A k = coefficient B k) → A = B.
Proof.
  intros HA HB Heq. apply map_eq. intros k.
  specialize (HA k). specialize (HB k). specialize (Heq k).
  unfold coefficient in Heq.
  destruct (A !! k) as [x|], (B !! k) as [y|]; cbn in Heq; congruence.
Qed.

Section iteration.
Context (key_le : relation (list WDiagOperator)) `{!RelDecision key_le}.
Implicit Types (A B : dop_sum_t) (vec_dop : list WDiagOperator).

Lemma commutator_as_adds A B :
  commutator key_le A B
  = foldl (λ sum_ e, add e.1 e.2 sum_) ∅ (commutator_adds key_le A B).
Proof.
  unfold commutator, commutator_adds. rewrite foldl_bind.
  apply foldl_pointwise. intros result a. by rewrite foldl_bind.
Qed.

Lemma commutator_coefficient_entries A B vec_dop :
  coefficient (commutator key_le A B) vec_dop
  = Qc_sum (a ← entries key_le A; b ← entries key_le B;
            [commutator_term vec_dop a b]).
Proof.
  rewrite commutator_as_adds, adds_coefficient.
  unfold coefficient at 1. rewrite lookup_empty. cbn [default from_option].
  rewrite Qcplus_0_l. unfold commutator_adds.
  rewrite Qc_sum_fmap_bind. apply Qc_sum_bind_ext. intros a.
  rewrite Qc_sum_fmap_bind. apply Qc_sum_bind_ext. intros b.
  cbn [fmap list_fmap fst snd]. unfold commutator_term.
  rewrite !Qc_sum_cons, Qc_sum_nil. ring.
Qed.

Lemma commutator_coefficient_sum A B vec_dop :
  coefficient (commutator key_le A B) vec_dop
  = Qc_sum (a ← map_to_list A; b ← map_to_list B;
            [commutator_term vec_dop a b]).
Proof.
  rewrite commutator_coefficient_entries, (entries_Permutation key_le A).
  apply Qc_sum_bind_ext. intros a.
  by rewrite (entries_Permutation key_le B).
Qed.

Lemma commutator_no_zero A B :
  clean A → clean B → clean (commutator key_le A B).
Proof.
  intros HA HB. rewrite commutator_as_adds. apply adds_clean.
  2:{ intros k. by rewrite lookup_empty. }
  unfold commutator_adds. apply Forall_forall. intros e.
  rewrite list_elem_of_bind. intros ([ka fa] & He & Ha).
  apply list_elem_of_bind in He as ([kb fb] & He & Hb).
  rewrite (entries_Permutation key_le A), elem_of_map_to_list in Ha.
  rewrite (entries_Permutation key_le B), elem_of_map_to_list in Hb.
  assert (fa ≠ 0%Qc) as Hfa by (intros ->; by apply (HA ka)).
  assert (fb ≠ 0%Qc) as Hfb by (intros ->; by apply (HB kb)).
  cbn [fst snd] in He.
  apply elem_of_cons in He as [->|He]; cbn [snd].
  - intros [?|?]%Qcmult_integral; done.
  - apply list_elem_of_singleton in He as ->. cbn [snd].
    intros [Hz|?]%Qcmult_integral; [|done].
    apply Hfa. rewrite <-(Qcopp_involutive fa), Hz. ring.
Qed.

Lemma commutator_term_swap vec_dop (a b : list WDiagOperator * scalar_t) :
  commutator_term vec_dop b a = (- commutator_term vec_dop a b)%Qc.
Proof.
  unfold commutator_term.
  destruct (decide (a.1 ++ b.1 = vec_dop)), (decide (b.1 ++ a.1 = vec_dop));
    ring.
Qed.

Lemma Qc_sum_bind_opp {T} (g : T → scalar_t) (l : list T) :
  Qc_sum (l ≫= λ x, [(- g x)%Qc]) = (- Qc_sum (l ≫= λ x, [g x]))%Qc.
Proof.
  induction l as [|x l IH]; [change (Qc_sum [] = - Qc_sum [])%Qc;
                              rewrite Qc_sum_nil; ring|].
  rewrite !Qc_sum_bind_cons, IH, !Qc_sum_singleton. ring.
Qed.

Lemma commutator_coefficient_swap A B vec_dop :
  coefficient (commutator key_le B A) vec_dop
  = (- coefficient (commutator key_le A B) vec_dop)%Qc.
Proof.
  rewrite !commutator_coefficient_sum.
  rewrite (Qc_sum_swap (λ b a, commutator_term vec_dop b a)).
  transitivity (Qc_sum (a ← map_to_list A;
                        [(- Qc_sum (b ← map_to_list B;
                                    [commutator_term vec_dop a b]))%Qc])).
  - apply Qc_sum_bind_ext. intros a. rewrite Qc_sum_singleton.
    rewrite <-Qc_sum_bind_opp. apply Qc_sum_bind_ext. intros b.
    by rewrite commutator_term_swap.
  - rewrite Qc_sum_bind_opp. f_equal. apply Qc_sum_bind_ext. intros a.
    by rewrite Qc_sum_singleton.
Qed.

(** X5. The coefficient of an operator string in [commutator(A, B)] is the sum,
    over the terms [a] of [A] and [b] of [B], of the product of their
    factors when the string is [a b], less the product when it is [b a];
    and the commutator of sums without zero coefficients has none. *)
Theorem commutator_coefficient A B :
  (∀ vec_dop,
     coefficient (commutator key_le A B) vec_dop
     = Qc_sum (a ← map_to_list A; b ← map_to_list B;
               [commutator_term vec_dop a b]))
  ∧ (clean A → clean B → clean (commutator key_le A B)).
Proof.
  split; [apply commutator_coefficient_sum|apply commutator_no_zero].
Qed.

(** X6. The commutator is antisymmetric: on sums without zero coefficients,
    [commutator(B, A)] is [commutator(A, B)] with every coefficient
    negated. *)
Theorem commutator_antisymmetric A B :
  clean A → clean B →
  commutator key_le B A = Qcopp <$> commutator key_le A B.
Proof.
  intros HA HB. apply clean_eq.
  - by apply commutator_no_zero.
  - intros k. rewrite lookup_fmap.
    pose proof (commutator_no_zero A B HA HB k) as Hk.
    destruct (commutator key_le A B !! k) as [c|]; [|done].
    cbn [fmap option_fmap option_map]. intros Hc%(inj Some). apply Hk. f_equal.
    rewrite <-(Qcopp_involutive c), Hc. ring.
  - intros k. rewrite commutator_coefficient_swap.
    unfold coefficient. rewrite lookup_fmap.
    destruct (commutator key_le A B !! k) as [c|];
      cbn [fmap option_fmap option_map default from_option id]; [done|ring].
Qed.

(** X7. A sum without zero coefficients commutes with itself: the commutator
    has no entry. *)
Theorem commutator_self A : clean A → commutator key_le A A = ∅.
Proof.
  intros HA. apply clean_eq.
  - by apply commutator_no_zero.
  - intros k. by rewrite lookup_empty.
  - intros k. unfold coefficient at 2. rewrite lookup_empty.
    cbn [default from_option].
    pose proof (commutator_coefficient_swap A A k) as Hswap.
    set (x := coefficient (commutator key_le A A) k) in *.
    destruct (Qc_eq_dec x 0%Qc) as [?|Hx]; [done|]. exfalso.
    assert ((x + x)%Qc = 0%Qc) as H2 by (rewrite Hswap at 1; ring).
    assert ((2 * x)%Qc = 0%Qc) as H3 by (rewrite <-H2; ring).
    apply Qcmult_integral in H3 as [?|?]; done.
Qed.

End iteration.

(** *** The commutator at two sums of excitation operators *)

Lemma commutator_antisymmetric_witness :
  let t1 : WDiagOperator := ("t"%string, [(0, 1); (1, 0)]%Z) in
  let v2 : WDiagOperator := ("v"%string, [(2, 0); (0, 2)]%Z) in
  let A : dop_sum_t := {[ [v2] := 2%Qc ]} in
  let B : dop_sum_t := <[ [t1] := 1%Qc ]> {[ [t1; t1] := Q2Qc (1 # 2) ]} in
  clean A ∧ clean B
  ∧ commutator not_after B A = Qcopp <$> commutator not_after A B.
Proof.
  intros t1 v2 A B.
  assert (clean A) as HA
    by (apply (bool_decide_eq_true_1 (clean A)); by vm_compute).
  assert (clean B) as HB
    by (apply (bool_decide_eq_true_1 (clean B)); by vm_compute).
  split; [exact HA|]. split; [exact HB|].
  exact (commutator_antisymmetric not_after A B HA HB).
Defined.

Lemma commutator_self_witness :
  let t1 : WDiagOperator := ("t"%string, [(0, 1); (1, 0)]%Z) in
  let v2 : WDiagOperator := ("v"%string, [(2, 0); (0, 2)]%Z) in
  let A : dop_sum_t := <[ [t1] := 1%Qc ]> {[ [v2] := 2%Qc ]} in
  clean A ∧ commutator not_after A A = ∅.
Proof.
  intros t1 v2 A.
  assert (clean A) as HA
    by (apply (bool_decide_eq_true_1 (clean A)); by vm_compute).
  split; [exact HA|]. exact (commutator_self not_after A HA).
Defined.

End WDiagCommutatorFacts.

(** ** The elementary contractions that are generated *)

Section generated.
Context (osi : OrbitalSpaceInfo).
Implicit Types (ops : list DiagOperator) (s A nops : nat).
Implicit Types (contraction : list DiagVertex).

Lemma vertex_pair (v : DiagVertex) s :
  Vertex.vertex v s = (Vertex.cre v s, Vertex.ann v s).
Proof. unfold Vertex.cre, Vertex.ann. by destruct (Vertex.vertex v s). Qed.

Lemma elem_of_generate_elementary_contractions (maxcumulant_ : Z) ops
    contraction :
  contraction ∈ generate_elementary_contractions osi maxcumulant_ ops ↔
  ∃ s, s < num_spaces osi
       ∧ contraction ∈ space_contractions osi maxcumulant_ ops s.
Proof.
  unfold generate_elementary_contractions. rewrite list_elem_of_bind.
  split; intros (s & H1 & H2); exists s.
  - apply elem_of_seq in H2. split; [lia|done].
  - split; [done|]. apply elem_of_seq. lia.
Qed.

(** The legs of a pair contraction. *)
Lemma pair_contraction_shape nops s c a :
  s < max_spaces_ → c < nops → a < nops →
  length (pair_contraction nops s c a) = nops
  ∧ Forall (λ v, length v = max_spaces_) (pair_contraction nops s c a)
  ∧ ∀ A s', A < nops →
      Vertex.vertex (pair_contraction nops s c a !!! A) s'
      = ((if decide (A = c ∧ s' = s) then 1 else 0)%Z,
         (if decide (A = a ∧ s' = s) then 1 else 0)%Z).
Proof.
  intros Hs Hc Ha. split; [apply length_pair_contraction|]. split.
  - unfold pair_contraction.
    apply Forall_alter; [apply Forall_alter; [by apply Forall_replicate|]|].
    + intros v _ Hv. by rewrite length_set_cre.
    + intros v _ Hv. by rewrite length_set_ann.
  - intros A s' HA. rewrite vertex_pair.
    by destruct (pair_contraction_legs nops s c a A s' Hs HA) as [-> ->].
Qed.

Lemma int_sum_fmap_ext {B} (f g : B → Z) (l : list B) :
  (∀ x, x ∈ l → f x = g x) → int_sum (f <$> l) = int_sum (g <$> l).
Proof.
  intros Hfg. f_equal. apply list_fmap_ext. intros i x Hx.
  apply Hfg. by eapply list_elem_of_lookup_2.
Qed.

Lemma int_sum_indicator c j n :
  int_sum ((λ A, if decide (A = c) then 1%Z else 0%Z) <$> seq j n)
  = if decide (j ≤ c < j + n) then 1%Z else 0%Z.
Proof.
  revert j. induction n as [|n IH]; intros j.
  - cbn. by rewrite decide_False by lia.
  - cbn [seq]. rewrite fmap_cons, int_sum_cons, IH.
    repeat case_decide; lia.
Qed.

Lemma int_sum_int_at (legs : list Z) :
  int_sum ((λ A, int_at legs A) <$> seq 0 (length legs)) = int_sum legs.
Proof.
  f_equal. apply list_eq. intros i. rewrite list_lookup_fmap.
  destruct (decide (i < length legs)) as [Hi|Hi].
  - rewrite lookup_seq_lt by done. cbn. unfold int_at.
    by destruct (lookup_lt_is_Some_2 legs i Hi) as [x ->].
  - rewrite (lookup_ge_None_2 legs), (lookup_ge_None_2 (seq _ _)); [done| |lia].
    rewrite length_seq. lia.
Qed.

Lemma int_sum_over_positions (f : DiagVertex → Z) contraction :
  int_sum (f <$> contraction)
  = int_sum ((λ A, f (contraction !!! A)) <$> seq 0 (length contraction)).
Proof.
  f_equal. apply list_eq. intros i. rewrite !list_lookup_fmap.
  destruct (decide (i < length contraction)) as [Hi|Hi].
  - rewrite lookup_seq_lt by done. cbn.
    destruct (lookup_lt_is_Some_2 contraction i Hi) as [x Hx].
    by rewrite Hx, (list_lookup_total_correct _ _ _ Hx).
  - rewrite (lookup_ge_None_2 contraction), (lookup_ge_None_2 (seq _ _));
      [done| |lia].
    rewrite length_seq. lia.
Qed.

Lemma pair_contraction_balanced nops s c a :
  s < max_spaces_ → c < nops → a < nops →
  balanced_in s 1 nops (pair_contraction nops s c a).
Proof.
  intros Hs Hc Ha.
  destruct (pair_contraction_shape nops s c a Hs Hc Ha) as (Hlen & Hwf & Hv).
  split; [done|]. split; [done|]. split; [|split].
  - intros A s' HA.
    destruct (pair_contraction_legs nops s c a A s' Hs HA) as [-> ->].
    split; [by case_decide|]. split; [by case_decide|].
    intros Hs'. rewrite Hv by done.
    by rewrite !decide_False by (intros [_ ?]; done).
  - rewrite int_sum_over_positions, Hlen.
    rewrite (int_sum_fmap_ext _ (λ A, if decide (A = c) then 1%Z else 0%Z)).
    + rewrite int_sum_indicator. by rewrite decide_True by lia.
    + intros A [_ HA]%elem_of_seq.
      destruct (pair_contraction_legs nops s c a A s Hs) as [-> _]; [lia|].
      repeat case_decide; naive_solver.
  - rewrite int_sum_over_positions, Hlen.
    rewrite (int_sum_fmap_ext _ (λ A, if decide (A = a) then 1%Z else 0%Z)).
    + rewrite int_sum_indicator. by rewrite decide_True by lia.
    + intros A [_ HA]%elem_of_seq.
      destruct (pair_contraction_legs nops s c a A s Hs) as [_ ->]; [lia|].
      repeat case_decide; naive_solver.
Qed.

Lemma general_contraction_balanced nops s k cre_legs ann_legs :
  s < max_spaces_ →
  composition k nops cre_legs → composition k nops ann_legs →
  balanced_in s k nops (general_contraction nops s cre_legs ann_legs).
Proof.
  intros Hs (Hclen & Hcpos & Hcsum) (Halen & Hapos & Hasum).
  assert (∀ legs A, Forall (λ x, (0 ≤ x)%Z) legs → (0 ≤ int_at legs A)%Z)
    as Hpos.
  { intros legs A Hlegs. unfold int_at.
    destruct (legs !! A) as [x|] eqn:Hx; [|done].
    by apply (Forall_lookup_1 _ _ _ _ Hlegs Hx). }
  assert (∀ A, A < nops →
    general_contraction nops s cre_legs ann_legs !!! A
    = general_vertex s (int_at cre_legs A) (int_at ann_legs A)) as Hlookup.
  { intros A HA. apply list_lookup_total_correct.
    by apply general_contraction_lookup. }
  assert (length (general_contraction nops s cre_legs ann_legs) = nops)
    as Hlen by (unfold general_contraction; by rewrite length_fmap, length_seq).
  split; [done|]. split; [|split; [|split]].
  - unfold general_contraction. apply Forall_fmap, Forall_forall.
    intros A _. unfold compose.
    by rewrite length_set_ann, length_set_cre, length_zero.
  - intros A s' HA. rewrite Hlookup, vertex_pair by done.
    destruct (general_vertex_legs s (int_at cre_legs A) (int_at ann_legs A)
                s' Hs) as [-> ->].
    case_decide; [naive_solver|]. done.
  - rewrite int_sum_over_positions, Hlen, <-Hcsum.
    rewrite <-(int_sum_int_at cre_legs), Hclen.
    apply int_sum_fmap_ext. intros A [_ HA]%elem_of_seq.
    rewrite Hlookup by lia.
    destruct (general_vertex_legs s (int_at cre_legs A) (int_at ann_legs A)
                s Hs) as [-> _].
    by rewrite decide_True.
  - rewrite int_sum_over_positions, Hlen, <-Hasum.
    rewrite <-(int_sum_int_at ann_legs), Halen.
    apply int_sum_fmap_ext. intros A [_ HA]%elem_of_seq.
    rewrite Hlookup by lia.
    destruct (general_vertex_legs s (int_at cre_legs A) (int_at ann_legs A)
                s Hs) as [_ ->].
    by rewrite decide_True.
Qed.

Lemma generated_balanced (maxcumulant_ : Z) ops contraction :
  num_spaces osi ≤ max_spaces_ →
  contraction ∈ generate_elementary_contractions osi maxcumulant_ ops →
  ∃ s k, s < num_spaces osi ∧ (1 ≤ k)%Z
         ∧ balanced_in s k (length ops) contraction.
Proof.
  intros Hosi (s & Hs & Hc)%elem_of_generate_elementary_contractions.
  exists s. unfold space_contractions in Hc.
  destruct (space_type osi s) as [[| |]|].
  - apply elem_of_occupied_contractions in Hc as (c & a & Hca & _ & ->).
    exists 1%Z. split_and!; [done|done|].
    apply pair_contraction_balanced; lia.
  - apply elem_of_unoccupied_contractions in Hc as (a & c & Hac & _ & ->).
    exists 1%Z. split_and!; [done|done|].
    apply pair_contraction_balanced; lia.
  - unfold general_contractions in Hc.
    apply list_elem_of_bind in Hc as (k & Hc & Hk%elem_of_seqZ).
    apply elem_of_general_contractions_of in Hc
      as (cre_legs & ann_legs & Hcre & Hann & _ & _ & ->); [|lia].
    exists k. split_and!; [done|lia|].
    apply general_contraction_balanced; [lia|done..].
  - by apply elem_of_nil in Hc.
Qed.




(** X8. Every elementary contraction that [generate_elementary_contractions]
    emits has one array of counts per operator, no negative count, legs in
    one registered space only, and as many creation as annihilation legs,
    at least one of each. *)
Theorem generate_elementary_contractions_balanced (maxcumulant_ : Z) ops
    contraction :
  num_spaces osi ≤ max_spaces_ →
  contraction ∈ generate_elementary_contractions osi maxcumulant_ ops →
  ∃ s k, s < num_spaces osi ∧ (1 ≤ k)%Z
         ∧ balanced_in s k (length ops) contraction.
Proof. apply generated_balanced. Qed.

End generated.

(** ** The search for composite contractions *)

Section search.
Context (osi : OrbitalSpaceInfo).
Implicit Types (el : list (list DiagVertex)) (ops : list DiagOperator).
Implicit Types (free : list DiagVertex) (a ext : list nat) (c A s : nat).

(** X9. A call of [generate_contractions_backtrack] that returns leaves the
    free vertices as it found them, keeps the records it found in
    [contractions_], and appends only stacks that extend its own. *)
Theorem generate_contractions_backtrack_restores fuel a el free
    (contractions_ : list (list nat)) (minrank maxrank : Z) free'
    (contractions' : list (list nat)) :
  Forall (λ v, length v = max_spaces_) free →
  generate_contractions_backtrack osi fuel a el free contractions_
    minrank maxrank = Some (free', contractions') →
  free' = free
  ∧ ∃ recorded, contractions' = contractions_ ++ recorded
                ∧ ∀ b, b ∈ recorded → ∃ ext, b = a ++ ext.
Proof.
  intros Hfree. rewrite backtrack_composites by done.
  destruct (composites osi fuel el minrank maxrank a free) as [r|] eqn:Hr;
    [|done].
  intros [= <- <-]. split; [done|]. exists r. split; [done|].
  intros b Hb. by eapply composites_prefix.
Qed.

Lemma free_rank_free_after el free ext :
  free_rank (free_after el free ext)
  = (free_rank free
     - int_sum ((λ c, legs_on (el !!! c) (length free)) <$> ext))%Z.
Proof.
  revert free. induction ext as [|c ext IH]; intros free.
  - change (free_after el free []) with free.
    rewrite fmap_nil. unfold int_sum. cbn [foldr]. lia.
  - change (free_after el free (c :: ext))
      with (free_after el (make_move c el free) ext).
    rewrite IH, free_rank_make_move, length_make_move, fmap_cons, int_sum_cons.
    lia.
Qed.

Lemma legs_on_vertices_rank (contraction : list DiagVertex) :
  legs_on contraction (length contraction) = vertices_rank contraction.
Proof.
  unfold legs_on, vertices_rank.
  assert (∀ l : list nat,
    foldr (λ A acc, Vertex.rank (contraction !!! A) + acc)%Z 0%Z l
    = foldr (λ v acc, Vertex.rank v + acc)%Z 0%Z
        ((λ A, contraction !!! A) <$> l)) as ->
    by (intros l; induction l as [|A l IH]; [done|]; cbn [foldr fmap list_fmap]; by rewrite IH).
  f_equal. apply list_eq. intros i. rewrite list_lookup_fmap.
  destruct (decide (i < length contraction)) as [Hi|Hi].
  - rewrite lookup_seq_lt by done. cbn.
    destruct (lookup_lt_is_Some_2 contraction i Hi) as [x Hx].
    by rewrite Hx, (list_lookup_total_correct _ _ _ Hx).
  - rewrite (lookup_ge_None_2 contraction), (lookup_ge_None_2 (seq _ _));
      [done| |lia].
    rewrite length_seq. lia.
Qed.

(** The invariant of the nodes of the search: every descent removes at
    least one leg. *)
Lemma node_good_bound el ops a free :
  Forall (λ op, well_formed_vertex (vertex op)) ops →
  Forall (elementary osi (length ops)) el →
  node osi el (vertex <$> ops) a free →
  good (length ops) free
  ∧ (Z.of_nat (length a) + free_rank free ≤ operators_rank ops)%Z.
Proof.
  intros Hops Hel. induction 1 as [|a free c Hnode [Hgood Hbound] Hc].
  - split; [by apply good_operators|].
    rewrite free_rank_vertices_rank. unfold operators_rank. cbn. lia.
  - apply elem_of_construct_candidates in Hc as [[_ Hc] Hcompatible].
    pose proof (elementary_lookup osi el _ c Hel Hc) as Helc.
    split; [by apply (good_make_move osi)|].
    rewrite free_rank_make_move, length_app. destruct Hgood as [-> _].
    pose proof (legs_on_positive osi _ _ Helc). cbn [length]. lia.
Qed.

(** X10. The stack of a node of the search is no longer than the rank of the
    operators: the 100 entries of the vector [a] suffice for operators of
    at most 100 legs. *)
Theorem search_depth_bounded el ops a free :
  Forall (λ op, well_formed_vertex (vertex op)) ops →
  Forall (elementary osi (length ops)) el →
  node osi el (vertex <$> ops) a free →
  (0 ≤ free_rank free)%Z
  ∧ (Z.of_nat (length a) + free_rank free ≤ operators_rank ops)%Z.
Proof.
  intros Hops Hel Hnode.
  destruct (node_good_bound el ops a free Hops Hel Hnode) as [Hgood Hbound].
  split; [by eapply free_rank_nonneg|done].
Qed.

Lemma recorded_band el ops minrank maxrank recorded a :
  Forall (λ op, well_formed_vertex (vertex op)) ops →
  Forall (λ contraction, length contraction = length ops) el →
  generate_composite_contractions osi el ops minrank maxrank = Some recorded →
  a ∈ recorded → in_band el ops minrank maxrank a.
Proof.
  intros Hops Hel Hgen Ha.
  apply (recorded_node osi el ops minrank maxrank recorded a Hops Hgen) in Ha
    as (free & [Hdesc ->]%node_descends & Hband).
  unfold in_band. unfold band in Hband.
  rewrite free_rank_free_after in Hband.
  rewrite free_rank_vertices_rank in Hband. fold (operators_rank ops) in Hband.
  rewrite foldl_int_sum.
  replace (int_sum ((λ c, vertices_rank (el !!! c)) <$> a))
    with (int_sum ((λ c, legs_on (el !!! c) (length (vertex <$> ops))) <$> a));
    [done|].
  apply int_sum_fmap_ext. intros c Hc.
  apply descends_bounds in Hdesc. rewrite Forall_forall in Hdesc.
  specialize (Hdesc c Hc).
  assert (length (el !!! c) = length ops) as Hlen.
  { rewrite Forall_forall in Hel. apply Hel.
    by apply list_elem_of_lookup_total_2. }
  by rewrite length_fmap, <-Hlen, legs_on_vertices_rank.
Qed.

(** X11. Every composite that the search records passes the rank test that
    [process_contractions] makes again, when every elementary contraction
    has one vertex per operator: none is skipped there. *)
Theorem recorded_composites_in_band el ops minrank maxrank recorded :
  Forall (λ op, well_formed_vertex (vertex op)) ops →
  Forall (λ contraction, length contraction = length ops) el →
  generate_composite_contractions osi el ops minrank maxrank = Some recorded →
  filter (in_band el ops minrank maxrank) recorded = recorded.
Proof.
  intros Hops Hel Hgen. apply filter_all.
  apply Forall_forall. intros a Ha. by eapply recorded_band.
Qed.



End search.

(** ** The loop over the composite contractions *)

Section processing.
Context (osi : OrbitalSpaceInfo).
Context (term_canonicalize : SymbolicTerm → SymbolicTerm * scalar_t).
Implicit Types (el : list (list DiagVertex)) (ops : list DiagOperator).
Implicit Types (result : processed).

Lemma process_composite_Returns el (factor0 : scalar_t) ops minrank maxrank
    result (contraction_vec : list nat) result' :
  process_composite osi term_canonicalize el factor0 ops minrank maxrank
    result contraction_vec = Returns result' →
  if decide (in_band el ops minrank maxrank contraction_vec) then
    ∃ call added,
      call_for osi el ops factor0 call contraction_vec
      ∧ added_for osi term_canonicalize call added
      ∧ evaluator_calls result' = evaluator_calls result ++ [call]
      ∧ added_terms result' = added_terms result ++ [added]
  else result' = result.
Proof.
  unfold process_composite.
  destruct (decide (in_band el ops minrank maxrank contraction_vec))
    as [Hband|Hband];
    [rewrite decide_True by exact Hband
    |rewrite decide_False by exact Hband; by intros [= <-]].
  intros (r & Hr & (tf & Htf & Hret)%bind_Returns)%bind_Returns.
  destruct (term_canonicalize tf.1) as [term canonicalize_factor] eqn:Hterm.
  injection Hret as <-. cbn [evaluator_calls added_terms].
  exists (ops, r.2, factor0), (term, (tf.2 * canonicalize_factor)%Qc).
  split_and!; [by exists r| |done|done].
  exists tf. split; [done|]. by rewrite Hterm.
Qed.

Lemma process_contractions_loop el (factor0 : scalar_t) ops minrank maxrank
    (contractions_ : list (list nat)) result0 result :
  foldl (λ acc contraction_vec,
           acc ≫= λ acc,
             process_composite osi term_canonicalize el factor0 ops
               minrank maxrank acc contraction_vec)
    (Returns result0) contractions_ = Returns result →
  ∃ calls added,
    evaluator_calls result = evaluator_calls result0 ++ calls
    ∧ added_terms result = added_terms result0 ++ added
    ∧ Forall2 (call_for osi el ops factor0) calls
        (filter (in_band el ops minrank maxrank) contractions_)
    ∧ Forall2 (added_for osi term_canonicalize) calls added.
Proof.
  revert result0. induction contractions_ as [|cv cs IH]; intros result0.
  - intros [= <-]. exists [], []. by rewrite !app_nil_r.
  - cbn [foldl]. intros Hloop.
    destruct (foldl_strict _ _ _ _ (bind_strict _) Hloop) as [result1 Hstep].
    rewrite Hstep in Hloop.
    change (process_composite osi term_canonicalize el factor0 ops minrank
              maxrank result0 cv = Returns result1) in Hstep.
    apply process_composite_Returns in Hstep.
    destruct (IH _ Hloop) as (calls & added & Hcalls & Hadded & Hfor & Hadd).
    rewrite filter_cons. case_decide as Hband.
    + destruct Hstep as (call & add & Hcall & Haddfor & Hc1 & Ha1).
      exists (call :: calls), (add :: added).
      rewrite Hcalls, Hadded, Hc1, Ha1, <-!(assoc_L (++)).
      split_and!; [done|done|by constructor|by constructor].
    + subst result1. by exists calls, added.
Qed.

(** X12. When [process_contractions] returns, it has added one term for every
    call of the evaluator, in order: the canonicalized term of the
    evaluation, its coefficient multiplied by the factor of the
    canonicalization; and it has made one call for every composite whose
    rank is in the band. *)
Theorem process_contractions_added_terms el (contractions_ : list (list nat))
    (factor0 : scalar_t) ops minrank maxrank result :
  process_contractions osi term_canonicalize el contractions_ factor0 ops
    minrank maxrank = Returns result →
  Forall2 (added_for osi term_canonicalize) (evaluator_calls result)
    (added_terms result)
  ∧ length (added_terms result)
    = length (filter (in_band el ops minrank maxrank) contractions_).
Proof.
  intros (calls & added & -> & -> & Hcalls & Hadded)%process_contractions_loop.
  cbn [evaluator_calls added_terms app]. split; [done|].
  by rewrite <-(Forall2_length _ _ _ Hcalls), (Forall2_length _ _ _ Hadded).
Qed.

Lemma foldl_Aborts {B C} (F : C → B → outcome C) (l : list B) msg :
  foldl (λ acc x, acc ≫= λ acc, F acc x) (Aborts msg) l = Aborts msg.
Proof. by induction l. Qed.

(** X13. When some operator has an odd number of legs, [process_contractions]
    aborts with the error of the canonicalizer at the first composite whose
    rank is in the band, and returns without a call of the evaluator when
    there is none. *)
Theorem process_contractions_odd_operator el
    (contractions_ : list (list nat)) (factor0 : scalar_t) ops
    minrank maxrank :
  Exists (λ op, Z.odd (num_ops op) = true) ops →
  process_contractions osi term_canonicalize el contractions_ factor0 ops
    minrank maxrank
  = if decide (Exists (in_band el ops minrank maxrank) contractions_)
    then Aborts odd_operator_msg
    else Returns {| evaluator_calls := []; added_terms := [] |}.
Proof.
  intros Hodd. unfold process_contractions.
  generalize {| evaluator_calls := []; added_terms := [] |}.
  induction contractions_ as [|cv cs IH]; intros result0.
  - cbn [foldl]. rewrite decide_False; [done|]. by intros ?%Exists_nil.
  - cbn [foldl mbind outcome_bind].
    unfold process_composite at 2. fold (in_band el ops minrank maxrank cv).
    destruct (decide (in_band el ops minrank maxrank cv)) as [Hband|Hband].
    + rewrite decide_True by (by left).
      unfold canonicalize_contraction. rewrite decide_True.
      * cbn [mbind outcome_bind]. apply foldl_Aborts.
      * eapply Exists_impl; [done|]. intros op. by rewrite rem_2_odd.
    + rewrite IH. destruct (decide (Exists _ cs)) as [Hcs|Hcs].
      * rewrite decide_True; [done|]. by right.
      * rewrite decide_False; [done|]. by intros [?|?]%Exists_cons.
Qed.


End processing.

(** ** The canonicalizer returns rearrangements *)

Section rearrangements.
Context (osi : OrbitalSpaceInfo).
Implicit Types (el : list (list DiagVertex)) (ops : list DiagOperator).

Lemma lookup_total_iota {B} `{!Inhabited B} (l : list B) :
  (λ i, l !!! i) <$> iota (length l) = l.
Proof.
  unfold iota. apply list_eq. intros i. rewrite list_lookup_fmap.
  destruct (decide (i < length l)) as [Hi|Hi].
  - rewrite lookup_seq_lt by done. cbn.
    destruct (lookup_lt_is_Some_2 l i Hi) as [x Hx].
    by rewrite Hx, (list_lookup_total_correct _ _ _ Hx).
  - rewrite (lookup_ge_None_2 l), (lookup_ge_None_2 (seq _ _)); [done| |lia].
    rewrite length_seq. lia.
Qed.

Lemma canonicalize_contraction_Permutation el ops (contraction_vec : list nat)
    best_ops best_contractions :
  canonicalize_contraction osi el ops contraction_vec
  = Returns (best_ops, best_contractions) →
  best_ops ≡ₚ ops
  ∧ best_contractions ≡ₚ (λ c, el !!! c) <$> contraction_vec.
Proof.
  unfold canonicalize_contraction.
  case_decide; [done|]. case_decide; [done|].
  destruct (std_sort _) as [|[sig [ops_perm contr_perm]] rest] eqn:Hsort;
    [done|].
  intros [= <- <-].
  assert ((sig, (ops_perm, contr_perm))
          ∈ canonical_scores osi ops ((λ c, el !!! c) <$> contraction_vec)
              (make_left_masks (connectivity el contraction_vec (length ops))
                 (length ops))) as Hin.
  { apply std_sort_elem_of. rewrite Hsort. left. }
  apply elem_of_canonical_scores in Hin as (Hperm & _ & -> & _).
  split.
  - rewrite Hperm. by rewrite lookup_total_iota.
  - destruct (sorted_contr_perm_sorts ((λ c, el !!! c) <$> contraction_vec)
                ops_perm (length ops)) as [Hcperm _].
    rewrite Hcperm. by rewrite lookup_total_iota.
Qed.

(** X15. What [canonicalize_contraction] returns is a rearrangement of the
    operators and a rearrangement of the elementary contractions of the
    composite: no operator and no contraction is lost or repeated. *)
Theorem canonicalize_contraction_rearranges el ops (contraction_vec : list nat)
    best_ops best_contractions :
  canonicalize_contraction osi el ops contraction_vec
  = Returns (best_ops, best_contractions) →
  best_ops ≡ₚ ops
  ∧ best_contractions ≡ₚ (λ c, el !!! c) <$> contraction_vec.
Proof. apply canonicalize_contraction_Permutation. Qed.

End rearrangements.

(** ** Edge cases of the search *)

Section search_edges.
Context (osi : OrbitalSpaceInfo).
Implicit Types (el : list (list DiagVertex)) (ops : list DiagOperator).


End search_edges.

(** ** The layout of the operators *)

Section covering.
Context {St X K : Type} (present : St → K → Prop) (adds : X → K → Prop).
Context (f : St → X → St).

(** A loop whose steps keep what is present and add their own keys has
    added the keys of all its steps. *)
Lemma foldl_covers (l : list X) (st : St) :
  (∀ st x k, present st k → present (f st x) k) →
  (∀ st x k, adds x k → present (f st x) k) →
  (∀ k, present st k → present (foldl f st l) k)
  ∧ ∀ x k, x ∈ l → adds x k → present (foldl f st l) k.
Proof.
  intros Hkeep Hadd. revert st. induction l as [|y l IH]; intros st.
  - split; [done|]. intros x k Hx. by apply elem_of_nil in Hx.
  - cbn [foldl]. destruct (IH (f st y)) as [IH1 IH2]. split.
    + intros k Hk. by apply IH1, Hkeep.
    + intros x k [->|Hx]%elem_of_cons Hk; [by apply IH1, Hadd|by eapply IH2].
Qed.

End covering.

Section layout_keys.
Context (osi : OrbitalSpaceInfo).
Implicit Types (lay : layout) (ops : list DiagOperator).

Lemma lay_out_keeps type o s slot (st : layout * list Index) key :
  mapped st key → mapped (lay_out type o s slot st) key.
Proof.
  destruct st as [lay indices]. unfold mapped, lay_out. cbn [fst].
  destruct (next_index (lay_ic lay) s) as [i ic]. cbn [fst lay_op_map].
  intros Hkey. rewrite lookup_insert_is_Some'. by right.
Qed.

Lemma lay_out_adds type o s slot (st : layout * list Index) :
  mapped (lay_out type o s slot st)
    (o, s, bool_decide (type = Creation), slot).
Proof.
  destruct st as [lay indices]. unfold mapped, lay_out.
  destruct (next_index (lay_ic lay) s) as [i ic]. cbn [fst lay_op_map].
  by rewrite lookup_insert_eq.
Qed.

(** The loops over the spaces and the slots of one type of operator. *)
Lemma lay_out_loop type o (count : nat → Z) (spaces : list nat)
    (order : list Z → list Z) (st : layout * list Index) :
  (∀ l x, x ∈ order l ↔ x ∈ l) →
  let st' :=
    foldl (λ st s,
             foldl (λ st c, lay_out type o s c st) st
               (order (seqZ 0 (count s))))
      st spaces in
  (∀ key, mapped st key → mapped st' key)
  ∧ ∀ s slot, s ∈ spaces → (0 ≤ slot < count s)%Z →
      mapped st' (o, s, bool_decide (type = Creation), slot).
Proof.
  intros Horder st'. subst st'.
  destruct (foldl_covers mapped
    (λ s key, ∃ slot, (0 ≤ slot < count s)%Z
                      ∧ key = (o, s, bool_decide (type = Creation), slot))
    (λ st s, foldl (λ st c, lay_out type o s c st) st
               (order (seqZ 0 (count s)))) spaces st) as [Hkeep Hadd].
  - intros st0 s key Hkey.
    by apply (foldl_covers mapped (λ _ _, False)
                (λ st c, lay_out type o s c st));
      [intros; by apply lay_out_keeps|done|].
  - intros st0 s key (slot & Hslot & ->).
    apply (foldl_covers mapped
             (λ c key, key = (o, s, bool_decide (type = Creation), c))
             (λ st c, lay_out type o s c st)
             (order (seqZ 0 (count s))) st0) with (x := slot);
      [intros; by apply lay_out_keeps
      |intros ? ? ? ->; apply lay_out_adds
      |apply Horder, elem_of_seqZ; lia
      |done].
  - split; [done|]. intros s slot Hs Hslot. eapply Hadd; [done|].
    by exists slot.
Qed.

Lemma lay_out_operator_keys o (op : DiagOperator)
    (st : layout * list Tensor) :
  (∀ key, mapped st key → mapped (lay_out_operator osi o op st) key)
  ∧ ∀ s slot, s < num_spaces osi →
      ((0 ≤ slot < op_cre op s)%Z →
       mapped (lay_out_operator osi o op st) (o, s, true, slot))
      ∧ ((0 ≤ slot < op_ann op s)%Z →
         mapped (lay_out_operator osi o op st) (o, s, false, slot)).
Proof.
  destruct st as [lay op_tensors]. unfold lay_out_operator.
  destruct (lay_out_loop Creation o (op_cre op) (seq 0 (num_spaces osi))
              (λ l, l) (lay, [])) as [Hkeep1 Hadd1]; [done|].
  destruct (foldl _ (lay, []) (seq 0 (num_spaces osi))) as [lay1 lower].
  destruct (lay_out_loop Annihilation o (op_ann op)
              (reverse (seq 0 (num_spaces osi))) reverse (lay1, []))
    as [Hkeep2 Hadd2]; [intros l x; apply elem_of_reverse|].
  destruct (foldl _ (lay1, []) (reverse (seq 0 (num_spaces osi))))
    as [lay2 upper].
  unfold mapped in *. cbn [fst] in *. split.
  - intros key Hkey. by apply Hkeep2, Hkeep1.
  - intros s slot Hs. split; intros Hslot.
    + apply Hkeep2. apply (Hadd1 s slot); [|done]. apply elem_of_seq. lia.
    + apply (Hadd2 s slot); [|done]. apply elem_of_reverse, elem_of_seq. lia.
Qed.

(** The map of positions has an entry for every slot of every operator in
    every registered space. *)
Lemma operator_map_covers ops o s (creation : bool) slot :
  o < length ops → s < num_spaces osi →
  (0 ≤ slot < if creation then op_cre (ops !!! o) s
              else op_ann (ops !!! o) s)%Z →
  is_Some (operator_map osi ops !! (o, s, creation, slot)).
Proof.
  intros Ho Hs Hslot. unfold operator_map, contraction_tensors_sqops.
  match goal with
  | |- context [foldl ?f ?a ?l] =>
      destruct (foldl_covers mapped
        (λ (x : nat * DiagOperator) key,
           ∃ s slot (creation : bool),
             s < num_spaces osi
             ∧ (0 ≤ slot < if creation then op_cre x.2 s
                           else op_ann x.2 s)%Z
             ∧ key = (x.1, s, creation, slot))
        f l a) as [_ Hadd]
  end.
  - intros st [o' op] key Hkey. by apply lay_out_operator_keys.
  - intros st [o' op] key (s' & slot' & cr & Hs' & Hslot' & ->).
    cbn [fst snd] in *.
    destruct (lay_out_operator_keys o' op st) as [_ Hkeys].
    destruct (Hkeys s' slot' Hs') as [Hcre Hann].
    destruct cr; [by apply Hcre|by apply Hann].
  - specialize (Hadd (o, ops !!! o) (o, s, creation, slot)).
    destruct (foldl _ _ _) as [lay op_tensors]. unfold mapped in Hadd.
    cbn [fst snd] in *. apply Hadd.
    + apply list_elem_of_lookup. exists o. rewrite list_lookup_imap.
      destruct (lookup_lt_is_Some_2 ops o Ho) as [op Hop].
      by rewrite Hop, (list_lookup_total_correct _ _ _ Hop).
    + by exists s, slot, creation.
Qed.

End layout_keys.

(** ** The positions of the legs of a contraction *)

Section leg_positions.
Context (osi : OrbitalSpaceInfo).
Context (op_map : gmap (nat * nat * bool * Z) nat).
Context (s : nat) (creation : bool) (vertex_vec : list DiagVertex).
Implicit Types (offset : list DiagVertex) (result : list nat) (v : nat).

Lemma mapM_cons_option {B C} (f : B → option C) x l :
  mapM f (x :: l) = y ← f x; k ← mapM f l; Some (y :: k).
Proof. done. Qed.

Lemma mapM_ext_in {B C} (f g : B → option C) l :
  (∀ x, x ∈ l → f x = g x) → mapM f l = mapM g l.
Proof.
  induction l as [|x l IH]; intros Hfg; [done|].
  rewrite !mapM_cons_option, (Hfg x), IH; [done| |left].
  intros y Hy. apply Hfg. by right.
Qed.

Lemma foldl_stuck {B C} (G : outcome C → B → outcome C) (l : list B) msg :
  (∀ x, G (Aborts msg) x = Aborts msg) → foldl G (Aborts msg) l = Aborts msg.
Proof. intros HG. induction l as [|x l IH]; [done|]. cbn. by rewrite HG. Qed.

(** The loop over the legs of one operator. *)
Lemma slot_loop v (ops_off : Z) (slots : list Z) result :
  foldl (λ acc i,
           acc ≫= λ result,
             match op_map !! (v, s, creation, ops_off + i)%Z with
             | None => Aborts not_found_msg
             | Some sqop_pos => Returns (result ++ [sqop_pos])
             end)
    (Returns result) slots
  = match mapM (λ i, op_map !! (v, s, creation, ops_off + i)%Z) slots with
    | Some positions => Returns (result ++ positions)
    | None => Aborts not_found_msg
    end.
Proof.
  revert result. induction slots as [|i slots IH]; intros result.
  - cbn. by rewrite app_nil_r.
  - cbn [foldl mbind outcome_bind]. rewrite mapM_cons_option.
    destruct (op_map !! _) as [pos|]; cbn [mbind option_bind].
    + rewrite IH. destruct (mapM _ slots) as [positions|]; cbn; [|done].
      by rewrite <-(assoc_L (++)).
    + by apply foldl_stuck.
Qed.

(** The loop over the operators. *)
Lemma operator_loop (vs : list nat) result offset :
  NoDup vs →
  foldl (λ st v,
           st ≫= λ '(result, ops_offset),
             let vertex := vertex_vec !!! v in
             let nops := if creation then Vertex.cre vertex s
                         else Vertex.ann vertex s in
             let ops_off := if creation then Vertex.cre (ops_offset !!! v) s
                            else Vertex.ann (ops_offset !!! v) s in
             result ←
               foldl (λ acc i,
                        acc ≫= λ result,
                          match op_map !! (v, s, creation, ops_off + i)%Z with
                          | None => Aborts not_found_msg
                          | Some sqop_pos => Returns (result ++ [sqop_pos])
                          end)
                 (Returns result) (seqZ 0 nops);
             let ops_offset :=
               if creation
               then alter (Vertex.set_cre s (ops_off + nops)%Z) v ops_offset
               else alter (Vertex.set_ann s (ops_off + nops)%Z) v ops_offset in
             Returns (result, ops_offset))
    (Returns (result, offset)) vs
  = match mapM (leg_positions op_map s creation vertex_vec offset) vs with
    | Some positions =>
        Returns (result ++ mjoin positions,
                 foldl (λ offset v,
                          alter (advance s creation vertex_vec v) v offset)
                   offset vs)
    | None => Aborts not_found_msg
    end.
Proof.
  revert result offset.
  induction vs as [|v vs IH]; intros result offset Hvs.
  - cbn. by rewrite app_nil_r.
  - apply NoDup_cons in Hvs as [Hv Hvs].
    rewrite mapM_cons_option.
    destruct (leg_positions op_map s creation vertex_vec offset v)
      as [positions|] eqn:Hpos; unfold leg_positions in Hpos;
      cbv zeta in Hpos; cbn [foldl]; cbn [mbind outcome_bind option_bind];
      cbv zeta; rewrite slot_loop, Hpos; cbn [mbind outcome_bind];
      [|by apply foldl_stuck].
    assert ((if creation
             then alter (Vertex.set_cre s
                           ((if creation then Vertex.cre (offset !!! v) s
                             else Vertex.ann (offset !!! v) s)
                            + (if creation then Vertex.cre (vertex_vec !!! v) s
                               else Vertex.ann (vertex_vec !!! v) s))%Z)
                    v offset
             else alter (Vertex.set_ann s
                           ((if creation then Vertex.cre (offset !!! v) s
                             else Vertex.ann (offset !!! v) s)
                            + (if creation then Vertex.cre (vertex_vec !!! v) s
                               else Vertex.ann (vertex_vec !!! v) s))%Z)
                    v offset)
            = alter (advance s creation vertex_vec v) v offset) as ->.
    { unfold advance. destruct creation; apply list_alter_ext; try done.
      - intros x Hx. by rewrite (list_lookup_total_correct _ _ _ Hx).
      - intros x Hx. by rewrite (list_lookup_total_correct _ _ _ Hx). }
    rewrite IH by done.
    rewrite (mapM_ext_in
               (leg_positions op_map s creation vertex_vec
                  (alter (advance s creation vertex_vec v) v offset))
               (leg_positions op_map s creation vertex_vec offset)).
    + destruct (mapM _ vs) as [rest|]; cbn; by rewrite ?(assoc_L (++)).
    + intros v' Hv'. unfold leg_positions.
      rewrite list_lookup_total_alter_ne; [done|by intros ->].
Qed.



End leg_positions.

Section positions_found.
Context (osi : OrbitalSpaceInfo).
Context (op_map : gmap (nat * nat * bool * Z) nat).
Implicit Types (offset vertex_vec : list DiagVertex).

Lemma vertex_vec_to_pos_loop vertex_vec offset (creation : bool) s rest :
  spaces_in_vertices osi vertex_vec = s :: rest →
  vertex_vec_to_pos osi vertex_vec offset op_map creation
  = match mapM (leg_positions op_map s creation vertex_vec offset)
            (seq 0 (length vertex_vec)) with
    | Some positions =>
        Returns (mjoin positions,
                 foldl (λ offset v,
                          alter (advance s creation vertex_vec v) v offset)
                   offset (seq 0 (length vertex_vec)))
    | None => Aborts not_found_msg
    end.
Proof.
  intros Hs. unfold vertex_vec_to_pos. rewrite Hs.
  exact (operator_loop op_map s creation vertex_vec
           (seq 0 (length vertex_vec)) [] offset (NoDup_seq _ _)).
Qed.

(** X17. [vertex_vec_to_pos] reads the first space of the contraction, which is
    undefined for a contraction without legs; it aborts exactly when the
    map of positions lacks a slot that it asks for; otherwise it returns
    the positions operator by operator and has advanced the offset of every
    operator by the legs taken. *)
Theorem vertex_vec_to_pos_spec vertex_vec offset (creation : bool) :
  length vertex_vec ≤ length offset →
  vertex_vec_to_pos osi vertex_vec offset op_map creation
  = match spaces_in_vertices osi vertex_vec with
    | [] => Undefined
    | s :: _ =>
        match mapM (leg_positions op_map s creation vertex_vec offset)
                (seq 0 (length vertex_vec)) with
        | Some positions =>
            Returns (mjoin positions,
                     foldl (λ offset v,
                              alter (advance s creation vertex_vec v) v offset)
                       offset (seq 0 (length vertex_vec)))
        | None => Aborts not_found_msg
        end
    end.
Proof.
  intros _. destruct (spaces_in_vertices osi vertex_vec) as [|s rest] eqn:Hs.
  - unfold vertex_vec_to_pos. by rewrite Hs.
  - by eapply vertex_vec_to_pos_loop.
Qed.

End positions_found.

(** ** The evaluation runs to completion *)

Section completion.
Context (osi : OrbitalSpaceInfo).
Implicit Types (ops : list DiagOperator) (s A nops : nat).
Implicit Types (contraction : list DiagVertex).
Implicit Types (offset : list DiagVertex).










Lemma taken_cre_snoc (applied : list (list DiagVertex)) contraction A s :
  taken_cre (applied ++ [contraction]) A s
  = (taken_cre applied A s + Vertex.cre (contraction !!! A) s)%Z.
Proof.
  unfold taken_cre. rewrite fmap_app, int_sum_app, fmap_cons, fmap_nil.
  rewrite int_sum_cons. change (int_sum []) with 0%Z. lia.
Qed.

Lemma taken_ann_snoc (applied : list (list DiagVertex)) contraction A s :
  taken_ann (applied ++ [contraction]) A s
  = (taken_ann applied A s + Vertex.ann (contraction !!! A) s)%Z.
Proof.
  unfold taken_ann. rewrite fmap_app, int_sum_app, fmap_cons, fmap_nil.
  rewrite int_sum_cons. change (int_sum []) with 0%Z. lia.
Qed.

Lemma taken_nonneg nops (applied : list (list DiagVertex)) A s :
  Forall (balanced osi nops) applied → A < nops →
  (0 ≤ taken_cre applied A s)%Z ∧ (0 ≤ taken_ann applied A s)%Z.
Proof.
  intros Happlied HA.
  induction Happlied as [|c applied (s0 & k & _ & _ & Hbal) _ IH].
  - unfold taken_cre, taken_ann. rewrite !fmap_nil.
    change (int_sum []) with 0%Z. lia.
  - unfold taken_cre, taken_ann in *. rewrite !fmap_cons, !int_sum_cons.
    destruct Hbal as (_ & _ & Hlegs & _).
    destruct (Hlegs A s HA) as (? & ? & _). lia.
Qed.





End completion.

Section completion_loop.
Context (osi : OrbitalSpaceInfo).
Implicit Types (ops : list DiagOperator) (s A nops : nat).
Implicit Types (contraction : list DiagVertex).
Implicit Types (applied rest contractions : list (list DiagVertex)).

Lemma taken_cre_app applied rest A s :
  taken_cre (applied ++ rest) A s
  = (taken_cre applied A s + taken_cre rest A s)%Z.
Proof. unfold taken_cre. by rewrite fmap_app, int_sum_app. Qed.

Lemma taken_ann_app applied rest A s :
  taken_ann (applied ++ rest) A s
  = (taken_ann applied A s + taken_ann rest A s)%Z.
Proof. unfold taken_ann. by rewrite fmap_app, int_sum_app. Qed.

Lemma fit_operators_prefix ops applied rest :
  Forall (balanced osi (length ops)) rest →
  fit_operators osi ops (applied ++ rest) → fit_operators osi ops applied.
Proof.
  intros Hrest Hfit A s HA Hs. destruct (Hfit A s HA Hs) as [Hc Ha].
  rewrite taken_cre_app in Hc. rewrite taken_ann_app in Ha.
  destruct (taken_nonneg osi _ _ A s Hrest HA). lia.
Qed.

Global Instance taken_cre_Permutation :
  Proper ((≡ₚ) ==> (=) ==> (=) ==> (=)) taken_cre.
Proof. intros l1 l2 Hl ? A -> ? s ->. unfold taken_cre. by rewrite Hl. Qed.

Global Instance taken_ann_Permutation :
  Proper ((≡ₚ) ==> (=) ==> (=) ==> (=)) taken_ann.
Proof. intros l1 l2 Hl ? A -> ? s ->. unfold taken_ann. by rewrite Hl. Qed.





End completion_loop.

Section completion_theorem.
Context (osi : OrbitalSpaceInfo).
Context (term_canonicalize : SymbolicTerm → SymbolicTerm * scalar_t).
Implicit Types (ops : list DiagOperator) (el : list (list DiagVertex)).
Implicit Types (a : list nat) (s A : nat).








End completion_theorem.

(** ** The operators that an evaluation leaves *)

Section leftover.
Context (osi : OrbitalSpaceInfo).
Implicit Types (ops : list DiagOperator) (sqops : list SQOperator).
Implicit Types (contractions : list (list DiagVertex)).




End leftover.

(** ** What is laid out for the operators *)

Section measures.
Context {St X : Type} (f : St → X → St) (size : St → nat) (weight : X → nat).

(** A loop whose steps grow a size by the weight of the step grows it by
    the sum of the weights. *)
Lemma foldl_size (l : list X) (st : St) :
  (∀ st x, size (f st x) = size st + weight x) →
  size (foldl f st l) = size st + sum_list (weight <$> l).
Proof.
  intros Hstep. revert st. induction l as [|x l IH]; intros st.
  - cbn. lia.
  - cbn [foldl]. rewrite IH, Hstep, fmap_cons. cbn [sum_list_with].
    unfold id. lia.
Qed.

End measures.

Section layout_sizes.
Context (osi : OrbitalSpaceInfo).
Implicit Types (lay : layout) (ops : list DiagOperator).

Lemma lay_out_sizes type o s slot (st : layout * list Index) :
  length (lay_sqops (lay_out type o s slot st).1)
  = length (lay_sqops st.1) + 1
  ∧ length (lay_out type o s slot st).2 = length st.2 + 1.
Proof.
  destruct st as [lay indices]. unfold lay_out.
  destruct (next_index (lay_ic lay) s) as [i ic]. cbn [fst snd lay_sqops].
  by rewrite !length_app.
Qed.

Lemma sum_list_ones {B} (l : list B) : sum_list ((λ _, 1) <$> l) = length l.
Proof.
  induction l as [|x l IH]; [done|].
  rewrite fmap_cons. cbn [sum_list_with length]. by rewrite IH.
Qed.

(** The loops over the spaces and the slots of one type of operator lay
    out one operator and one index per slot. *)
Lemma lay_out_loop_sizes type o (count : nat → Z) (spaces : list nat)
    (order : list Z → list Z) (st : layout * list Index) :
  (∀ l, length (order l) = length l) →
  let st' :=
    foldl (λ st s,
             foldl (λ st c, lay_out type o s c st) st
               (order (seqZ 0 (count s))))
      st spaces in
  length (lay_sqops st'.1)
  = length (lay_sqops st.1) + sum_list ((λ s, Z.to_nat (count s)) <$> spaces)
  ∧ length st'.2
    = length st.2 + sum_list ((λ s, Z.to_nat (count s)) <$> spaces).
Proof.
  intros Horder st'. subst st'.
  assert (∀ (size : layout * list Index → nat),
    (∀ st c s, size (lay_out type o s c st) = size st + 1) →
    size (foldl (λ st s,
                   foldl (λ st c, lay_out type o s c st) st
                     (order (seqZ 0 (count s))))
            st spaces)
    = size st + sum_list ((λ s, Z.to_nat (count s)) <$> spaces)) as Hsize.
  { intros size Hstep.
    apply (foldl_size _ size (λ s, Z.to_nat (count s))). intros st0 s.
    rewrite (foldl_size (λ st c, lay_out type o s c st) size (λ _, 1))
      by (intros; apply Hstep).
    by rewrite sum_list_ones, Horder, length_seqZ. }
  split.
  - apply (Hsize (λ st, length (lay_sqops st.1))). intros. apply lay_out_sizes.
  - apply (Hsize (λ st, length st.2)). intros. apply lay_out_sizes.
Qed.

Lemma lay_out_operator_sizes o (op : DiagOperator)
    (st : layout * list Tensor) :
  length (lay_sqops (lay_out_operator osi o op st).1)
  = length (lay_sqops st.1) + registered_legs osi op
  ∧ ∃ tensor, (lay_out_operator osi o op st).2 = st.2 ++ [tensor]
              ∧ tensor_of osi op tensor.
Proof.
  destruct st as [lay op_tensors]. unfold lay_out_operator.
  destruct (lay_out_loop_sizes Creation o (op_cre op) (seq 0 (num_spaces osi))
              (λ l, l) (lay, [])) as [Hs1 Hi1]; [done|].
  destruct (foldl _ (lay, []) (seq 0 (num_spaces osi))) as [lay1 lower].
  destruct (lay_out_loop_sizes Annihilation o (op_ann op)
              (reverse (seq 0 (num_spaces osi))) reverse (lay1, []))
    as [Hs2 Hi2]; [intros l; apply length_reverse|].
  destruct (foldl _ (lay1, []) (reverse (seq 0 (num_spaces osi))))
    as [lay2 upper].
  cbn [fst snd length] in *.
  rewrite fmap_reverse, reverse_Permutation in Hs2, Hi2.
  fold (registered_cre osi op) in Hs1, Hi1.
  fold (registered_ann osi op) in Hs2, Hi2.
  split; [unfold registered_legs; lia|].
  eexists. split; [done|]. split; [done|]. cbn [tensor_lower tensor_upper].
  rewrite length_reverse. split; lia.
Qed.

(** X20. [contraction_tensors_sqops] lays out one tensor per operator, with the
    label of the operator and one index per leg, and one second-quantized
    operator per leg of the operators in the registered spaces. *)
Theorem operator_layout_sizes ops :
  length (operator_sqops osi ops) = sum_list (registered_legs osi <$> ops)
  ∧ Forall2 (tensor_of osi) ops (operator_tensors osi ops).
Proof.
  unfold operator_sqops, operator_tensors, contraction_tensors_sqops.
  set (init := {| lay_ic := replicate (num_spaces osi) 0; lay_sqops := [];
                  lay_op_map := ∅; lay_n := 0 |}).
  assert (∀ (l : list (nat * DiagOperator)) (st : layout * list Tensor),
    let st' := foldl (λ st '(o, op), lay_out_operator osi o op st) st l in
    length (lay_sqops st'.1)
    = length (lay_sqops st.1) + sum_list (registered_legs osi <$> l.*2)
    ∧ ∃ added, st'.2 = st.2 ++ added
               ∧ Forall2 (tensor_of osi) l.*2 added) as Hloop.
  { induction l as [|[o op] l IH]; intros st; cbn zeta.
    - cbn. split; [lia|]. exists []. by rewrite app_nil_r.
    - cbn [foldl].
      destruct (IH (lay_out_operator osi o op st)) as (Hs & added & Ht & Hall).
      destruct (lay_out_operator_sizes o op st) as (Hs1 & tensor & Ht1 & Htensor).
      rewrite Hs, Hs1, Ht, Ht1. rewrite !fmap_cons. cbn [snd]. split.
      + cbn [sum_list_with]. unfold id. lia.
      + exists (tensor :: added). rewrite <-(assoc_L (++)). split; [done|].
        by constructor. }
  specialize (Hloop (imap (λ o op, (o, op)) ops) (init, [])).
  cbn zeta in Hloop. destruct Hloop as (Hs & added & Ht & Hall).
  assert ((imap (λ o op, (o, op)) ops).*2 = ops) as Hops.
  { apply list_eq. intros i. rewrite list_lookup_fmap, list_lookup_imap.
    by destruct (ops !! i). }
  rewrite Hops in Hs, Hall.
  destruct (foldl _ (init, []) _) as [lay op_tensors]. cbn [fst snd] in *.
  rewrite Hs, Ht. done.
Qed.

End layout_sizes.

(** ** The positions of the operators and the sign of the factor *)

Section positions_and_factor.
Context (osi : OrbitalSpaceInfo).
Implicit Types (ops : list DiagOperator) (s A : nat).
Implicit Types (contractions : list (list DiagVertex)).

(** X21. Every slot of every operator in a registered space is mapped to a
    position of the operator string, and the operator at that position is
    of the type of the slot. *)
Theorem operator_map_sound ops o s (creation : bool) slot :
  o < length ops → s < num_spaces osi →
  (0 ≤ slot < if creation then op_cre (ops !!! o) s
              else op_ann (ops !!! o) s)%Z →
  ∃ pos sqop,
    operator_map osi ops !! (o, s, creation, slot) = Some pos
    ∧ operator_sqops osi ops !! pos = Some sqop
    ∧ sq_type sqop = if creation then Creation else Annihilation.
Proof.
  intros Ho Hs Hslot.
  destruct (operator_map_covers osi ops o s creation slot Ho Hs Hslot)
    as [pos Hpos].
  destruct (contraction_tensors_sqops_typed osi ops _ _ _ _ _ Hpos)
    as (sqop & Hsqop & Htype).
  by exists pos, sqop.
Qed.

Lemma Qc_prod_pos (xs : list scalar_t) :
  Forall (λ x, (0 < x)%Qc) xs → (0 < Qc_prod xs)%Qc.
Proof.
  induction 1 as [|x xs Hx _ IH]; [done|].
  rewrite Qc_prod_cons. by apply Qcmult_pos_pos.
Qed.

Lemma choose_pos n k : k ≤ n → 1 ≤ choose n k.
Proof.
  revert k. induction n as [|n IH]; intros [|k] Hk; cbn [choose]; try lia.
  specialize (IH k). lia.
Qed.

Lemma binomial_pos (n k : Z) : (0 ≤ k ≤ n)%Z → (1 ≤ binomial n k)%Z.
Proof.
  intros Hk. unfold binomial. rewrite decide_False by lia.
  pose proof (choose_pos (Z.to_nat n) (Z.to_nat k)). lia.
Qed.

Lemma Qc_of_Z_pos (n : Z) : (1 ≤ n)%Z → (0 < Qc_of_Z n)%Qc.
Proof. intros Hn. rewrite <-Z2Qc_inj_0. apply (proj1 (Z2Qc_inj_lt 0 n)). lia. Qed.

Lemma multiplicity_pos (c : list DiagVertex) contractions :
  c ∈ contractions → 1 ≤ multiplicity c contractions.
Proof.
  intros Hc. unfold multiplicity.
  assert (c ∈ filter (λ c', c' = c) contractions) as Hin
    by (by apply list_elem_of_filter).
  destruct (filter _ contractions); [by apply elem_of_nil in Hin|cbn; lia].
Qed.

Lemma taken_cre_take contractions i A s :
  i < length contractions →
  taken_cre (take (S i) contractions) A s
  = (taken_cre (take i contractions) A s
     + Vertex.cre ((contractions !!! i) !!! A) s)%Z.
Proof.
  intros Hi. destruct (lookup_lt_is_Some_2 contractions i Hi) as [c Hc].
  rewrite (take_S_r _ _ _ Hc), taken_cre_snoc.
  by rewrite (list_lookup_total_correct _ _ _ Hc).
Qed.

Lemma taken_ann_take contractions i A s :
  i < length contractions →
  taken_ann (take (S i) contractions) A s
  = (taken_ann (take i contractions) A s
     + Vertex.ann ((contractions !!! i) !!! A) s)%Z.
Proof.
  intros Hi. destruct (lookup_lt_is_Some_2 contractions i Hi) as [c Hc].
  rewrite (take_S_r _ _ _ Hc), taken_ann_snoc.
  by rewrite (list_lookup_total_correct _ _ _ Hc).
Qed.

Lemma leg_choices_pos ops contractions i A s :
  Forall (balanced osi (length ops)) contractions →
  fit_operators osi ops contractions →
  i < length contractions → A < length ops → s < num_spaces osi →
  (0 < leg_choices ops contractions i A s)%Qc.
Proof.
  intros Hbal Hfit Hi HA Hs.
  assert (Forall (balanced osi (length ops)) (drop (S i) contractions))
    as Hdrop by (by apply Forall_drop).
  pose proof (fit_operators_prefix osi ops (take (S i) contractions)
                (drop (S i) contractions) Hdrop) as Hprefix.
  rewrite take_drop in Hprefix. destruct (Hprefix Hfit A s HA Hs) as [Hc Ha].
  rewrite taken_cre_take in Hc by done. rewrite taken_ann_take in Ha by done.
  assert (balanced osi (length ops) (contractions !!! i))
    as (s0 & k & _ & _ & _ & _ & Hlegs & _).
  { rewrite Forall_forall in Hbal. apply Hbal.
    by apply list_elem_of_lookup_total_2. }
  destruct (Hlegs A s HA) as (Hc0 & Ha0 & _).
  unfold leg_choices, free_cre_before, free_ann_before.
  fold (taken_cre (take i contractions) A s).
  fold (taken_ann (take i contractions) A s).
  apply Qcmult_pos_pos; apply Qc_of_Z_pos, binomial_pos; lia.
Qed.

(** X22. The combinatorial factor of balanced contractions that fit the
    operators is positive: the sign of a term is that of the permutation
    and of the contractions alone. *)
Theorem combinatorial_factor_positive ops contractions :
  num_spaces osi ≤ max_spaces_ →
  Forall (balanced osi (length ops)) contractions →
  fit_operators osi ops contractions →
  (0 < combinatorial_factor osi ops contractions)%Qc.
Proof.
  intros Hosi Hbal Hfit.
  assert (Forall (λ c, length c = length ops) contractions) as Hlen.
  { eapply Forall_impl; [done|]. by intros c (s & k & _ & _ & ? & _). }
  unfold combinatorial_factor.
  destruct (contraction_loop osi ops contractions Hosi Hlen) as (Hf & _).
  destruct (foldl _ (1%Qc, vertex <$> ops) contractions) as [f fv].
  cbn [fst] in Hf. rewrite count_loop, Hf. unfold Qcdiv.
  apply Qcmult_pos_pos; [|apply Qcinv_pos]; apply Qc_prod_pos.
  - unfold binomial_product. apply Forall_forall. intros x.
    intros (i & Hx & [_ Hi]%elem_of_seq)%list_elem_of_bind.
    apply list_elem_of_bind in Hx as (A & Hx & [_ HA]%elem_of_seq).
    apply list_elem_of_bind in Hx as (s & Hx & [_ Hs]%elem_of_seq).
    apply list_elem_of_singleton in Hx as ->.
    apply leg_choices_pos; [done|done|lia..].
  - unfold multiplicity_product. apply Forall_fmap, Forall_forall.
    intros c Hc. rewrite elem_of_remove_dups in Hc. cbn.
    apply Qc_of_Z_pos. pose proof (multiplicity_pos c contractions Hc). lia.
Qed.

End positions_and_factor.

(** ** The further properties at the operators of the test suite *)

Lemma generate_elementary_contractions_balanced_witness :
  let osi := osi_ov in
  let ops := [Voovv; T2] in
  let contraction := pair_contraction 2 0 0 1 in
  num_spaces osi ≤ max_spaces_
  ∧ contraction ∈ generate_elementary_contractions osi 2 ops
  ∧ ∃ s k, s < num_spaces osi ∧ (1 ≤ k)%Z
           ∧ balanced_in s k (length ops) contraction.
Proof.
  intros osi ops contraction.
  assert (num_spaces osi ≤ max_spaces_) as Hosi by (vm_compute; lia).
  assert (contraction ∈ generate_elementary_contractions osi 2 ops) as Hin.
  { apply (list_elem_of_lookup_2 _ 0). by vm_compute. }
  split; [exact Hosi|]. split; [exact Hin|].
  exact (generate_elementary_contractions_balanced osi 2 ops contraction
           Hosi Hin).
Defined.

Lemma generate_contractions_backtrack_restores_witness :
  let osi := osi_ov in
  let ops := [Voovv; T2] in
  let el := generate_elementary_contractions osi 2 ops in
  let free := make_move 0 el (vertex <$> ops) in
  Forall (λ v, length v = max_spaces_) free
  ∧ ∃ contractions',
      generate_contractions_backtrack osi 8 [0] el free [[7]] 0 4
      = Some (free, contractions')
      ∧ ∃ recorded, contractions' = [[7]] ++ recorded
                    ∧ ∀ b, b ∈ recorded → ∃ ext, b = [0] ++ ext.
Proof.
  intros osi ops el free.
  assert (Forall (λ v, length v = max_spaces_) free) as Hfree
    by (repeat constructor).
  split; [exact Hfree|].
  destruct (generate_contractions_backtrack osi 8 [0] el free [[7]] 0 4)
    as [[free' contractions']|] eqn:Hrun; [|by vm_compute in Hrun].
  destruct (generate_contractions_backtrack_restores osi 8 [0] el free [[7]]
              0 4 free' contractions' Hfree Hrun) as [-> Hrecorded].
  exists contractions'. split; [reflexivity|exact Hrecorded].
Defined.

Lemma search_depth_bounded_witness :
  let osi := osi_ov in
  let ops := [Voovv; T2] in
  let el := generate_elementary_contractions osi 2 ops in
  let free := make_move 1 el (make_move 0 el (vertex <$> ops)) in
  Forall (λ op, well_formed_vertex (vertex op)) ops
  ∧ Forall (elementary osi (length ops)) el
  ∧ node osi el (vertex <$> ops) [0; 1] free
  ∧ (0 ≤ free_rank free)%Z
  ∧ (Z.of_nat (length [0; 1]) + free_rank free ≤ operators_rank ops)%Z.
Proof.
  intros osi ops el free.
  assert (Forall (λ op, well_formed_vertex (vertex op)) ops) as Hops.
  { apply (Forall_forallb _ (λ op, well_formed_vertexb (vertex op)));
      [|by vm_compute].
    intros op. apply well_formed_vertexb_well_formed. }
  assert (Forall (elementary osi (length ops)) el) as Hel.
  { apply (Forall_forallb _ (elementaryb osi (length ops))); [|by vm_compute].
    intros c. apply elementaryb_elementary. }
  assert (node osi el (vertex <$> ops) [0; 1] free) as Hnode.
  { apply (node_descend osi el (vertex <$> ops) [0]
             (make_move 0 el (vertex <$> ops)) 1).
    - apply (node_descend osi el (vertex <$> ops) [] (vertex <$> ops) 0).
      + apply node_root.
      + apply (list_elem_of_lookup_2 _ 0). by vm_compute.
    - apply (list_elem_of_lookup_2 _ 1). by vm_compute. }
  split; [exact Hops|]. split; [exact Hel|]. split; [exact Hnode|].
  exact (search_depth_bounded osi el ops [0; 1] free Hops Hel Hnode).
Defined.

Lemma recorded_composites_in_band_witness :
  let osi := osi_ov in
  let ops := [Voovv; T2] in
  let el := generate_elementary_contractions osi 2 ops in
  let recorded := [[0; 0; 1]; [0; 0; 1; 1]; [0; 1; 1]] in
  Forall (λ op, well_formed_vertex (vertex op)) ops
  ∧ Forall (λ contraction, length contraction = length ops) el
  ∧ generate_composite_contractions osi el ops 0 2 = Some recorded
  ∧ filter (in_band el ops 0 2) recorded = recorded.
Proof.
  intros osi ops el recorded.
  assert (Forall (λ op, well_formed_vertex (vertex op)) ops) as Hops.
  { apply (Forall_forallb _ (λ op, well_formed_vertexb (vertex op)));
      [|by vm_compute].
    intros op. apply well_formed_vertexb_well_formed. }
  assert (Forall (λ contraction, length contraction = length ops) el) as Hel
    by (repeat constructor).
  assert (generate_composite_contractions osi el ops 0 2 = Some recorded)
    as Hrun by (by vm_compute).
  split; [exact Hops|]. split; [exact Hel|]. split; [exact Hrun|].
  exact (recorded_composites_in_band osi el ops 0 2 recorded Hops Hel Hrun).
Defined.

Lemma process_contractions_added_terms_witness :
  let osi := osi_ov in
  let ops := [Voovv; T2] in
  let el := generate_elementary_contractions osi 2 ops in
  let contractions_ := [[0; 0; 1; 1]; [0; 1]] in
  ∃ result,
    process_contractions osi (λ term, (term, 1%Qc)) el contractions_ 1%Qc
      ops 0 0 = Returns result
    ∧ Forall2 (added_for osi (λ term, (term, 1%Qc))) (evaluator_calls result)
        (added_terms result)
    ∧ length (added_terms result) = 1.
Proof.
  intros osi ops el contractions_.
  destruct (process_contractions osi (λ term, (term, 1%Qc)) el contractions_
              1%Qc ops 0 0) as [result| |] eqn:Hrun;
    [|by vm_compute in Hrun..].
  destruct (process_contractions_added_terms osi (λ term, (term, 1%Qc)) el
              contractions_ 1%Qc ops 0 0 result Hrun) as [Hadded Hlength].
  exists result. split; [reflexivity|]. split; [exact Hadded|].
  rewrite Hlength. by vm_compute.
Defined.

Lemma process_contractions_odd_operator_witness :
  let osi := osi_ov in
  let a := {| label := "a"; factor := 1%Qc;
              vertex := make_vertex [0; 1]%Z [0; 0]%Z |} in
  let ops := [Fov; a] in
  let el := generate_elementary_contractions osi 2 ops in
  Exists (λ op, Z.odd (num_ops op) = true) ops
  ∧ process_contractions osi (λ term, (term, 1%Qc)) el [[]; [0]] 1%Qc ops 1 1
    = Aborts odd_operator_msg
  ∧ process_contractions osi (λ term, (term, 1%Qc)) el [[]; [0]] 1%Qc ops 0 0
    = Returns {| evaluator_calls := []; added_terms := [] |}.
Proof.
  intros osi a ops el.
  assert (Exists (λ op, Z.odd (num_ops op) = true) ops) as Hodd
    by (apply Exists_cons_tl, Exists_cons_hd; reflexivity).
  split; [exact Hodd|]. split.
  - rewrite (process_contractions_odd_operator osi (λ term, (term, 1%Qc)) el
               [[]; [0]] 1%Qc ops 1 1 Hodd).
    apply decide_True. apply Exists_cons_tl, Exists_cons_hd.
    vm_compute. split; discriminate.
  - by vm_compute.
Defined.


Lemma canonicalize_contraction_rearranges_witness :
  let ops := [Voovv; T1; S1] in
  let el := generate_elementary_contractions osi_ov 2 ops in
  let contractions := (λ c, el !!! c) <$> [0; 1; 2; 3] in
  canonicalize_contraction osi_ov el ops [0; 1; 2; 3]
  = Returns ([Voovv; S1; T1], (λ c, contractions !!! c) <$> [2; 3; 0; 1])
  ∧ [Voovv; S1; T1] ≡ₚ ops
  ∧ (λ c, contractions !!! c) <$> [2; 3; 0; 1] ≡ₚ contractions.
Proof.
  intros ops el contractions.
  assert (canonicalize_contraction osi_ov el ops [0; 1; 2; 3]
          = Returns ([Voovv; S1; T1], (λ c, contractions !!! c) <$> [2; 3; 0; 1]))
    as Hrun by (by vm_compute).
  split; [exact Hrun|].
  exact (canonicalize_contraction_rearranges osi_ov el ops [0; 1; 2; 3] _ _
           Hrun).
Defined.


Lemma vertex_vec_to_pos_spec_witness :
  let osi := osi_ov in
  let ops := [Voovv; T2] in
  let op_map := operator_map osi ops in
  let vertex_vec := pair_contraction 2 0 0 1 in
  let offset := replicate 2 Vertex.zero in
  length vertex_vec ≤ length offset
  ∧ vertex_vec_to_pos osi vertex_vec offset op_map true
    = Returns ([0],
               [Vertex.set_cre 0 1 Vertex.zero; Vertex.zero])
  ∧ vertex_vec_to_pos osi vertex_vec offset ∅ true = Aborts not_found_msg
  ∧ vertex_vec_to_pos osi offset offset op_map true = Undefined.
Proof.
  intros osi ops op_map vertex_vec offset.
  assert (length vertex_vec ≤ length offset) as Hlength by (vm_compute; lia).
  split; [exact Hlength|]. split; [|split].
  - rewrite (vertex_vec_to_pos_spec osi op_map vertex_vec offset true Hlength).
    by vm_compute.
  - by vm_compute.
  - by vm_compute.
Defined.



Lemma operator_map_sound_witness :
  let osi := osi_ov in
  let ops := [Voovv; T2] in
  1 < length ops ∧ 0 < num_spaces osi
  ∧ (0 ≤ 1 < op_ann (ops !!! 1%nat) 0)%Z
  ∧ ∃ pos sqop,
      operator_map osi ops !! (1, 0, false, 1%Z) = Some pos
      ∧ operator_sqops osi ops !! pos = Some sqop
      ∧ sq_type sqop = Annihilation.
Proof.
  intros osi ops.
  assert (1 < length ops) as Ho by (vm_compute; lia).
  assert (0 < num_spaces osi) as Hs by (vm_compute; lia).
  assert (0 ≤ 1 < op_ann (ops !!! 1%nat) 0)%Z as Hslot by (by vm_compute).
  split; [exact Ho|]. split; [exact Hs|]. split; [exact Hslot|].
  exact (operator_map_sound osi ops 1 0 false 1 Ho Hs Hslot).
Defined.

Lemma combinatorial_factor_positive_witness :
  let osi := osi_ov in
  let ops := [Voovv; T2] in
  let contractions := [pair_contraction 2 0 0 1; pair_contraction 2 0 0 1] in
  num_spaces osi ≤ max_spaces_
  ∧ Forall (balanced osi (length ops)) contractions
  ∧ fit_operators osi ops contractions
  ∧ (0 < combinatorial_factor osi ops contractions)%Qc.
Proof.
  intros osi ops contractions.
  assert (num_spaces osi ≤ max_spaces_) as Hosi by (vm_compute; lia).
  assert (balanced osi (length ops) (pair_contraction 2 0 0 1)) as Hpair.
  { exists 0, 1%Z. split; [vm_compute; lia|]. split; [lia|].
    split; [reflexivity|]. split; [repeat constructor|].
    split; [|by vm_compute].
    intros [|[|A]] s' HA; [| |vm_compute in HA; lia].
    - destruct s' as [|s']; [by vm_compute|]. do 7 (destruct s' as [|s']; [by vm_compute|]). by vm_compute.
    - destruct s' as [|s']; [by vm_compute|]. do 7 (destruct s' as [|s']; [by vm_compute|]). by vm_compute. }
  assert (Forall (balanced osi (length ops)) contractions) as Hbal
    by (repeat constructor; exact Hpair).
  assert (fit_operators osi ops contractions) as Hfit.
  { intros [|[|A]] [|[|s]] HA Hs;
      try (vm_compute in HA; lia); try (vm_compute in Hs; lia);
      vm_compute; split; discriminate. }
  split; [exact Hosi|]. split; [exact Hbal|]. split; [exact Hfit|].
  exact (combinatorial_factor_positive osi ops contractions Hosi Hbal Hfit).
Defined.
